(** * Verification of [utils/model_performance_analysis.py]

    A shallow embedding of the notebook-support functions of the toxicity
    classifier (prediction, confusion matrices, training curves,
    precision-recall analysis and failure extraction), with the properties
    of its specification proved about the embedding.

    Conventions.
    - Python [int] is [Z]; Python [float] (probabilities, scores, metrics)
      is [Qc], the canonical rationals: finite values with their exact
      order, for which Leibniz equality is numeric equality.  A float is
      the rational it denotes; an operation of numpy in single or double
      precision is the exact operation followed by [Np.float32] or
      [Np.float64], the rounding to the nearest number of the format.  The
      precision-recall analysis is embedded over the rationals ([Sk]) and,
      for the choice of the operating point, in double precision
      ([Float64]).
    - A Python [dict] keyed by strings is an association list in insertion
      order; [dict_set] is item assignment.  A [pandas.DataFrame] with the
      columns [TEXT] and [LABEL] is the list of its rows.
    - A raised exception is the [Raise] result of the [result] monad.
    - Library calls (numpy, scikit-learn, torch) are embedded by their
      documented behaviour, each in the module named after the library.
    - A Python [str] is a [string] of ASCII characters. *)

From Stdlib Require Import QArith Qcanon.
From stdpp Require Import base numbers list strings pretty gmap sorting.

Local Open Scope Z_scope.

(** ** Exceptions and the result monad *)

(** An [AssertionError] carries the fixed part of its message. *)
Inductive exn : Set :=
| AssertionError (msg : string)
| ValueError
| KeyError
| IndexError
| TypeError
| AttributeError
| RecursionError.

Inductive result (A : Type) : Type :=
| Ok (a : A)
| Raise (e : exn).
Arguments Ok {A} a.
Arguments Raise {A} e.

Definition rbind {A B} (k : A → result B) (m : result A) : result B :=
  match m with
  | Ok a => k a
  | Raise e => Raise e
  end.

#[global] Instance result_ret : MRet result := @Ok.
#[global] Instance result_bind : MBind result := @rbind.

(** [assert b, msg] *)
Definition assert (b : bool) (msg : string) : result unit :=
  if b then Ok tt else Raise (AssertionError msg).

(** ** Constants of [utils/constants.py] *)

(** Modelled from the spec: [utils/constants.py] is not among the sources;
    the label names are the ones of the docstring of [find_top_failures]
    (['False TOXIC'], ['False NON-TOXIC']). *)
Definition NON_TOXIC : string := "NON-TOXIC".
Definition TOXIC : string := "TOXIC".

(** Modelled from the spec: the dictionary keys of a per-language entry, as
    the docstring of [predict_with_probabilities] gives them. *)
Definition TRUE_LABELS : string := "true_labels".
Definition PRED_LABELS : string := "pred_labels".
Definition PRED_PROBS : string := "pred_probs".

(** ** Stable insertion sort

    [before x y] tells that [x], which comes earlier in the input, also
    comes before [y] in the output. *)

Section StableSort.
Context {A : Type} (before : A → A → bool).

Fixpoint insert_by (x : A) (l : list A) : list A :=
  match l with
  | [] => [x]
  | y :: l' => if before x y then x :: y :: l' else y :: insert_by x l'
  end.

Definition sort_by (l : list A) : list A := foldr insert_by [] l.
End StableSort.

(** ** Python built-ins *)

Module Py.

(** [d[k] = v]: replaces the value of an existing key in place, appends a
    new key at the end. *)
Fixpoint dict_set {V} (d : list (string * V)) (k : string) (v : V)
  : list (string * V) :=
  match d with
  | [] => [(k, v)]
  | (k', v') :: d' =>
      if decide (k' = k) then (k, v) :: d' else (k', v') :: dict_set d' k v
  end.

(** [d[k]], raising [KeyError] for a missing key. *)
Fixpoint dict_get {V} (d : list (string * V)) (k : string) : result V :=
  match d with
  | [] => Raise KeyError
  | (k', v) :: d' => if decide (k' = k) then Ok v else dict_get d' k
  end.

Definition keys {V} (d : list (string * V)) : list string := d.*1.

(** Well-formed dictionaries have pairwise distinct keys. *)
Definition is_dict {V} (d : list (string * V)) : Prop := NoDup (keys d).

(** [max(p)] on a two-element row: the first element is kept unless the
    second is strictly greater. *)
Definition max2 (p : Qc * Qc) : Qc :=
  if bool_decide (p.1 < p.2)%Qc then p.2 else p.1.

(** [zip(a, b, c)]: stops at the shortest argument. *)
Fixpoint zip3 {A B C} (a : list A) (b : list B) (c : list C)
  : list (A * B * C) :=
  match a, b, c with
  | x :: a', y :: b', z :: c' => (x, y, z) :: zip3 a' b' c'
  | _, _, _ => []
  end.

(** [enumerate(l)] counted from [i]. *)
Fixpoint enumerate_from {A} (i : nat) (l : list A) : list (nat * A) :=
  match l with
  | [] => []
  | x :: l' => (i, x) :: enumerate_from (S i) l'
  end.

(** [l[i]] for [i >= 0]. *)
Definition index {A} (l : list A) (i : nat) : result A :=
  match l !! i with
  | Some x => Ok x
  | None => Raise IndexError
  end.

(** [l[:k]]: a negative [k] counts from the end. *)
Definition slice_to {A} (l : list A) (k : Z) : list A :=
  if bool_decide (k < 0)
  then take (Z.to_nat (Z.max 0 (Z.of_nat (length l) + k))) l
  else take (Z.to_nat k) l.

(** [sorted(l, key=key, reverse=True)]: stable, descending in [key];
    rows of equal key keep their original order. *)
Definition sorted_reverse {A} (key : A → Qc) (l : list A) : list A :=
  sort_by (λ x y, bool_decide (key y ≤ key x)%Qc) l.

(** [s.title()]: a letter that follows a letter is put in lower case, any
    other letter in upper case; what is not a letter is kept. *)
Definition is_lower (c : Ascii.ascii) : bool :=
  bool_decide (97 ≤ Ascii.nat_of_ascii c ≤ 122)%nat.
Definition is_upper (c : Ascii.ascii) : bool :=
  bool_decide (65 ≤ Ascii.nat_of_ascii c ≤ 90)%nat.
Definition is_cased (c : Ascii.ascii) : bool := is_lower c || is_upper c.
Definition to_upper (c : Ascii.ascii) : Ascii.ascii :=
  if is_lower c then Ascii.ascii_of_nat (Ascii.nat_of_ascii c - 32) else c.
Definition to_lower (c : Ascii.ascii) : Ascii.ascii :=
  if is_upper c then Ascii.ascii_of_nat (Ascii.nat_of_ascii c + 32) else c.

Fixpoint title_from (previous_is_cased : bool) (s : string) : string :=
  match s with
  | EmptyString => EmptyString
  | String c s' =>
      String (if previous_is_cased then to_lower c else to_upper c)
        (title_from (is_cased c) s')
  end.

Definition title (s : string) : string := title_from false s.

(** The nearest integer, a tie going to the even one: the rounding of the
    format specifications of floats. *)
Definition round_half_even (q : Qc) : Z :=
  let n := Qnum q in
  let d := Z.pos (Qden q) in
  if bool_decide (2 * (n `mod` d) < d) then n `div` d
  else if bool_decide (d < 2 * (n `mod` d)) then n `div` d + 1
  else if Z.even (n `div` d) then n `div` d else n `div` d + 1.

(** [f"{x:.2f}"]: the sign of [x], then [|x|] rounded to two decimals. *)
Definition format_2f (x : Qc) : string :=
  let negative := bool_decide (x < 0)%Qc in
  let n := round_half_even ((if negative then - x else x) * Qc_of_Z 100)%Qc in
  (if negative then "-" else "") +:+
  pretty (n `div` 100) +:+ "." +:+
  pretty ((n `div` 10) `mod` 10) +:+ pretty (n `mod` 10).

End Py.

(** ** numpy *)

Module Np.

(** *** Binary floating point

    [2^e] for an integer [e] of either sign. *)
Definition pow2 (e : Z) : Qc :=
  if bool_decide (0 ≤ e) then Qc_of_Z (2 ^ e)
  else (/ Qc_of_Z (2 ^ (- e)))%Qc.

(** The exponent of [x > 0]: the [e] with [2^e <= x < 2^(e+1)]. *)
Definition ilog2 (x : Qc) : Z :=
  let a := Z.log2 (Qnum x) - Z.log2 (Z.pos (Qden x)) in
  if bool_decide (pow2 a ≤ x)%Qc then a else a - 1.

(** The multiple of [2^q] nearest to [x], a tie going to the even
    multiple. *)
Definition on_grid (q : Z) (x : Qc) : Qc :=
  (Qc_of_Z (Py.round_half_even (x / pow2 q)) * pow2 q)%Qc.

Definition absolute (x : Qc) : Qc :=
  if bool_decide (x < 0)%Qc then (- x)%Qc else x.

(** The exponent of the last place of [x] in a binary format with [prec]
    significant bits whose smallest positive number is [2^emin]. *)
Definition quantum (prec emin : Z) (x : Qc) : Z :=
  Z.max (ilog2 (absolute x) - (prec - 1)) emin.

(** Rounding to the nearest number of the format (IEEE 754,
    round-to-nearest-even, with subnormal numbers).  The format has no
    largest exponent here: the quotients, products and roots that the
    embedding rounds are at most 10000, and for the one number that comes
    from outside, the threshold of [where_gt], see there. *)
Definition round_to (prec emin : Z) (x : Qc) : Qc :=
  if bool_decide (x = 0%Qc) then 0%Qc
  else on_grid (quantum prec emin x) x.

(** [numpy.float32] and [numpy.float64] of a number. *)
Definition float32 : Qc → Qc := round_to 24 (-149).
Definition float64 : Qc → Qc := round_to 53 (-1074).

(** The square root of [x >= 0] rounded to the nearest number of the
    format: [s] is the integer part of the root in units of the last
    place, [mid] the square of the midpoint above it. *)
Definition sqrt_to (prec emin : Z) (x : Qc) : Qc :=
  if bool_decide (x ≤ 0)%Qc then 0%Qc
  else
    let q := Z.max (ilog2 x `div` 2 - (prec - 1)) emin in
    let y := (x / pow2 (2 * q))%Qc in
    let s := Z.sqrt (Qnum y `div` Z.pos (Qden y)) in
    let mid := (Qc_of_Z ((2 * s + 1) * (2 * s + 1)) / Qc_of_Z 4)%Qc in
    let m := if bool_decide (y < mid)%Qc then s
             else if bool_decide (mid < y)%Qc then s + 1
             else if Z.even s then s else s + 1 in
    (Qc_of_Z m * pow2 q)%Qc.

(** [np.round(x, decimals)] on a [float64], which [round(x, ndigits)]
    calls: scale by the power of ten, round to the nearest integer
    ([np.rint], ties to even), scale back; every step in double
    precision. *)
Definition around (decimals : nat) (x : Qc) : Qc :=
  let f := Qc_of_Z (10 ^ Z.of_nat decimals) in
  float64 (Qc_of_Z (Py.round_half_even (float64 (x * f))) / f).

(** [np.where(col > th, 1, 0)] on one entry of a [float32] column.  The
    Python float [th] is converted to the type of the column and the
    comparison is made in single precision.  A threshold beyond the range
    of [float32] becomes an infinity there; its rounding without a largest
    exponent is above, or below, every [float32] as well, so that the
    comparison with an entry of the column is the same. *)
Definition where_gt (x th : Qc) : Z :=
  if bool_decide (float32 th < x)%Qc then 1 else 0.

(** The values of [np.sqrt] over the rationals: [Root q] is the exact
    square root of [q >= 0], [NaN] the result for a negative argument.
    The roots in double precision are [Float64.sqrt]. *)
Inductive root : Set :=
| NaN
| Root (radicand : Qc).

Definition sqrt (x : Qc) : root :=
  if bool_decide (x < 0)%Qc then NaN else Root x.

(** [x] replaces the running maximum [best] in [np.argmax]: a [NaN] wins
    over every number and is never replaced; square roots of
    non-negative numbers compare as their radicands. *)
Definition beats (x best : root) : bool :=
  match best, x with
  | NaN, _ => false
  | Root _, NaN => true
  | Root b, Root a => bool_decide (b < a)%Qc
  end.

Fixpoint argmax_from (best_i : nat) (best : root) (i : nat)
    (l : list root) : nat :=
  match l with
  | [] => best_i
  | x :: l' =>
      if beats x best then argmax_from i x (S i) l'
      else argmax_from best_i best (S i) l'
  end.

(** [np.argmax(a)]: the first index of the maximum; an empty array is
    refused. *)
Definition argmax (a : list root) : result nat :=
  match a with
  | [] => Raise ValueError
  | x :: a' => Ok (argmax_from 0 x 1 a')
  end.

(** [a * b] on arrays of one dimension: equal lengths, or one operand of
    length one that is broadcast. *)
Definition mul (a b : list Qc) : result (list Qc) :=
  if bool_decide (length a = length b) then Ok (zip_with Qcmult a b)
  else match a, b with
       | [x], _ => Ok (Qcmult x <$> b)
       | _, [y] => Ok ((λ x, x * y)%Qc <$> a)
       | _, _ => Raise ValueError
       end.

(** [np.mean] of an array of booleans: the number of [True] divided by
    the length, in double precision; [None] is the [nan] that the mean of
    an empty array is. *)
Definition mean (a : list bool) : option Qc :=
  match a with
  | [] => None
  | _ :: _ =>
      Some (float64
              (Qc_of_Z (Z.of_nat (length (filter (λ b, b = true) a))) /
               Qc_of_Z (Z.of_nat (length a))))
  end.

(** [a * k] on a [float64] array of two dimensions and a number. *)
Definition times (a : list (list Qc)) (k : Qc) : list (list Qc) :=
  (λ row : list Qc, (λ x, float64 (x * k)) <$> row) <$> a.

(** [a[i, j]] on an array of [rows] by [cols] items, for [i, j >= 0]: the
    position of the item. *)
Definition index2 (rows cols i j : nat) : result (nat * nat) :=
  if bool_decide (i < rows ∧ j < cols)%nat then Ok (i, j)
  else Raise IndexError.

End Np.

(** ** torch *)

Module Torch.

(** The batches that [DataLoader(data, batch_size=bs, shuffle=False)]
    yields: consecutive slices of [bs] items, the last one shorter.
    [n] bounds the number of batches. *)
Fixpoint batches {A} (n bs : nat) (data : list A) : list (list A) :=
  match n, data with
  | S n', _ :: _ => take bs data :: batches n' bs (drop bs data)
  | _, _ => []
  end.

(** [DataLoader] refuses a batch size that is not positive. *)
Definition DataLoader {A} (data : list A) (batch_size : Z)
  : result (list (list A)) :=
  if bool_decide (batch_size ≤ 0) then Raise ValueError
  else Ok (batches (length data) (Z.to_nat batch_size) data).

End Torch.

(** ** Data model *)

Record row := Row { text : string; label : Z }.

(** A [DataFrame] with the columns [TEXT] and [LABEL]: its rows in
    positional order. *)
Definition dataframe := list row.

(** One per-language entry
    [{TRUE_LABELS: ..., PRED_LABELS: ..., PRED_PROBS: ...}]. *)
Record prediction := Prediction {
  true_labels : list Z;
  pred_labels : list Z;
  pred_probs : list (Qc * Qc)
}.

(** ** Inference Runner: [predict_with_probabilities] *)

Section InferenceRunner.

(** The classifier loaded from [model_path]: [logits] is a row of the two
    class logits, [model] the forward pass on a tokenised batch of texts,
    [softmax] is [torch.nn.functional.softmax(., dim=1)] on one row, a
    pair of [float32].  Lines 49-59 load the classifier; the exceptions of
    [from_pretrained], [torch.load] and [load_state_dict] on a file that
    is no checkpoint of the model are not embedded: [model] is the
    classifier once it is loaded. *)
Context {logits : Type}.
Variable model : list string → list logits.
Variable softmax : logits → Qc * Qc.

(** The loop over the batches of one language: the pair
    [(pred_labels, pred_probs)] after the batches. *)
Fixpoint predict_batches (conf_th : Qc) (loader : list (list string))
    (acc : list Z * list (Qc * Qc)) : list Z * list (Qc * Qc) :=
  match loader with
  | [] => acc
  | batch :: loader' =>
      let probabilities := softmax <$> model batch in
      let predictions := (λ p, Np.where_gt p.2 conf_th) <$> probabilities in
      predict_batches conf_th loader'
        (acc.1 ++ predictions, acc.2 ++ probabilities)
  end.

Definition predict_language (lang_dataset : dataframe) (batch_size : Z)
    (conf_th : Qc) : result prediction :=
  data_loader ← Torch.DataLoader (text <$> lang_dataset) batch_size;
  let '(labels, probs) := predict_batches conf_th data_loader ([], []) in
  Ok (Prediction (label <$> lang_dataset) labels probs).

Fixpoint predict_languages (items : list (string * dataframe))
    (batch_size : Z) (conf_th : Qc)
    (results_by_lang : list (string * prediction))
  : result (list (string * prediction)) :=
  match items with
  | [] => Ok results_by_lang
  | (lang, lang_dataset) :: items' =>
      r ← predict_language lang_dataset batch_size conf_th;
      predict_languages items' batch_size conf_th
        (Py.dict_set results_by_lang lang r)
  end.

(** [model_is_file] is the outcome of [os.path.isfile(model_path)]. *)
Definition predict_with_probabilities (model_is_file : bool)
    (df_by_language : list (string * dataframe))
    (batch_size : Z) (conf_th : Qc)
  : result (list (string * prediction)) :=
  _ ← assert model_is_file "Model path is not a file";
  predict_languages df_by_language batch_size conf_th [].

End InferenceRunner.

(** ** Confusion Matrix Reporter: [show_confusion_matrix]

    The value-level embedding.  After its two assertions the function only
    reads the merged mapping to draw one panel per entry; the embedding
    returns the true and predicted labels of each panel, in drawing order.
    The object-level embedding, with the heap, the copy and the aliasing,
    is [Heap.show_confusion_matrix] below. *)

Definition ALL_LANGUAGES : string := "all languages".

Definition size_msg : string :=
  "Expected true and pred labels to have the same size. ".
Definition entries_msg : string := "Expected 4 language entries, ".

(** The loop that fills [total_labels]. *)
Fixpoint pool_labels (items : list (string * prediction))
    (total : list Z * list Z) : list Z * list Z :=
  match items with
  | [] => total
  | (lang, labels) :: items' =>
      pool_labels items'
        (total.1 ++ true_labels labels, total.2 ++ pred_labels labels)
  end.

Definition panel_labels (labels : prediction) : list Z * list Z :=
  (true_labels labels, pred_labels labels).

Definition show_confusion_matrix
    (labels_and_predictions_by_lang : list (string * prediction))
  : result (list (string * (list Z * list Z))) :=
  let total_labels := pool_labels labels_and_predictions_by_lang ([], []) in
  _ ← assert (bool_decide (length total_labels.1 = length total_labels.2))
        size_msg;
  let merged :=
    Py.dict_set (prod_map id panel_labels <$> labels_and_predictions_by_lang)
      ALL_LANGUAGES total_labels in
  _ ← assert (bool_decide (length merged = 4%nat)) entries_msg;
  Ok merged.

(** ** Training Curve Plotter: [plot_training_curves] *)

Definition accs_msg : string :=
  "Training and validation accuracies must have the same length, ".
Definition losses_msg : string :=
  "Training and validation losses must have the same length, ".

(** One chart: its title and the two series drawn on it. *)
Record chart := Chart {
  chart_title : string;
  train_data : list Qc;
  val_data : list Qc
}.

Definition plot_training_curves (train_accs train_losses : list Qc)
    (val_accs val_losses : list Qc) : result (list chart) :=
  _ ← assert (bool_decide (length train_accs = length val_accs)) accs_msg;
  _ ← assert (bool_decide (length train_losses = length val_losses))
        losses_msg;
  Ok [Chart "Accuracy" train_accs val_accs;
      Chart "Loss" train_losses val_losses].

(** ** scikit-learn: [sklearn.metrics] *)

Module Sk.

(** With [pos_label=None] the classes of [y_true] must be [{0, 1}],
    [{-1, 1}] or one of their non-empty subsets; then the positive class
    is [1]. *)
Definition binary_target (y_true : list Z) : bool :=
  bool_decide (y_true ≠ []) &&
  (forallb (λ y, bool_decide (y = 0 ∨ y = 1)) y_true ||
   forallb (λ y, bool_decide (y = -1 ∨ y = 1)) y_true).

(** The cumulative counts of [_binary_clf_curve] over the samples in
    decreasing order of score: one triple [(fps, tps, threshold)] at the
    last sample of every run of equal scores. *)
Fixpoint cum_counts (tp fp : Z) (l : list (bool * Qc))
  : list (Z * Z * Qc) :=
  match l with
  | [] => []
  | (y, s) :: l' =>
      let tp' := if y then tp + 1 else tp in
      let fp' := if y then fp else fp + 1 in
      match l' with
      | [] => [(fp', tp', s)]
      | (_, s') :: _ =>
          if decide (s = s') then cum_counts tp' fp' l'
          else (fp', tp', s) :: cum_counts tp' fp' l'
      end
  end.

(** [np.argsort(y_score, kind="mergesort")[::-1]] applied to both
    arrays: a stable ascending sort, reversed. *)
Definition desc_score (samples : list (bool * Qc)) : list (bool * Qc) :=
  reverse (sort_by (λ a b, bool_decide (a.2 ≤ b.2)%Qc) samples).

Definition binary_clf_curve (y_true : list Z) (y_score : list Qc)
  : result (list (Z * Z * Qc)) :=
  if negb (binary_target y_true) then Raise ValueError
  else if negb (bool_decide (length y_true = length y_score))
  then Raise ValueError
  else
    let samples := zip ((λ y, bool_decide (y = 1)) <$> y_true) y_score in
    Ok (cum_counts 0 0 (desc_score samples)).

(** [precision_recall_curve(y_true, y_score)]: precision, recall and
    thresholds, by increasing threshold, with the final point
    [(precision, recall) = (1, 0)] that has no threshold.  The quotients
    are the exact ones; [Float64.precision_recall_curve] rounds them to
    doubles. *)
Definition precision_recall_curve (y_true : list Z) (y_score : list Qc)
  : result (list Qc * list Qc * list Qc) :=
  pts ← binary_clf_curve y_true y_score;
  let precision :=
    (λ '(fp, tp, _), Qc_of_Z tp / Qc_of_Z (tp + fp))%Qc <$> pts in
  let tps_last := default 0 (last (pts.*1.*2)) in
  let recall :=
    (λ '(fp, tp, _),
       if bool_decide (tps_last = 0) then 1%Qc
       else (Qc_of_Z tp / Qc_of_Z tps_last)%Qc) <$> pts in
  Ok (reverse precision ++ [1%Qc], reverse recall ++ [0%Qc],
      reverse (pts.*2)).

(** [np.diff] *)
Fixpoint diff (x : list Qc) : list Qc :=
  match x with
  | a :: (b :: _) as x' => (b - a)%Qc :: diff x'
  | _ => []
  end.

(** [np.trapz(y, x)] *)
Fixpoint trapezoid (y x : list Qc) : Qc :=
  match y, x with
  | y0 :: (y1 :: _) as y', x0 :: (x1 :: _) as x' =>
      ((x1 - x0) * (y0 + y1) / 2 + trapezoid y' x')%Qc
  | _, _ => 0%Qc
  end.

(** [auc(x, y)]: the trapezoidal rule, for monotonic [x]; the checks of
    [auc], and the area over the rationals. *)
Definition auc (x y : list Qc) : result Qc :=
  if negb (bool_decide (length x = length y)) then Raise ValueError
  else if bool_decide (length x < 2)%nat then Raise ValueError
  else
    let dx := diff x in
    if existsb (λ d, bool_decide (d < 0)%Qc) dx then
      if forallb (λ d, bool_decide (d ≤ 0)%Qc) dx
      then Ok (- trapezoid y x)%Qc
      else Raise ValueError
    else Ok (trapezoid y x).

(** [unique_labels(y_true, y_pred)]: the labels that occur in one of the
    arrays, in ascending order. *)
Definition unique_labels (y_true y_pred : list Z) : list Z :=
  merge_sort Z.le (remove_dups (y_true ++ y_pred)).

(** The counts of [confusion_matrix]: row [i], column [j] holds the number
    of samples whose true label is [labels[i]] and whose predicted label is
    [labels[j]]. *)
Definition count_matrix (labels : list Z) (samples : list (Z * Z))
  : list (list Z) :=
  (λ t, (λ p, Z.of_nat (length (filter (λ s, s = (t, p)) samples)))
          <$> labels) <$> labels.

(** [normalize='true']: every row of counts is divided by its sum, in
    double precision; the [nan] of a row without samples becomes 0
    ([np.nan_to_num]). *)
Definition normalize_true (cm : list (list Z)) : list (list Qc) :=
  (λ row,
     let total := foldr Z.add 0 row in
     (λ c, if bool_decide (total = 0) then 0%Qc
           else Np.float64 (Qc_of_Z c / Qc_of_Z total)) <$> row) <$> cm.

(** [confusion_matrix(y_true=y_true, y_pred=y_pred, normalize='true')] *)
Definition confusion_matrix (y_true y_pred : list Z)
  : result (list (list Qc)) :=
  if negb (bool_decide (length y_true = length y_pred)) then Raise ValueError
  else Ok (normalize_true
             (count_matrix (unique_labels y_true y_pred)
                (zip y_true y_pred))).

End Sk.

(** ** Confusion Matrix Reporter: the drawing loop *)

(** One panel of the grid: the axes [axes[i // 2, i % 2]] it is drawn on,
    the language of its title, the confusion matrix in percent that
    [matshow] gets, the accuracy in percent as the title shows it, rounded
    to two decimals ([None] is [nan]), and the numbers written into the
    cells, rounded to one decimal. *)
Record panel := Panel {
  panel_axes : nat * nat;
  panel_title : string;
  panel_cm : list (list Qc);
  panel_accuracy : option Qc;
  panel_texts : list (list Qc)
}.

(** The body of the loop for entry [i].  The inner loops over the cells
    reuse the name [i]; [enumerate] binds it again at the next entry, after
    the axes of this one have been chosen. *)
Definition draw_panel (i : nat) (lang : string) (values : list Z * list Z)
  : result panel :=
  let '(true_, preds) := values in
  cm ← Sk.confusion_matrix true_ preds;
  let cm := Np.times cm (Qc_of_Z 100) in
  ax ← Np.index2 2 2 (i `div` 2) (i `mod` 2);
  let accuracy :=
    (λ a, Np.float64 (a * Qc_of_Z 100)) <$>
      Np.mean (zip_with (λ t p, bool_decide (t = p)) true_ preds) in
  Ok (Panel ax (Py.title lang) cm (Np.around 2 <$> accuracy)
        ((λ row : list Qc, Np.around 1 <$> row) <$> cm)).

Fixpoint draw_panels (items : list (nat * (string * (list Z * list Z))))
  : result (list panel) :=
  match items with
  | [] => Ok []
  | (i, (lang, values)) :: items' =>
      p ← draw_panel i lang values;
      ps ← draw_panels items';
      Ok (p :: ps)
  end.

(** [show_confusion_matrix] with its drawing loop: the panels drawn. *)
Definition draw_confusion_matrices
    (labels_and_predictions_by_lang : list (string * prediction))
  : result (list panel) :=
  merged ← show_confusion_matrix labels_and_predictions_by_lang;
  draw_panels (Py.enumerate_from 0 merged).

(** ** Precision-Recall Analyzer: [plot_combined_precision_recall_curve] *)

(** What is drawn: the curve, its area in the legend, and the marked
    operating point with its threshold. *)
Record pr_plot := PRPlot {
  recall : list Qc;
  precision : list Qc;
  pr_auc : Qc;
  optimal_idx : nat;
  optimal_threshold : Qc;
  optimal_point : Qc * Qc
}.

(** The loop that accumulates true labels and toxic probabilities. *)
Fixpoint pool_scores (items : list (string * prediction))
    (total : list Z * list Qc) : list Z * list Qc :=
  match items with
  | [] => total
  | (lang, data) :: items' =>
      pool_scores items'
        (total.1 ++ true_labels data, total.2 ++ (snd <$> pred_probs data))
  end.

Definition plot_combined_precision_recall_curve
    (results_by_lang : list (string * prediction)) : result pr_plot :=
  let '(total_true_labels, total_pred_probs) :=
    pool_scores results_by_lang ([], []) in
  '(precision, recall, thresholds) ←
    Sk.precision_recall_curve total_true_labels total_pred_probs;
  pr_auc ← Sk.auc recall precision;
  products ← Np.mul precision recall;
  optimal_idx ← Np.argmax (Np.sqrt <$> products);
  optimal_threshold ← Py.index thresholds optimal_idx;
  r ← Py.index recall optimal_idx;
  p ← Py.index precision optimal_idx;
  Ok (PRPlot recall precision pr_auc optimal_idx optimal_threshold (r, p)).

(** ** Precision-Recall Analyzer: the operating point in double precision

    Lines 193-206 with the arithmetic of numpy and scikit-learn: the
    quotients of [precision_recall_curve], the products of line 205 and
    their square roots are the exact results rounded to the nearest
    double.  The counts of [_binary_clf_curve] are sums of ones and exact.
    Of [auc] (line 202) the checks are kept; the area that it returns for
    the legend has no part in the choice of the point. *)

Module Float64.

Definition precision_recall_curve (y_true : list Z) (y_score : list Qc)
  : result (list Qc * list Qc * list Qc) :=
  pts ← Sk.binary_clf_curve y_true y_score;
  let precision :=
    (λ '(fp, tp, _), Np.float64 (Qc_of_Z tp / Qc_of_Z (tp + fp))) <$> pts in
  let tps_last := default 0 (last (pts.*1.*2)) in
  let recall :=
    (λ '(fp, tp, _),
       if bool_decide (tps_last = 0) then 1%Qc
       else Np.float64 (Qc_of_Z tp / Qc_of_Z tps_last)) <$> pts in
  Ok (reverse precision ++ [1%Qc], reverse recall ++ [0%Qc],
      reverse (pts.*2)).

(** [a * b] on [float64] arrays of one dimension. *)
Definition mul (a b : list Qc) : result (list Qc) :=
  if bool_decide (length a = length b)
  then Ok (zip_with (λ x y, Np.float64 (x * y)) a b)
  else match a, b with
       | [x], _ => Ok ((λ y, Np.float64 (x * y)) <$> b)
       | _, [y] => Ok ((λ x, Np.float64 (x * y)) <$> a)
       | _, _ => Raise ValueError
       end.

(** [np.sqrt] on a [float64]: the root rounded to the nearest double;
    [None] is the [nan] of a negative argument. *)
Definition sqrt (x : Qc) : option Qc :=
  if bool_decide (x < 0)%Qc then None else Some (Np.sqrt_to 53 (-1074) x).

(** [x] replaces the running maximum [best] in [np.argmax]: a [nan] wins
    over every number and is never replaced. *)
Definition beats (x best : option Qc) : bool :=
  match best, x with
  | None, _ => false
  | Some _, None => true
  | Some b, Some a => bool_decide (b < a)%Qc
  end.

Fixpoint argmax_from (best_i : nat) (best : option Qc) (i : nat)
    (l : list (option Qc)) : nat :=
  match l with
  | [] => best_i
  | x :: l' =>
      if beats x best then argmax_from i x (S i) l'
      else argmax_from best_i best (S i) l'
  end.

(** [np.argmax(a)]: the first index of the maximum. *)
Definition argmax (a : list (option Qc)) : result nat :=
  match a with
  | [] => Raise ValueError
  | x :: a' => Ok (argmax_from 0 x 1 a')
  end.

(** The curve and the point that is marked on it. *)
Record marked := Marked {
  recall : list Qc;
  precision : list Qc;
  optimal_idx : nat;
  optimal_threshold : Qc;
  optimal_point : Qc * Qc
}.

Definition operating_point (results_by_lang : list (string * prediction))
  : result marked :=
  let '(total_true_labels, total_pred_probs) :=
    pool_scores results_by_lang ([], []) in
  '(precision, recall, thresholds) ←
    precision_recall_curve total_true_labels total_pred_probs;
  _ ← Sk.auc recall precision;
  products ← mul precision recall;
  optimal_idx ← argmax (sqrt <$> products);
  optimal_threshold ← Py.index thresholds optimal_idx;
  r ← Py.index recall optimal_idx;
  p ← Py.index precision optimal_idx;
  Ok (Marked recall precision optimal_idx optimal_threshold (r, p)).


End Float64.

(** ** Failure Extractor: [find_top_failures] *)

Record failure := Failure {
  failure_true_label : Z;
  failure_pred_label : Z;
  confidence : Qc;
  failure_text : string
}.

Definition FALSE_TOXIC : string := "False " +:+ TOXIC.
Definition FALSE_NON_TOXIC : string := "False " +:+ NON_TOXIC.

(** The loop over the rows of one language: the pair
    [(failures_false_toxic, failures_false_nontoxic)]. *)
Fixpoint scan_failures (test_set : dataframe)
    (rows : list (nat * (Z * Z * (Qc * Qc))))
    (acc : list failure * list failure)
  : result (list failure * list failure) :=
  match rows with
  | [] => Ok acc
  | (i, (true_label, pred_label, prob)) :: rows' =>
      if bool_decide (true_label ≠ pred_label) then
        let confidence := Py.max2 prob in
        r ← Py.index test_set i;
        let failure_info :=
          Failure true_label pred_label confidence (text r) in
        if bool_decide (true_label = 0)
        then scan_failures test_set rows' (acc.1 ++ [failure_info], acc.2)
        else scan_failures test_set rows' (acc.1, acc.2 ++ [failure_info])
      else scan_failures test_set rows' acc
  end.

Definition language_failures (test_set : dataframe) (m : prediction)
    (top_failures : Z) : result (list (string * list failure)) :=
  '(failures_false_toxic, failures_false_nontoxic) ←
    scan_failures test_set
      (Py.enumerate_from 0
         (Py.zip3 (true_labels m) (pred_labels m) (pred_probs m)))
      ([], []);
  let top_failures_false_toxic :=
    Py.slice_to (Py.sorted_reverse confidence failures_false_toxic)
      top_failures in
  let top_failures_false_nontoxic :=
    Py.slice_to (Py.sorted_reverse confidence failures_false_nontoxic)
      top_failures in
  Ok (Py.dict_set (Py.dict_set [] FALSE_TOXIC top_failures_false_toxic)
        FALSE_NON_TOXIC top_failures_false_nontoxic).

Fixpoint find_failures (items : list (string * dataframe))
    (matches_by_language : list (string * prediction)) (top_failures : Z)
    (top_failures_by_language : list (string * list (string * list failure)))
  : result (list (string * list (string * list failure))) :=
  match items with
  | [] => Ok top_failures_by_language
  | (lang, test_set) :: items' =>
      m ← Py.dict_get matches_by_language lang;
      r ← language_failures test_set m top_failures;
      find_failures items' matches_by_language top_failures
        (Py.dict_set top_failures_by_language lang r)
  end.

Definition find_top_failures (dataset_by_language : list (string * dataframe))
    (matches_by_language : list (string * prediction)) (top_failures : Z)
  : result (list (string * list (string * list failure))) :=
  find_failures dataset_by_language matches_by_language top_failures [].

(** ** Failure Report Renderer: [visualize_top_failures] *)

Definition style : string := "
    <style>
    .material-card {
        box-shadow: 0 4px 8px 0 rgba(0,0,0,0.2);
        transition: 0.3s;
        border-radius: 10px;
        padding: 15px;
        margin-bottom: 20px;
        background-color: #fff;
    }

    .card-title {
        color: #06c2c2;
        font-size: 18px;
        margin-bottom: 10px;
        font-weight: bold;
    }

    .card-content {
        color: #333;
    }

    .language-section {
        margin-bottom: 30px;
    }

    .label-section {
        margin-bottom: 20px;
    }

    .section-title {
        color: #333;
        font-size: 22px;
        margin-bottom: 15px;
        font-weight: bold;
    }
    </style>
    ".

(** The double quote of the attributes of a card. *)
Definition dquote : string := String (Ascii.ascii_of_nat 34) EmptyString.

(** The opening tag of a [div] of the class [name], as the cards have it. *)
Definition div_class (name : string) : string :=
  "<div class=" +:+ dquote +:+ name +:+ dquote +:+ ">".

(** The label that a card shows: [TOXIC] for 1, [NON_TOXIC] for every
    other label. *)
Definition label_name (y : Z) : string :=
  if bool_decide (y = 1) then TOXIC else NON_TOXIC.

(** The card of one failure: the text of the formatted string literal. *)
Definition card (f : failure) : string :=
  let true_ := label_name (failure_true_label f) in
  let pred := label_name (failure_pred_label f) in
  "
                " +:+ div_class "material-card" +:+ "
                    " +:+ div_class "card-title" +:+
  "Failed with conf: " +:+ Py.format_2f (confidence f) +:+
  ". True: " +:+ true_ +:+ ". Pred:" +:+ pred +:+ " </div>
                    " +:+ div_class "card-content" +:+ failure_text f +:+
  "</div>
                </div>
                ".

(** The three loops; [cards_html] is the markup built so far. *)
Fixpoint failure_cards (failures : list failure) (cards_html : string)
  : string :=
  match failures with
  | [] => cards_html
  | f :: failures' => failure_cards failures' (cards_html +:+ card f)
  end.

Fixpoint category_sections (failure_categories : list (string * list failure))
    (cards_html : string) : string :=
  match failure_categories with
  | [] => cards_html
  | (category, failures) :: rest =>
      let cards_html :=
        cards_html +:+
        "<div class='label-section'><h3 class='section-title'>" +:+
        category +:+ "</h3>" in
      let cards_html := failure_cards failures cards_html in
      category_sections rest (cards_html +:+ "</div>")
  end.

Fixpoint language_sections
    (items : list (string * list (string * list failure)))
    (cards_html : string) : string :=
  match items with
  | [] => cards_html
  | (lang, failure_categories) :: rest =>
      let cards_html :=
        cards_html +:+
        "<div class='language-section'><h2 class='section-title'>" +:+
        Py.title lang +:+ "</h2>" in
      let cards_html := category_sections failure_categories cards_html in
      language_sections rest (cards_html +:+ "</div>")
  end.

(** The markup that the returned [HTML] object holds. *)
Definition visualize_top_failures
    (top_failures_by_language : list (string * list (string * list failure)))
  : string :=
  style +:+ language_sections top_failures_by_language "".

(** ** Objects, references and the heap

    The object-level embedding of [show_confusion_matrix]: dictionaries and
    lists are objects in a heap, reached through references that may be
    shared, and are updated in place. *)

Module Heap.

Abbreviation loc := positive.

Inductive value : Set :=
| VInt (z : Z)
| VFloat (q : Qc)
| VStr (s : string)
| VRef (l : loc).

Inductive obj : Set :=
| OList (items : list value)
| ODict (items : list (string * value)).

Abbreviation heap := (gmap loc obj).

(** A computation updates the heap and returns or raises; the updates
    made before an exception stay. *)
Definition M (A : Type) : Type := heap → result A * heap.

#[global] Instance M_ret : MRet M := λ A a h, (Ok a, h).
#[global] Instance M_bind : MBind M := λ A B k m h,
  match m h with
  | (Ok a, h') => k a h'
  | (Raise e, h') => (Raise e, h')
  end.

Definition raise {A} (e : exn) : M A := λ h, (Raise e, h).

Definition lift {A} (r : result A) : M A := λ h, (r, h).

(** A new object, at a location that is not in use. *)
Definition alloc (o : obj) : M loc := λ h,
  let l := fresh (dom h) in (Ok l, <[l:=o]> h).

Definition read (l : loc) : M obj := λ h,
  match h !! l with
  | Some o => (Ok o, h)
  | None => (Raise TypeError, h)
  end.

Definition write (l : loc) (o : obj) : M unit := λ h, (Ok tt, <[l:=o]> h).

(** [v.items()] *)
Definition dict_items (v : value) : M (list (string * value)) :=
  match v with
  | VRef l =>
      o ← read l;
      match o with
      | ODict items => mret items
      | OList _ => raise AttributeError
      end
  | _ => raise AttributeError
  end.

(** The entries that [{**v, ...}] unpacks: [v] must be a mapping. *)
Definition unpack (v : value) : M (list (string * value)) :=
  match v with
  | VRef l =>
      o ← read l;
      match o with
      | ODict items => mret items
      | OList _ => raise TypeError
      end
  | _ => raise TypeError
  end.

(** [v[k]] for a string [k] *)
Definition getitem (v : value) (k : string) : M value :=
  match v with
  | VRef l =>
      o ← read l;
      match o with
      | ODict items => lift (Py.dict_get items k)
      | OList _ => raise TypeError
      end
  | _ => raise TypeError
  end.

Fixpoint chars (s : string) : list value :=
  match s with
  | EmptyString => []
  | String c s' => VStr (String c EmptyString) :: chars s'
  end.

(** The values that iterating over [v] yields. *)
Definition elements (v : value) : M (list value) :=
  match v with
  | VRef l =>
      o ← read l;
      match o with
      | OList items => mret items
      | ODict items => mret (VStr <$> items.*1)
      end
  | VStr s => mret (chars s)
  | _ => raise TypeError
  end.

(** [len(v)] *)
Definition len (v : value) : M nat := xs ← elements v; mret (length xs).

(** The bound method [v.extend]: only lists have it. *)
Definition extend_method (v : value) : M loc :=
  match v with
  | VRef l =>
      o ← read l;
      match o with
      | OList _ => mret l
      | ODict _ => raise AttributeError
      end
  | _ => raise AttributeError
  end.

(** The call [l.extend(src)] of a bound method: the elements of [src] are
    appended to the list at [l], in place. *)
Definition extend (l : loc) (src : value) : M unit :=
  new ← elements src;
  o ← read l;
  match o with
  | OList items => write l (OList (items ++ new))
  | ODict _ => raise TypeError
  end.

(** [y.append(a)] and [y[k] = a] on the object at [y]. *)
Definition append (y : loc) (a : value) : M unit :=
  o ← read y;
  match o with
  | OList items => write y (OList (items ++ [a]))
  | ODict _ => raise AttributeError
  end.

Definition setitem (y : loc) (k : string) (a : value) : M unit :=
  o ← read y;
  match o with
  | ODict items => write y (ODict (Py.dict_set items k a))
  | OList _ => raise TypeError
  end.

(** [copy.deepcopy]: numbers and strings are shared, lists and
    dictionaries are rebuilt; [memo] maps every object met so far to its
    copy, so that sharing is kept.  [fuel] is the recursion limit. *)
Section DeepCopy.
Variable rec : value → gmap loc loc → M (value * gmap loc loc).

Fixpoint copy_items (y : loc) (items : list value) (memo : gmap loc loc)
  : M (gmap loc loc) :=
  match items with
  | [] => mret memo
  | a :: items' =>
      '(a', memo') ← rec a memo;
      _ ← append y a';
      copy_items y items' memo'
  end.

Fixpoint copy_entries (y : loc) (items : list (string * value))
    (memo : gmap loc loc) : M (gmap loc loc) :=
  match items with
  | [] => mret memo
  | (k, a) :: items' =>
      '(a', memo') ← rec a memo;
      _ ← setitem y k a';
      copy_entries y items' memo'
  end.
End DeepCopy.

Fixpoint deepcopy (fuel : nat) (x : value) (memo : gmap loc loc)
  : M (value * gmap loc loc) :=
  match fuel with
  | O => raise RecursionError
  | S fuel' =>
      match x with
      | VRef l =>
          match memo !! l with
          | Some y => mret (VRef y, memo)
          | None =>
              o ← read l;
              match o with
              | OList items =>
                  y ← alloc (OList []);
                  memo' ← copy_items (deepcopy fuel') y items
                            (<[l:=y]> memo);
                  mret (VRef y, memo')
              | ODict items =>
                  y ← alloc (ODict []);
                  memo' ← copy_entries (deepcopy fuel') y items
                            (<[l:=y]> memo);
                  mret (VRef y, memo')
              end
          end
      | _ => mret (x, memo)
      end
  end.

(** [for x in l: body(x)] *)
Fixpoint for_each {A} (l : list A) (body : A → M unit) : M unit :=
  match l with
  | [] => mret tt
  | x :: l' => _ ← body x; for_each l' body
  end.

Definition assert (b : bool) (msg : string) : M unit :=
  if b then mret tt else raise (AssertionError msg).

(** [show_confusion_matrix] on objects.  The result is the reference that
    the local name [labels_and_predictions_by_lang] holds when the
    drawing loop ends; the Python function drops it and returns [None].
    Drawing reads the label sequences of every entry of the merged
    dictionary. *)
Definition show_confusion_matrix (fuel : nat)
    (labels_and_predictions_by_lang : value) : M loc :=
  total_true ← alloc (OList []);
  total_pred ← alloc (OList []);
  total_labels ← alloc (ODict [(TRUE_LABELS, VRef total_true);
                               (PRED_LABELS, VRef total_pred)]);
  items ← dict_items labels_and_predictions_by_lang;
  _ ← for_each items (λ '(lang, labels),
        t ← getitem (VRef total_labels) TRUE_LABELS;
        t ← extend_method t;
        src ← getitem labels TRUE_LABELS;
        _ ← extend t src;
        p ← getitem (VRef total_labels) PRED_LABELS;
        p ← extend_method p;
        src ← getitem labels PRED_LABELS;
        extend p src);
  t ← getitem (VRef total_labels) TRUE_LABELS;
  n_true ← len t;
  p ← getitem (VRef total_labels) PRED_LABELS;
  n_pred ← len p;
  _ ← assert (bool_decide (n_true = n_pred)) size_msg;
  '(copy, _) ← deepcopy fuel labels_and_predictions_by_lang ∅;
  copied ← unpack copy;
  merged ← alloc (ODict (Py.dict_set copied ALL_LANGUAGES
                           (VRef total_labels)));
  n ← len (VRef merged);
  _ ← assert (bool_decide (n = 4%nat)) entries_msg;
  drawn ← dict_items (VRef merged);
  _ ← for_each drawn (λ '(lang, values),
        true ← getitem values TRUE_LABELS;
        preds ← getitem values PRED_LABELS;
        _ ← elements true;
        _ ← elements preds;
        mret tt);
  mret merged.

End Heap.

(** * Vocabulary of the properties *)

(** Four entries, one of them under the key of the pooled view. *)
Definition four_entries : list (string * prediction) :=
  [("en", Prediction [0; 1] [0; 1] []);
   ("es", Prediction [1] [0] []);
   ("fr", Prediction [0] [0] []);
   (ALL_LANGUAGES, Prediction [1] [1] [])].

Definition three_entries : list (string * prediction) :=
  [("en", Prediction [0; 1] [0; 1] []);
   ("es", Prediction [1] [0] []);
   ("fr", Prediction [0] [0] [])].

(** A failure record [f] reports row [i] of the entry [m] and of the
    table [test_set], with the larger probability of the row as its
    confidence. *)
Definition reports (test_set : dataframe) (m : prediction) (f : failure)
    : Prop :=
  ∃ i prob r,
    true_labels m !! i = Some (failure_true_label f) ∧
    pred_labels m !! i = Some (failure_pred_label f) ∧
    pred_probs m !! i = Some prob ∧
    test_set !! i = Some r ∧
    failure_text f = text r ∧
    (prob.1 ≤ confidence f)%Qc ∧ (prob.2 ≤ confidence f)%Qc ∧
    (confidence f = prob.1 ∨ confidence f = prob.2).

Definition non_increasing (l : list Qc) : Prop :=
  ∀ i j x y, (i ≤ j)%nat → l !! i = Some x → l !! j = Some y → (y ≤ x)%Qc.

(** The contract of the Failure Extractor for the entry [cats] of the
    language [lang]. *)
Definition extraction_contract (ds : list (string * dataframe))
    (ms : list (string * prediction)) (k : Z) (lang : string)
    (cats : list (string * list failure)) : Prop :=
  ∃ test_set m false_toxic false_nontoxic,
    (lang, test_set) ∈ ds ∧ Py.dict_get ms lang = Ok m ∧
    cats = [("False TOXIC", false_toxic);
            ("False NON-TOXIC", false_nontoxic)] ∧
    (∀ f, f ∈ false_toxic →
       failure_true_label f = 0 ∧ failure_pred_label f = 1 ∧
       reports test_set m f) ∧
    (∀ f, f ∈ false_nontoxic →
       failure_true_label f = 1 ∧ failure_pred_label f = 0 ∧
       reports test_set m f) ∧
    non_increasing (confidence <$> false_toxic) ∧
    non_increasing (confidence <$> false_nontoxic) ∧
    Z.of_nat (length false_toxic) ≤ k ∧
    Z.of_nat (length false_nontoxic) ≤ k.

Definition binary_labels (l : list Z) : Prop := Forall (λ y, y = 0 ∨ y = 1) l.

Definition en_corpus : list (string * dataframe) :=
  [("en", [Row "you are great" 0; Row "i hate you" 1;
           Row "what a day" 0; Row "get lost" 1])].

Definition en_matches : list (string * prediction) :=
  [("en", Prediction [0; 1; 0; 1] [1; 0; 1; 1]
            [(Q2Qc (2 # 10), Q2Qc (8 # 10)); (Q2Qc (7 # 10), Q2Qc (3 # 10));
             (Q2Qc (4 # 10), Q2Qc (6 # 10)); (Q2Qc (1 # 10), Q2Qc (9 # 10))])].

Definition en_failures : list (string * list failure) :=
  [("False TOXIC", [Failure 0 1 (Q2Qc (8 # 10)) "you are great";
                    Failure 0 1 (Q2Qc (6 # 10)) "what a day"]);
   ("False NON-TOXIC", [Failure 1 0 (Q2Qc (7 # 10)) "i hate you"])].


(** Seven pooled rows on which the three criteria part: the geometric mean
    is largest at the first sampled point, the F1 score is larger, and the
    corner (1, 1) nearer, at the sixth. *)
Definition diverging_results : list (string * prediction) :=
  [("en", Prediction [0; 1; 0] [1; 1; 0]
            [(Q2Qc (3 # 10), Q2Qc (7 # 10)); (Q2Qc (4 # 10), Q2Qc (6 # 10));
             (Q2Qc (5 # 10), Q2Qc (5 # 10))]);
   ("es", Prediction [0; 0; 0; 1] [0; 0; 0; 0]
            [(Q2Qc (6 # 10), Q2Qc (4 # 10)); (Q2Qc (7 # 10), Q2Qc (3 # 10));
             (Q2Qc (8 # 10), Q2Qc (2 # 10)); (Q2Qc (9 # 10), Q2Qc (1 # 10))])].

(** Thirty-six pooled rows with two thresholds at which precision times
    recall is one third: 12/36 times 1 at the lower one, 10/25 times 10/12
    at the higher one. *)
Definition rounding_tie_results : list (string * prediction) :=
  [("en", Prediction
            (replicate 10 1 ++ replicate 15 0 ++ replicate 2 1 ++
             replicate 9 0)
            (replicate 25 1 ++ replicate 11 0)
            (replicate 25 (Q2Qc (1 # 4), Q2Qc (3 # 4)) ++
             replicate 11 (Q2Qc (3 # 4), Q2Qc (1 # 4))))].

(** The positive and the negative samples with a score of at least [t]. *)
Definition count_pos (t : Qc) (l : list (bool * Qc)) : Z :=
  Z.of_nat (length (filter (λ a, a.1 = true ∧ (t ≤ a.2)%Qc) l)).
Definition count_neg (t : Qc) (l : list (bool * Qc)) : Z :=
  Z.of_nat (length (filter (λ a, a.1 = false ∧ (t ≤ a.2)%Qc) l)).

(** The last score of every run of equal scores. *)
Fixpoint run_ends (scores : list Qc) : list Qc :=
  match scores with
  | [] => []
  | s :: scores' =>
      match scores' with
      | [] => [s]
      | s' :: _ =>
          if decide (s = s') then run_ends scores' else s :: run_ends scores'
      end
  end.

(** The samples of one entry: its true labels, as "is toxic", next to
    its toxic probabilities. *)
Definition samples_of (m : prediction) : list (bool * Qc) :=
  zip ((λ y, bool_decide (y = 1)) <$> true_labels m) (snd <$> pred_probs m).

Definition aligned (m : prediction) : Prop :=
  length (true_labels m) = length (pred_probs m).

(** ** Vocabulary: the Inference Runner *)

(** A classifier that scores every text on its own. *)
Definition keyword_scores (t : string) : Qc * Qc :=
  if decide (t = "i hate you") then (Q2Qc (2 # 10), Q2Qc (8 # 10))
  else (Q2Qc (7 # 10), Q2Qc (3 # 10)).

(** Two tables, the first with more rows than a batch of two holds. *)
Definition two_languages : list (string * dataframe) :=
  [("en", [Row "you are great" 0; Row "i hate you" 1; Row "what a day" 0]);
   ("es", [Row "buenos dias" 0])].

(** The entry [r'] has the labels and probabilities of [r], and predicts
    toxic on no row on which [r] does not. *)
Definition fewer_toxic (r r' : prediction) : Prop :=
  true_labels r' = true_labels r ∧ pred_probs r' = pred_probs r ∧
  Forall2 (λ y y', 0 ≤ y' ∧ y' ≤ y) (pred_labels r) (pred_labels r').

(** ** Vocabulary: the confusion matrices *)

(** Three languages, two of them with different numbers of true and of
    predicted labels, whose pooled label sequences have the same length. *)
Definition cancelling_entries : list (string * prediction) :=
  [("en", Prediction [0; 1] [0] []);
   ("es", Prediction [1] [0; 1] []);
   ("fr", Prediction [0] [0] [])].

(** ** Vocabulary: the precision-recall curve *)

(** [q] lies between 0 and 1. *)
Definition unit_interval (q : Qc) : Prop := (0 ≤ q)%Qc ∧ (q ≤ 1)%Qc.




(** ** Vocabulary: the Failure Extractor *)

(** The record that [find_top_failures] builds for row [i] of a language. *)
Definition row_failure (test_set : dataframe)
    (r : nat * (Z * Z * (Qc * Qc))) : failure :=
  Failure r.2.1.1 r.2.1.2 (Py.max2 r.2.2)
    (default EmptyString (text <$> test_set !! r.1)).

(** The rows of an entry that the loop looks at, with their indices. *)
Definition scanned_rows (m : prediction) : list (nat * (Z * Z * (Qc * Qc))) :=
  Py.enumerate_from 0 (Py.zip3 (true_labels m) (pred_labels m) (pred_probs m)).

(** The two branches of the loop for a mismatched row. *)
Definition false_toxic_row (r : nat * (Z * Z * (Qc * Qc))) : Prop :=
  r.2.1.1 ≠ r.2.1.2 ∧ r.2.1.1 = 0.

Definition false_nontoxic_row (r : nat * (Z * Z * (Qc * Qc))) : Prop :=
  r.2.1.1 ≠ r.2.1.2 ∧ r.2.1.1 ≠ 0.

#[global] Instance false_toxic_row_dec r : Decision (false_toxic_row r).
Proof. unfold false_toxic_row. apply _. Defined.

#[global] Instance false_nontoxic_row_dec r : Decision (false_nontoxic_row r).
Proof. unfold false_nontoxic_row. apply _. Defined.

(** Every mismatch of a language with true label 0, and every other
    mismatch, as failure records in row order. *)
Definition all_false_toxic (test_set : dataframe) (m : prediction)
  : list failure :=
  row_failure test_set <$> filter false_toxic_row (scanned_rows m).

Definition all_false_nontoxic (test_set : dataframe) (m : prediction)
  : list failure :=
  row_failure test_set <$> filter false_nontoxic_row (scanned_rows m).

(** The length of [l[:k]] for a list of [n] items. *)
Definition slice_length (n : nat) (k : Z) : Z :=
  if bool_decide (k < 0) then Z.max 0 (Z.of_nat n + k)
  else Z.min k (Z.of_nat n).

(** [l] lists, for every confidence, the first records of [all] with that
    confidence, in the order of [all]. *)
Definition keeps_row_order (l all : list failure) : Prop :=
  ∀ c, filter (λ f, confidence f = c) l `prefix_of`
       filter (λ f, confidence f = c) all.

(** Every mismatched row of the entry [m] has a row in [test_set]. *)
Definition texts_in_range (test_set : dataframe) (m : prediction) : Prop :=
  Forall (λ r, r.2.1.1 ≠ r.2.1.2 → (r.1 < length test_set)%nat)
    (scanned_rows m).

(** Two rows that are both wrongly called toxic with the same confidence,
    after a third with a smaller one. *)
Definition tied_corpus : list (string * dataframe) :=
  [("en", [Row "first" 0; Row "second" 0; Row "third" 0])].

Definition tied_matches : list (string * prediction) :=
  [("en", Prediction [0; 0; 0] [1; 1; 1]
            [(Q2Qc (4 # 10), Q2Qc (6 # 10)); (Q2Qc (2 # 10), Q2Qc (8 # 10));
             (Q2Qc (2 # 10), Q2Qc (8 # 10))])].

(** ** Vocabulary: the Failure Report Renderer *)

(** The card of the failure [f] with [true_] and [pred] as the names of
    its true and of its predicted label. *)
Definition card_showing (true_ pred : string) (f : failure) : string :=
  "
                " +:+ div_class "material-card" +:+ "
                    " +:+ div_class "card-title" +:+
  "Failed with conf: " +:+ Py.format_2f (confidence f) +:+
  ". True: " +:+ true_ +:+ ". Pred:" +:+ pred +:+ " </div>
                    " +:+ div_class "card-content" +:+ failure_text f +:+
  "</div>
                </div>
                ".

(** [part] occurs in [s]. *)
Definition occurs_in (part s : string) : Prop :=
  ∃ before after, s = before +:+ part +:+ after.

(** ** Reasoning about the heap *)

Module HeapLogic.
Import Heap.

(** [triple P m Q E]: from a heap with [P], the computation [m] ends
    with [Q] on its result, or raises and leaves a heap with [E]. *)
Definition triple {A} (P : heap → Prop) (m : M A)
    (Q : A → heap → Prop) (E : heap → Prop) : Prop :=
  ∀ h, P h →
    match m h with
    | (Ok a, h') => Q a h'
    | (Raise _, h') => E h'
    end.

(** Computations that only read the heap. *)
Definition reads_only {A} (m : M A) : Prop := ∀ h, (m h).2 = h.

(** Locations that the caller's heap does not use. *)
Definition unused (h0 : heap) (l : loc) : Prop := h0 !! l = None.

(** A write to an unused location keeps [I], when [I] is the frame
    together with the contents of other locations. *)
Definition write_stable (I : heap → Prop) (l : loc) : Prop :=
  ∀ h o, I h → I (<[l:=o]> h).

(** The invariant of the pooling loop: the frame, and the dictionary
    [total_labels] with its two lists. *)
Definition pooling (h0 : heap) (tl tt tp : loc) (h : heap) : Prop :=
  h0 ⊆ h ∧
  h !! tl = Some (ODict [(TRUE_LABELS, VRef tt); (PRED_LABELS, VRef tp)]).

(** What holds when the drawing loop ends: the frame, and the merged
    dictionary at an unused location, with the pooled entry under
    [ALL_LANGUAGES] at an unused location. *)
Definition drawn (h0 : heap) (merged : loc) (h : heap) : Prop :=
  h0 ⊆ h ∧ unused h0 merged ∧
  ∃ kvs tl, h !! merged = Some (ODict kvs) ∧
            Py.dict_get kvs ALL_LANGUAGES = Ok (VRef tl) ∧ unused h0 tl.

(** The pooling loop after the entries with the true labels [acc_t] and
    the predicted labels [acc_p]. *)
Definition pooled (h0 : heap) (tl tt tp : loc) (acc_t acc_p : list Z)
    (h : heap) : Prop :=
  pooling h0 tl tt tp h ∧
  h !! tt = Some (OList (VInt <$> acc_t)) ∧
  h !! tp = Some (OList (VInt <$> acc_p)).

(** The exceptions that a computation can raise. *)
Definition raises_only {A} (X : exn → Prop) (m : M A) : Prop :=
  ∀ h e h', m h = (Raise e, h') → X e.

Definition not_assertion (e : exn) : Prop := ∀ msg, e ≠ AssertionError msg.

(** The heap [h] holds the mapping [d] at [v]: a dictionary with the keys
    of [d], in order, whose values are dictionaries that have the label
    sequences of [d] under [TRUE_LABELS] and [PRED_LABELS].  Objects may be
    shared, and what else the dictionaries hold is not constrained. *)
Definition holds_labels (h : heap) (v : value) (zs : list Z) : Prop :=
  ∃ l, v = VRef l ∧ h !! l = Some (OList (VInt <$> zs)).

Definition holds_entry (h : heap) (v : value) (m : prediction) : Prop :=
  ∃ l kvs vt vp,
    v = VRef l ∧ h !! l = Some (ODict kvs) ∧
    Py.dict_get kvs TRUE_LABELS = Ok vt ∧
    Py.dict_get kvs PRED_LABELS = Ok vp ∧
    holds_labels h vt (true_labels m) ∧
    holds_labels h vp (pred_labels m).

Definition holds (h : heap) (v : value) (d : list (string * prediction))
    : Prop :=
  ∃ l kvs,
    v = VRef l ∧ h !! l = Some (ODict kvs) ∧ NoDup kvs.*1 ∧
    Forall2 (λ kv e, kv.1 = e.1 ∧ holds_entry h kv.2 e.2) kvs d.

End HeapLogic.

(** ** Mappings in the heap *)

Module HeapStore.

(** The objects of a mapping as [predict_with_probabilities] builds it:
    every list and every dictionary is an object of its own. *)
Fixpoint store_rows (rows : list (Qc * Qc)) : Heap.M (list Heap.value) :=
  match rows with
  | [] => mret []
  | (a, b) :: rows' =>
      l ← Heap.alloc (Heap.OList [Heap.VFloat a; Heap.VFloat b]);
      ls ← store_rows rows';
      mret (Heap.VRef l :: ls)
  end.

Definition store_entry (m : prediction) : Heap.M Heap.value :=
  t ← Heap.alloc (Heap.OList (Heap.VInt <$> true_labels m));
  p ← Heap.alloc (Heap.OList (Heap.VInt <$> pred_labels m));
  rows ← store_rows (pred_probs m);
  r ← Heap.alloc (Heap.OList rows);
  d ← Heap.alloc (Heap.ODict [(TRUE_LABELS, Heap.VRef t);
                              (PRED_LABELS, Heap.VRef p);
                              (PRED_PROBS, Heap.VRef r)]);
  mret (Heap.VRef d).

Fixpoint store_entries (d : list (string * prediction))
  : Heap.M (list (string * Heap.value)) :=
  match d with
  | [] => mret []
  | (lang, m) :: d' =>
      v ← store_entry m;
      vs ← store_entries d';
      mret ((lang, v) :: vs)
  end.

Definition store (d : list (string * prediction)) : Heap.M Heap.value :=
  entries ← store_entries d;
  l ← Heap.alloc (Heap.ODict entries);
  mret (Heap.VRef l).

(** The integers of the list that [v] refers to. *)
Definition read_labels (v : Heap.value) : Heap.M (list Z) :=
  xs ← Heap.elements v;
  mret (omap (λ x, match x with Heap.VInt z => Some z | _ => None end) xs).

Fixpoint read_panels (items : list (string * Heap.value))
  : Heap.M (list (string * (list Z * list Z))) :=
  match items with
  | [] => mret []
  | (lang, values) :: items' =>
      true ← Heap.getitem values TRUE_LABELS;
      preds ← Heap.getitem values PRED_LABELS;
      t ← read_labels true;
      p ← read_labels preds;
      rest ← read_panels items';
      mret ((lang, (t, p)) :: rest)
  end.

(** Store [d], call [show_confusion_matrix] on it, and read what was
    drawn and what the caller's mapping holds afterwards. *)
Definition run (d : list (string * prediction))
  : result (list (string * (list Z * list Z)) *
            list (string * (list Z * list Z))) :=
  ((arg ← store d;
    merged ← Heap.show_confusion_matrix 1000 arg;
    shown ← Heap.dict_items (Heap.VRef merged);
    panels ← read_panels shown;
    mine ← Heap.dict_items arg;
    kept ← read_panels mine;
    mret (panels, kept)) ∅).1.

End HeapStore.

(** * Properties *)

(** ** The result monad *)

Lemma bind_Ok {A B} (m : result A) (k : A → result B) (b : B) :
  m ≫= k = Ok b ↔ ∃ a, m = Ok a ∧ k a = Ok b.
Proof.
  destruct m as [a|e]; simpl; split.
  - eauto.
  - by intros (a' & [= ->] & ?).
  - discriminate.
  - by intros (? & ? & _).
Qed.

Lemma assert_Ok b msg u : assert b msg = Ok u ↔ b = true.
Proof. destruct b, u; simpl; split; (done || discriminate). Qed.

Lemma assert_Raise b msg e :
  assert b msg = Raise e ↔ b = false ∧ e = AssertionError msg.
Proof.
  destruct b; simpl; split; try discriminate.
  - by intros [? _].
  - by intros [= <-].
  - by intros [_ ->].
Qed.

(** Inversion of a successful run, one bind at a time. *)
Ltac inv_Ok :=
  repeat match goal with
  | H : _ ≫= _ = Ok _ |- _ => apply bind_Ok in H as (? & ? & H)
  | H : assert _ _ = Ok _ |- _ => apply assert_Ok in H
  | H : bool_decide _ = true |- _ => apply bool_decide_eq_true in H
  | H : Ok _ = Ok _ |- _ => injection H as H
  | H : Raise _ = Ok _ |- _ => discriminate H
  end.

(** ** Dictionaries *)

Lemma elem_of_dict_set {V} (d : list (string * V)) k v x :
  x ∈ Py.dict_set d k v → x ∈ d ∨ x = (k, v).
Proof.
  induction d as [|[k' v'] d IH]; simpl.
  - intros ->%list_elem_of_singleton. by right.
  - case_decide; subst.
    + intros [->|?]%elem_of_cons; [by right|left; by right].
    + intros [->|?]%elem_of_cons; [left; by left|].
      destruct IH as [?|?]; [done|left; by right|by right].
Qed.

Lemma length_dict_set_fresh {V} (d : list (string * V)) k v :
  k ∉ Py.keys d → length (Py.dict_set d k v) = S (length d).
Proof.
  unfold Py.keys. induction d as [|[k' v'] d IH]; simpl; [done|].
  intros [? ?]%not_elem_of_cons. case_decide; [congruence|].
  simpl. by rewrite IH.
Qed.

Lemma length_dict_set_present {V} (d : list (string * V)) k v :
  k ∈ Py.keys d → length (Py.dict_set d k v) = length d.
Proof.
  unfold Py.keys. induction d as [|[k' v'] d IH]; simpl.
  - by intros ?%elem_of_nil.
  - case_decide; [done|].
    intros [?|?]%elem_of_cons; [congruence|]. simpl. by rewrite IH.
Qed.

(** ** Binary floating point

    Rounding to the nearest integer. *)

Lemma Qc_num_den (x : Qc) :
  x = (Qc_of_Z (Qnum x) / Qc_of_Z (Z.pos (Qden x)))%Qc.
Proof.
  apply Qc_is_canon. unfold Qcdiv, Qcmult, Qcinv, Qc_of_Z. simpl.
  rewrite !Qred_correct. destruct x as [[n d] H]. simpl.
  unfold Qeq, Qmult, Qinv. simpl. lia.
Qed.

Lemma Qcle_num_den (x y : Qc) :
  (x ≤ y)%Qc ↔ Qnum x * Z.pos (Qden y) ≤ Qnum y * Z.pos (Qden x).
Proof. done. Qed.

Lemma Qc_eq_num_den (x y : Qc) :
  Qnum x * Z.pos (Qden y) = Qnum y * Z.pos (Qden x) → x = y.
Proof. intros H. by apply Qc_is_canon. Qed.

Lemma Qc_of_Z_num_den (z : Z) :
  Qnum (Qc_of_Z z) = z ∧ Qden (Qc_of_Z z) = 1%positive.
Proof.
  done.
Qed.

Lemma round_half_even_spec (x : Qc) :
  let n := Qnum x in
  let d := Z.pos (Qden x) in
  let z := Py.round_half_even x in
  2 * z * d - d ≤ 2 * n ≤ 2 * z * d + d.
Proof.
  intros n d z. unfold z, Py.round_half_even. fold n d.
  assert (0 < d) as Hd by done.
  pose proof (Z.div_mod n d ltac:(lia)) as Hn.
  pose proof (Z.mod_pos_bound n d Hd) as Hr.
  repeat case_bool_decide; try destruct (Z.even _); nia.
Qed.

Lemma round_half_even_mono (x y : Qc) :
  (x ≤ y)%Qc → Py.round_half_even x ≤ Py.round_half_even y.
Proof.
  intros Hxy.
  destruct (decide (x = y)) as [->|Hne]; [done|].
  pose proof (round_half_even_spec x) as Hx.
  pose proof (round_half_even_spec y) as Hy. simpl in Hx, Hy.
  assert (0 < Z.pos (Qden x)) as Hdx by done.
  assert (0 < Z.pos (Qden y)) as Hdy by done.
  set (nx := Qnum x) in *. set (dx := Z.pos (Qden x)) in *.
  set (ny := Qnum y) in *. set (dy := Z.pos (Qden y)) in *.
  set (zx := Py.round_half_even x) in *. set (zy := Py.round_half_even y) in *.
  destruct (decide (zx ≤ zy)) as [|Hgt]; [done|]. exfalso.
  assert (zy + 1 ≤ zx) as Hz by lia.
  assert ((zy + 1) * dx ≤ zx * dx) as H0
    by (apply Z.mul_le_mono_nonneg_r; lia).
  assert ((2 * zy + 1) * dx ≤ 2 * nx) as H1 by lia.
  assert (2 * ny ≤ (2 * zy + 1) * dy) as H2 by lia.
  assert ((2 * zy + 1) * dx * dy ≤ 2 * nx * dy) as H4
    by (apply Z.mul_le_mono_nonneg_r; lia).
  assert (2 * ny * dx ≤ (2 * zy + 1) * dy * dx) as H5
    by (apply Z.mul_le_mono_nonneg_r; lia).
  assert (nx * dy ≤ ny * dx) as Hxy' by exact Hxy.
  apply Hne, Qc_eq_num_den. fold nx dx ny dy. lia.
Qed.

Lemma round_half_even_Z (z : Z) : Py.round_half_even (Qc_of_Z z) = z.
Proof.
  unfold Py.round_half_even. destruct (Qc_of_Z_num_den z) as [-> ->].
  rewrite Z.mod_1_r, Z.div_1_r. by rewrite bool_decide_eq_true_2.
Qed.

(** *** Powers of two *)

Lemma Qc_of_Z_pow2_pos (k : Z) : (0 < Qc_of_Z (2 ^ k))%Qc ∨ k < 0.
Proof.
  destruct (decide (0 ≤ k)); [left|right; lia].
  rewrite <-Z2Qc_inj_0. apply (proj1 (Z2Qc_inj_lt _ _)).
  by apply Z.pow_pos_nonneg.
Qed.

Lemma Qc_of_Z_pow2_ne_0 (k : Z) : 0 ≤ k → Qc_of_Z (2 ^ k) ≠ 0%Qc.
Proof.
  intros Hk Heq. destruct (Qc_of_Z_pow2_pos k) as [H|]; [|lia].
  rewrite Heq in H. by apply Qclt_not_eq in H.
Qed.

Lemma pow2_sub (u v : Z) :
  0 ≤ u → 0 ≤ v → Np.pow2 (u - v) = (Qc_of_Z (2 ^ u) / Qc_of_Z (2 ^ v))%Qc.
Proof.
  intros Hu Hv. unfold Np.pow2.
  pose proof (Qc_of_Z_pow2_ne_0 v Hv) as Hnv.
  case_bool_decide as Huv.
  - replace u with ((u - v) + v) at 2 by lia.
    rewrite Z.pow_add_r, Z2Qc_inj_mul by lia. by field.
  - pose proof (Qc_of_Z_pow2_ne_0 u Hu) as Hnu.
    pose proof (Qc_of_Z_pow2_ne_0 (- (u - v)) ltac:(lia)) as Hnd.
    replace v with (- (u - v) + u) at 2 by lia.
    rewrite Z.pow_add_r, Z2Qc_inj_mul by lia. by field.
Qed.

Lemma pow2_add (a b : Z) : Np.pow2 (a + b) = (Np.pow2 a * Np.pow2 b)%Qc.
Proof.
  replace (a + b) with ((Z.max 0 a + Z.max 0 b) - (Z.max 0 (- a) + Z.max 0 (- b)))
    by lia.
  replace a with (Z.max 0 a - Z.max 0 (- a)) at 3 by lia.
  replace b with (Z.max 0 b - Z.max 0 (- b)) at 3 by lia.
  rewrite !pow2_sub by lia.
  rewrite !Z.pow_add_r, !Z2Qc_inj_mul by lia.
  pose proof (Qc_of_Z_pow2_ne_0 (Z.max 0 (- a)) ltac:(lia)).
  pose proof (Qc_of_Z_pow2_ne_0 (Z.max 0 (- b)) ltac:(lia)).
  by field.
Qed.

Lemma pow2_pos (e : Z) : (0 < Np.pow2 e)%Qc.
Proof.
  unfold Np.pow2. case_bool_decide.
  - destruct (Qc_of_Z_pow2_pos e); [done|lia].
  - apply Qcinv_pos. destruct (Qc_of_Z_pow2_pos (- e)); [done|lia].
Qed.

Lemma pow2_ne_0 (e : Z) : Np.pow2 e ≠ 0%Qc.
Proof.
  intros Heq. pose proof (pow2_pos e) as H. rewrite Heq in H.
  by apply Qclt_not_eq in H.
Qed.

Lemma pow2_mono (a b : Z) : a ≤ b → (Np.pow2 a ≤ Np.pow2 b)%Qc.
Proof.
  intros Hab. replace b with (a + (b - a)) by lia. rewrite pow2_add.
  rewrite <-(Qcmult_1_r (Np.pow2 a)) at 1.
  apply Qcmult_le_mono_nonneg_l; [apply Qclt_le_weak, pow2_pos|].
  unfold Np.pow2. rewrite bool_decide_eq_true_2 by lia.
  rewrite <-Z2Qc_inj_1. apply (proj1 (Z2Qc_inj_le _ _)).
  pose proof (Z.pow_pos_nonneg 2 (b - a)). lia.
Qed.

Lemma pow2_lt (a b : Z) : (Np.pow2 a < Np.pow2 b)%Qc → a < b.
Proof.
  intros Hlt. destruct (decide (a < b)); [done|].
  apply Qclt_not_le in Hlt. destruct Hlt. apply pow2_mono. lia.
Qed.

(** *** The exponent of a positive number *)

Lemma Qc_frac_le (a b c d : Z) :
  0 < b → 0 < d → a * d ≤ c * b →
  (Qc_of_Z a / Qc_of_Z b ≤ Qc_of_Z c / Qc_of_Z d)%Qc.
Proof.
  intros Hb Hd Hle.
  assert (0 < Qc_of_Z b)%Qc as Hb'
    by (rewrite <-Z2Qc_inj_0; by apply (proj1 (Z2Qc_inj_lt _ _))).
  assert (0 < Qc_of_Z d)%Qc as Hd'
    by (rewrite <-Z2Qc_inj_0; by apply (proj1 (Z2Qc_inj_lt _ _))).
  assert (Qc_of_Z b ≠ 0%Qc) as Hb0
    by (intros Heq; rewrite Heq in Hb'; by apply Qclt_not_eq in Hb').
  assert (Qc_of_Z d ≠ 0%Qc) as Hd0
    by (intros Heq; rewrite Heq in Hd'; by apply Qclt_not_eq in Hd').
  apply (Qcmult_le_mono_pos_r _ _ (Qc_of_Z b * Qc_of_Z d)).
  { by apply Qcmult_pos_pos. }
  replace (Qc_of_Z a / Qc_of_Z b * (Qc_of_Z b * Qc_of_Z d))%Qc
    with (Qc_of_Z (a * d)) by (rewrite Z2Qc_inj_mul; by field).
  replace (Qc_of_Z c / Qc_of_Z d * (Qc_of_Z b * Qc_of_Z d))%Qc
    with (Qc_of_Z (c * b)) by (rewrite Z2Qc_inj_mul; by field).
  by apply (proj1 (Z2Qc_inj_le _ _)).
Qed.

Lemma Qc_frac_lt (a b c d : Z) :
  0 < b → 0 < d → a * d < c * b →
  (Qc_of_Z a / Qc_of_Z b < Qc_of_Z c / Qc_of_Z d)%Qc.
Proof.
  intros Hb Hd Hlt.
  assert (0 < Qc_of_Z b)%Qc as Hb'
    by (rewrite <-Z2Qc_inj_0; by apply (proj1 (Z2Qc_inj_lt _ _))).
  assert (0 < Qc_of_Z d)%Qc as Hd'
    by (rewrite <-Z2Qc_inj_0; by apply (proj1 (Z2Qc_inj_lt _ _))).
  assert (Qc_of_Z b ≠ 0%Qc) as Hb0
    by (intros Heq; rewrite Heq in Hb'; by apply Qclt_not_eq in Hb').
  assert (Qc_of_Z d ≠ 0%Qc) as Hd0
    by (intros Heq; rewrite Heq in Hd'; by apply Qclt_not_eq in Hd').
  apply (Qcmult_lt_mono_pos_r _ _ (Qc_of_Z b * Qc_of_Z d)).
  { by apply Qcmult_pos_pos. }
  replace (Qc_of_Z a / Qc_of_Z b * (Qc_of_Z b * Qc_of_Z d))%Qc
    with (Qc_of_Z (a * d)) by (rewrite Z2Qc_inj_mul; by field).
  replace (Qc_of_Z c / Qc_of_Z d * (Qc_of_Z b * Qc_of_Z d))%Qc
    with (Qc_of_Z (c * b)) by (rewrite Z2Qc_inj_mul; by field).
  by apply (proj1 (Z2Qc_inj_lt _ _)).
Qed.

Lemma Qnum_pos (x : Qc) : (0 < x)%Qc → 0 < Qnum x.
Proof.
  intros Hx. assert (0 * Z.pos (Qden x) < Qnum x * 1) as H by exact Hx. lia.
Qed.

Lemma ilog2_spec (x : Qc) :
  (0 < x)%Qc → (Np.pow2 (Np.ilog2 x) ≤ x)%Qc ∧ (x < Np.pow2 (Np.ilog2 x + 1))%Qc.
Proof.
  intros Hx. pose proof (Qnum_pos x Hx) as Hn.
  assert (0 < Z.pos (Qden x)) as Hd by done.
  pose proof (Z.log2_spec _ Hn) as [Hn1 Hn2].
  pose proof (Z.log2_spec _ Hd) as [Hd1 Hd2].
  pose proof (Z.log2_nonneg (Qnum x)) as Hln.
  pose proof (Z.log2_nonneg (Z.pos (Qden x))) as Hld.
  unfold Np.ilog2.
  set (n := Qnum x) in *. set (d := Z.pos (Qden x)) in *.
  set (ln := Z.log2 n) in *. set (ld := Z.log2 d) in *.
  assert (0 < 2 ^ ld) as Hpd by (by apply Z.pow_pos_nonneg).
  assert (0 < 2 ^ ln) as Hpn by (by apply Z.pow_pos_nonneg).
  assert (x = (Qc_of_Z n / Qc_of_Z d)%Qc) as Hxe by apply Qc_num_den.
  case_bool_decide as Ha.
  - split; [done|].
    replace (ln - ld + 1) with (Z.succ ln - ld) by lia.
    rewrite pow2_sub by lia. rewrite Hxe at 1.
    apply Qc_frac_lt; [done..|]. nia.
  - split.
    + replace (ln - ld - 1) with (ln - Z.succ ld) by lia.
      rewrite pow2_sub by lia. rewrite Hxe at 1.
      apply Qc_frac_le; [by apply Z.pow_pos_nonneg; lia|done|]. nia.
    + replace (ln - ld - 1 + 1) with (ln - ld) by lia.
      by apply Qcnot_le_lt.
Qed.

Lemma ilog2_mono (x y : Qc) :
  (0 < x)%Qc → (x ≤ y)%Qc → Np.ilog2 x ≤ Np.ilog2 y.
Proof.
  intros Hx Hxy.
  assert (0 < y)%Qc as Hy by (by eapply Qclt_le_trans).
  destruct (ilog2_spec x Hx) as [Hx1 _].
  destruct (ilog2_spec y Hy) as [_ Hy2].
  assert (Np.pow2 (Np.ilog2 x) < Np.pow2 (Np.ilog2 y + 1))%Qc as Hlt.
  { eapply Qcle_lt_trans; [exact Hx1|]. by eapply Qcle_lt_trans. }
  apply pow2_lt in Hlt. lia.
Qed.

(** *** The nearest multiple of a power of two *)

Lemma on_grid_mono (q : Z) (x y : Qc) :
  (x ≤ y)%Qc → (Np.on_grid q x ≤ Np.on_grid q y)%Qc.
Proof.
  intros Hxy. unfold Np.on_grid.
  apply Qcmult_le_mono_nonneg_r; [apply Qclt_le_weak, pow2_pos|].
  apply (proj1 (Z2Qc_inj_le _ _)), round_half_even_mono.
  unfold Qcdiv. apply Qcmult_le_mono_nonneg_r; [|done].
  apply Qclt_le_weak, Qcinv_pos, pow2_pos.
Qed.

Lemma on_grid_fix (q k z : Z) :
  q ≤ k → Np.on_grid q (Qc_of_Z z * Np.pow2 k) = (Qc_of_Z z * Np.pow2 k)%Qc.
Proof.
  intros Hqk. unfold Np.on_grid.
  replace k with ((k - q) + q) by lia. rewrite pow2_add.
  pose proof (pow2_ne_0 q) as Hq.
  replace (Qc_of_Z z * (Np.pow2 (k - q) * Np.pow2 q) / Np.pow2 q)%Qc
    with (Qc_of_Z (z * 2 ^ (k - q))).
  { rewrite round_half_even_Z, Z2Qc_inj_mul.
    unfold Np.pow2 at 2. rewrite bool_decide_eq_true_2 by lia. by ring. }
  rewrite Z2Qc_inj_mul. unfold Np.pow2 at 1.
  rewrite bool_decide_eq_true_2 by lia. by field.
Qed.

Lemma on_grid_0 (q : Z) : Np.on_grid q 0 = 0%Qc.
Proof.
  rewrite <-(Qcmult_0_l (Np.pow2 q)) at 1. rewrite <-Z2Qc_inj_0.
  rewrite on_grid_fix by done. rewrite Z2Qc_inj_0. by ring.
  Unshelve. all: exact q.
Qed.

Lemma on_grid_pow2 (q k : Z) : q ≤ k → Np.on_grid q (Np.pow2 k) = Np.pow2 k.
Proof.
  intros Hqk. pose proof (on_grid_fix q k 1 Hqk) as H.
  by rewrite Z2Qc_inj_1, Qcmult_1_l in H.
Qed.

Lemma on_grid_opp_pow2 (q k : Z) :
  q ≤ k → Np.on_grid q (- Np.pow2 k) = (- Np.pow2 k)%Qc.
Proof.
  intros Hqk. pose proof (on_grid_fix q k (-1) Hqk) as H.
  change (Qc_of_Z (-1)) with (Qc_of_Z (- (1))) in H.
  rewrite Z2Qc_inj_opp, Z2Qc_inj_1 in H.
  by replace (- 1 * Np.pow2 k)%Qc with (- Np.pow2 k)%Qc in H by ring.
Qed.

(** *** Rounding to a binary format is monotone *)

Section RoundTo.
Context (prec emin : Z).
Hypothesis prec_pos : 1 ≤ prec.

Lemma round_to_on_grid (x : Qc) :
  Np.round_to prec emin x = Np.on_grid (Np.quantum prec emin x) x.
Proof.
  unfold Np.round_to. case_bool_decide as H0; [|done].
  subst. by rewrite on_grid_0.
Qed.

Lemma round_to_mono_pos (x y : Qc) :
  (0 < x)%Qc → (x ≤ y)%Qc →
  (Np.round_to prec emin x ≤ Np.round_to prec emin y)%Qc.
Proof.
  intros Hx Hxy.
  assert (0 < y)%Qc as Hy by (by eapply Qclt_le_trans).
  rewrite !round_to_on_grid.
  assert (Np.absolute x = x) as Hax.
  { unfold Np.absolute. rewrite bool_decide_eq_false_2; [done|].
    by apply Qcle_not_lt, Qclt_le_weak. }
  assert (Np.absolute y = y) as Hay.
  { unfold Np.absolute. rewrite bool_decide_eq_false_2; [done|].
    by apply Qcle_not_lt, Qclt_le_weak. }
  pose proof (ilog2_mono x y Hx Hxy) as He.
  set (qx := Np.quantum prec emin x). set (qy := Np.quantum prec emin y).
  assert (qx ≤ qy) as Hq by (unfold qx, qy, Np.quantum; rewrite Hax, Hay; lia).
  destruct (decide (qx = qy)) as [->|Hne]; [by apply on_grid_mono|].
  assert (qy = Np.ilog2 y - (prec - 1)) as Hqy.
  { unfold qy, Np.quantum in *. rewrite Hay in *. lia. }
  assert (Np.ilog2 x + 1 ≤ Np.ilog2 y) as Hlt.
  { unfold qx, Np.quantum in *. rewrite Hax in *. lia. }
  destruct (ilog2_spec x Hx) as [_ Hx2].
  destruct (ilog2_spec y Hy) as [Hy1 _].
  trans (Np.pow2 (Np.ilog2 y)).
  - rewrite <-(on_grid_pow2 qx (Np.ilog2 y)) by lia. apply on_grid_mono.
    apply Qclt_le_weak.
    eapply Qclt_le_trans; [exact Hx2|]. by apply pow2_mono.
  - rewrite <-(on_grid_pow2 qy (Np.ilog2 y)) at 1 by lia. by apply on_grid_mono.
Qed.

Lemma round_to_mono_neg (x y : Qc) :
  (y < 0)%Qc → (x ≤ y)%Qc →
  (Np.round_to prec emin x ≤ Np.round_to prec emin y)%Qc.
Proof.
  intros Hy Hxy.
  assert (x < 0)%Qc as Hx by (by eapply Qcle_lt_trans).
  rewrite !round_to_on_grid.
  assert (Np.absolute x = (- x)%Qc) as Hax
    by (unfold Np.absolute; by rewrite bool_decide_eq_true_2).
  assert (Np.absolute y = (- y)%Qc) as Hay
    by (unfold Np.absolute; by rewrite bool_decide_eq_true_2).
  assert (0 < - y)%Qc as Hy'.
  { apply (Qcplus_lt_mono_r _ _ y). by ring_simplify. }
  assert (- y ≤ - x)%Qc as Hyx.
  { apply (Qcplus_le_mono_r _ _ (x + y)). by ring_simplify. }
  assert (0 < - x)%Qc as Hx' by (by eapply Qclt_le_trans).
  pose proof (ilog2_mono _ _ Hy' Hyx) as He.
  set (qx := Np.quantum prec emin x). set (qy := Np.quantum prec emin y).
  assert (qy ≤ qx) as Hq by (unfold qx, qy, Np.quantum; rewrite Hax, Hay; lia).
  destruct (decide (qx = qy)) as [->|Hne]; [by apply on_grid_mono|].
  assert (qx = Np.ilog2 (- x) - (prec - 1)) as Hqx.
  { unfold qx, Np.quantum in *. rewrite Hax in *. lia. }
  assert (Np.ilog2 (- y) + 1 ≤ Np.ilog2 (- x)) as Hlt.
  { unfold qy, Np.quantum in *. rewrite Hay in *. lia. }
  destruct (ilog2_spec _ Hx') as [Hx1 _].
  destruct (ilog2_spec _ Hy') as [_ Hy2].
  trans (- Np.pow2 (Np.ilog2 (- x)))%Qc.
  - rewrite <-(on_grid_opp_pow2 qx (Np.ilog2 (- x))) by lia. apply on_grid_mono.
    apply (Qcplus_le_mono_r _ _ (Np.pow2 (Np.ilog2 (- x)) - x)). by ring_simplify.
  - rewrite <-(on_grid_opp_pow2 qy (Np.ilog2 (- x))) at 1 by lia.
    apply on_grid_mono.
    apply (Qcplus_le_mono_r _ _ (Np.pow2 (Np.ilog2 (- x)) - y)). ring_simplify.
    apply Qclt_le_weak. eapply Qclt_le_trans; [exact Hy2|].
    by apply pow2_mono.
Qed.

Lemma round_to_0 : Np.round_to prec emin 0 = 0%Qc.
Proof. done. Qed.

Lemma round_to_nonneg (x : Qc) : (0 ≤ x)%Qc → (0 ≤ Np.round_to prec emin x)%Qc.
Proof.
  intros Hx. rewrite round_to_on_grid.
  rewrite <-(on_grid_0 (Np.quantum prec emin x)). by apply on_grid_mono.
Qed.

Lemma round_to_nonpos (x : Qc) : (x ≤ 0)%Qc → (Np.round_to prec emin x ≤ 0)%Qc.
Proof.
  intros Hx. rewrite round_to_on_grid.
  rewrite <-(on_grid_0 (Np.quantum prec emin x)) at 1. by apply on_grid_mono.
Qed.

Lemma round_to_mono (x y : Qc) :
  (x ≤ y)%Qc → (Np.round_to prec emin x ≤ Np.round_to prec emin y)%Qc.
Proof.
  intros Hxy.
  destruct (Qclt_le_dec 0 x) as [Hx|Hx]; [by apply round_to_mono_pos|].
  destruct (Qclt_le_dec y 0) as [Hy|Hy]; [by apply round_to_mono_neg|].
  trans 0%Qc; [by apply round_to_nonpos|by apply round_to_nonneg].
Qed.

End RoundTo.

Lemma float32_mono (x y : Qc) : (x ≤ y)%Qc → (Np.float32 x ≤ Np.float32 y)%Qc.
Proof. by apply round_to_mono. Qed.

Lemma float64_mono (x y : Qc) : (x ≤ y)%Qc → (Np.float64 x ≤ Np.float64 y)%Qc.
Proof. by apply round_to_mono. Qed.

Lemma float64_nonneg (x : Qc) : (0 ≤ x)%Qc → (0 ≤ Np.float64 x)%Qc.
Proof. by apply round_to_nonneg. Qed.

Lemma float64_1 : Np.float64 1 = 1%Qc.
Proof. apply Qc_is_canon. by vm_compute. Qed.

Lemma float64_100 : Np.float64 (Qc_of_Z 100) = Qc_of_Z 100.
Proof. apply Qc_is_canon. by vm_compute. Qed.

Lemma float64_unit (x : Qc) :
  (0 ≤ x)%Qc → (x ≤ 1)%Qc → (0 ≤ Np.float64 x)%Qc ∧ (Np.float64 x ≤ 1)%Qc.
Proof.
  intros H0 H1. split; [by apply float64_nonneg|].
  rewrite <-float64_1. by apply float64_mono.
Qed.

(** *** The formats on some numbers

    The single and the double nearest to 0.6, the double nearest to 1/3,
    the smallest positive single (a subnormal number) for a number just
    above its half, the square root of 2 in double precision, and
    [np.round] of two thirds in percent. *)
Lemma float32_six_tenths :
  Np.float32 (Q2Qc (6 # 10)) = Q2Qc (5033165 # 8388608).
Proof. apply Qc_is_canon. by vm_compute. Qed.

Lemma float64_six_tenths :
  Np.float64 (Q2Qc (6 # 10)) = Q2Qc (5404319552844595 # 9007199254740992).
Proof. apply Qc_is_canon. by vm_compute. Qed.

Lemma float64_one_third :
  Np.float64 (Q2Qc (1 # 3)) = Q2Qc (6004799503160661 # 18014398509481984).
Proof. apply Qc_is_canon. by vm_compute. Qed.

Lemma float32_subnormal :
  Np.float32 (Q2Qc (6 # 10) * Np.pow2 (-149)) = Np.pow2 (-149).
Proof. apply Qc_is_canon. by vm_compute. Qed.

Lemma sqrt_two :
  Np.sqrt_to 53 (-1074) (Qc_of_Z 2) =
  Q2Qc (6369051672525773 # 4503599627370496).
Proof. apply Qc_is_canon. by vm_compute. Qed.

Lemma around_two_thirds :
  Np.around 2 (Np.float64 (Np.float64 (Q2Qc (2 # 3)) * Qc_of_Z 100)) =
  Np.float64 (Q2Qc (6667 # 100)).
Proof. apply Qc_is_canon. by vm_compute. Qed.

(** ** Inference Runner *)

Section InferenceRunnerFacts.
Context {logits : Type}.
Variable model : list string → list logits.
Variable softmax : logits → Qc * Qc.

(** The labels are the thresholded toxic probabilities, row by row. *)
Lemma predict_batches_rule conf_th loader acc :
  acc.1 = (λ p, Np.where_gt p.2 conf_th) <$> acc.2 →
  let out := predict_batches model softmax conf_th loader acc in
  out.1 = (λ p, Np.where_gt p.2 conf_th) <$> out.2.
Proof.
  revert acc. induction loader as [|batch loader IH]; intros acc Hacc; [done|].
  simpl. apply IH. simpl. by rewrite fmap_app, Hacc.
Qed.

Lemma predict_batches_probs conf_th loader acc :
  (predict_batches model softmax conf_th loader acc).2 =
  acc.2 ++ (softmax <$> (loader ≫= model)).
Proof.
  revert acc. induction loader as [|batch loader IH]; intros acc; simpl.
  - by rewrite app_nil_r.
  - rewrite IH. simpl. by rewrite fmap_app, app_assoc.
Qed.

Lemma predict_language_rule ds bs conf_th r :
  predict_language model softmax ds bs conf_th = Ok r →
  pred_labels r = (λ p, Np.where_gt p.2 conf_th) <$> pred_probs r.
Proof.
  unfold predict_language. intros H. inv_Ok.
  pose proof (predict_batches_rule conf_th x ([], []) eq_refl) as Hr.
  destruct (predict_batches _ _ _ _ _) as [labels probs].
  inv_Ok. by subst r.
Qed.

(** Every entry of the result was computed by [predict_language]. *)
Lemma predict_languages_entries items bs conf_th acc res lang r :
  predict_languages model softmax items bs conf_th acc = Ok res →
  (lang, r) ∈ res →
  (lang, r) ∈ acc ∨
  ∃ ds, (lang, ds) ∈ items ∧
        predict_language model softmax ds bs conf_th = Ok r.
Proof.
  revert acc. induction items as [|[l ds] items IH]; intros acc H Hin.
  - simpl in H. inv_Ok. subst. by left.
  - simpl in H. inv_Ok.
    destruct (IH _ H Hin) as [Hacc|(ds' & ? & ?)].
    + apply elem_of_dict_set in Hacc as [?|[= -> ->]]; [by left|].
      right. exists ds. split; [by left|done].
    + right. exists ds'. split; [by right|done].
Qed.

Lemma predict_entries is_file dfs bs conf_th res lang r :
  predict_with_probabilities model softmax is_file dfs bs conf_th = Ok res →
  (lang, r) ∈ res →
  ∃ ds, (lang, ds) ∈ dfs ∧
        predict_language model softmax ds bs conf_th = Ok r.
Proof.
  unfold predict_with_probabilities. intros H Hin. inv_Ok.
  destruct (predict_languages_entries _ _ _ _ _ _ _ H Hin) as [Hnil|?];
    [by apply elem_of_nil in Hnil|done].
Qed.
End InferenceRunnerFacts.

(** The data loader yields every row once, in order. *)
Lemma batches_concat {A} (n bs : nat) (data : list A) :
  (0 < bs)%nat → (length data ≤ n)%nat →
  concat (Torch.batches n bs data) = data.
Proof.
  intros Hbs. revert data.
  induction n as [|n IH]; intros [|x data] Hn; simpl in *; try done; [lia|].
  rewrite IH.
  - destruct bs as [|bs]; [lia|]. simpl. by rewrite take_drop.
  - destruct bs as [|bs]; [lia|]. simpl. rewrite length_drop. lia.
Qed.

Lemma DataLoader_concat {A} (data : list A) batch_size loader :
  Torch.DataLoader data batch_size = Ok loader → concat loader = data.
Proof.
  unfold Torch.DataLoader. case_bool_decide; [done|]. intros [= <-].
  apply batches_concat; lia.
Qed.

Section RowsPreserved.
Context {logits : Type}.
Variable model : list string → list logits.
Variable softmax : logits → Qc * Qc.
Hypothesis model_rows : ∀ batch, length (model batch) = length batch.

Lemma length_forward loader :
  length (loader ≫= model) = length (concat loader).
Proof.
  induction loader as [|b loader IH]; [done|].
  rewrite bind_cons, concat_cons, !length_app, IH, model_rows. done.
Qed.

Lemma predict_language_lengths ds bs conf_th r :
  predict_language model softmax ds bs conf_th = Ok r →
  length (true_labels r) = length (pred_labels r) ∧
  length (pred_labels r) = length (pred_probs r).
Proof.
  intros H. pose proof (predict_language_rule _ _ _ _ _ _ H) as Hrule.
  unfold predict_language in H. inv_Ok.
  pose proof (predict_batches_probs model softmax conf_th x ([], [])) as Hp.
  destruct (predict_batches _ _ _ _ _) as [labels probs].
  inv_Ok. subst r. simpl in *. subst.
  rewrite !length_fmap, length_forward.
  by erewrite DataLoader_concat, length_fmap by done.
Qed.
End RowsPreserved.

(** C1, amended: for every row of every language of the result of
    [predict_with_probabilities], the predicted label is 1 exactly when the
    softmax probability of class 1 is strictly greater than [conf_th]
    rounded to single precision, the precision of the probabilities, and
    it is 0 otherwise; at [conf_th = 0.5], which single precision holds
    exactly, the pair (0.5, 0.5) gets label 0 and the pair (0.4, 0.6) gets
    label 1. *)
Theorem predicted_label_threshold_rule {logits : Type}
    (model : list string → list logits) (softmax : logits → Qc * Qc)
    (model_is_file : bool) (df_by_language : list (string * dataframe))
    (batch_size : Z) (conf_th : Qc) (res : list (string * prediction))
    (lang : string) (r : prediction) (i : nat) (p : Qc * Qc) :
  predict_with_probabilities model softmax model_is_file df_by_language
    batch_size conf_th = Ok res →
  (lang, r) ∈ res →
  pred_probs r !! i = Some p →
  ∃ y, pred_labels r !! i = Some y ∧
       (y = 1 ↔ (Np.float32 conf_th < p.2)%Qc) ∧
       (y = 0 ↔ ¬ (Np.float32 conf_th < p.2)%Qc) ∧
       (conf_th = Q2Qc (1 # 2) →
        Np.float32 conf_th = conf_th ∧
        (p = (Q2Qc (1 # 2), Q2Qc (1 # 2)) → y = 0) ∧
        (p = (Q2Qc (4 # 10), Q2Qc (6 # 10)) → y = 1)).
Proof.
  intros Hrun Hin Hp.
  destruct (predict_entries _ _ _ _ _ _ _ _ _ Hrun Hin) as (ds & _ & Hlang).
  apply predict_language_rule in Hlang.
  exists (Np.where_gt p.2 conf_th). split.
  { by rewrite Hlang, list_lookup_fmap, Hp. }
  unfold Np.where_gt. split_and!.
  - case_bool_decide; split; (done || discriminate).
  - case_bool_decide; split; (done || discriminate).
  - intros ->. split_and!.
    + apply Qc_is_canon. by vm_compute.
    + intros ->. by vm_compute.
    + intros ->. by vm_compute.
Qed.

Lemma predicted_label_threshold_rule_witness :
  ∃ y, pred_labels (Prediction [0; 1] [0; 1]
         [(Q2Qc (1 # 2), Q2Qc (1 # 2)); (Q2Qc (4 # 10), Q2Qc (6 # 10))])
         !! 1%nat = Some y ∧
       (y = 1 ↔ (Np.float32 (Q2Qc (1 # 2)) < Q2Qc (6 # 10))%Qc) ∧
       (y = 0 ↔ ¬ (Np.float32 (Q2Qc (1 # 2)) < Q2Qc (6 # 10))%Qc) ∧
       (Q2Qc (1 # 2) = Q2Qc (1 # 2) →
        Np.float32 (Q2Qc (1 # 2)) = Q2Qc (1 # 2) ∧
        ((Q2Qc (4 # 10), Q2Qc (6 # 10)) = (Q2Qc (1 # 2), Q2Qc (1 # 2)) →
         y = 0) ∧
        ((Q2Qc (4 # 10), Q2Qc (6 # 10)) = (Q2Qc (4 # 10), Q2Qc (6 # 10)) →
         y = 1)).
Proof.
  apply (predicted_label_threshold_rule
           (λ batch, (λ t, if decide (t = "i hate you")
                           then (Q2Qc (4 # 10), Q2Qc (6 # 10))
                           else (Q2Qc (1 # 2), Q2Qc (1 # 2))) <$> batch)
           id true
           [("en", [Row "you are great" 0; Row "i hate you" 1])]
           32 (Q2Qc (1 # 2))
           [("en", Prediction [0; 1] [0; 1]
               [(Q2Qc (1 # 2), Q2Qc (1 # 2));
                (Q2Qc (4 # 10), Q2Qc (6 # 10))])]
           "en" _ 1%nat (Q2Qc (4 # 10), Q2Qc (6 # 10))).
  - vm_compute. reflexivity.
  - apply list_elem_of_singleton. reflexivity.
  - reflexivity.
Defined.

(** The original wording of C1 fails: with the threshold 0.6, a double, and
    the single-precision probabilities of (0.4, 0.6), the probability of
    class 1 is strictly greater than the threshold and the predicted label
    is 0, for in single precision the two are the same number. *)
Lemma threshold_is_compared_in_single_precision :
  let conf_th := Np.float64 (Q2Qc (6 # 10)) in
  let p := (Np.float32 (Q2Qc (4 # 10)), Np.float32 (Q2Qc (6 # 10))) in
  (conf_th < p.2)%Qc ∧
  predict_with_probabilities (fmap (λ _ : string, p)) id true
    [("en", [Row "i hate you" 1])] 32 conf_th =
  Ok [("en", Prediction [1] [0] [p])].
Proof. split; by vm_compute. Qed.

(** C5: in every per-language entry that [predict_with_probabilities]
    returns, the true labels, the predicted labels and the probability pairs
    have the same length; the classifier gives one row of logits per text of
    a batch. *)
Theorem prediction_lengths_agree {logits : Type}
    (model : list string → list logits) (softmax : logits → Qc * Qc)
    (model_is_file : bool) (df_by_language : list (string * dataframe))
    (batch_size : Z) (conf_th : Qc) (res : list (string * prediction))
    (lang : string) (r : prediction) :
  (∀ batch, length (model batch) = length batch) →
  predict_with_probabilities model softmax model_is_file df_by_language
    batch_size conf_th = Ok res →
  (lang, r) ∈ res →
  length (true_labels r) = length (pred_labels r) ∧
  length (pred_labels r) = length (pred_probs r).
Proof.
  intros Hrows Hrun Hin.
  destruct (predict_entries _ _ _ _ _ _ _ _ _ Hrun Hin) as (ds & _ & Hlang).
  by eapply predict_language_lengths.
Qed.

Lemma prediction_lengths_agree_witness :
  length (true_labels (Prediction [0; 1; 0] [0; 0; 0]
            (replicate 3 (Q2Qc (1 # 2), Q2Qc (1 # 2))))) =
  length (pred_labels (Prediction [0; 1; 0] [0; 0; 0]
            (replicate 3 (Q2Qc (1 # 2), Q2Qc (1 # 2))))) ∧
  length (pred_labels (Prediction [0; 1; 0] [0; 0; 0]
            (replicate 3 (Q2Qc (1 # 2), Q2Qc (1 # 2))))) =
  length (pred_probs (Prediction [0; 1; 0] [0; 0; 0]
            (replicate 3 (Q2Qc (1 # 2), Q2Qc (1 # 2))))).
Proof.
  apply (prediction_lengths_agree
           (λ batch, (λ _, (Q2Qc (1 # 2), Q2Qc (1 # 2))) <$> batch) id true
           [("en", [Row "a" 0; Row "b" 1; Row "c" 0])] 2 (Q2Qc (1 # 2))
           [("en", Prediction [0; 1; 0] [0; 0; 0]
                     (replicate 3 (Q2Qc (1 # 2), Q2Qc (1 # 2))))]
           "en").
  - intros batch. apply length_fmap.
  - vm_compute. reflexivity.
  - apply list_elem_of_singleton. reflexivity.
Defined.

(** ** Training Curve Plotter *)

(** C7: [plot_training_curves] fails exactly when the two accuracy
    sequences differ in length or the two loss sequences differ in length;
    the two checks are independent: with both pairs matching it draws the
    two charts whatever the lengths of accuracies and losses are to each
    other. *)
Theorem plot_training_curves_fails_iff
    (train_accs train_losses val_accs val_losses : list Qc) :
  ((∃ e, plot_training_curves train_accs train_losses val_accs val_losses
         = Raise e) ↔
   (length train_accs ≠ length val_accs ∨
    length train_losses ≠ length val_losses)) ∧
  ((length train_accs = length val_accs ∧
    length train_losses = length val_losses) ↔
   plot_training_curves train_accs train_losses val_accs val_losses =
   Ok [Chart "Accuracy" train_accs val_accs;
       Chart "Loss" train_losses val_losses]).
Proof.
  unfold plot_training_curves.
  destruct (decide (length train_accs = length val_accs)) as [Ha|Ha];
    destruct (decide (length train_losses = length val_losses)) as [Hl|Hl];
    rewrite ?(bool_decide_eq_true_2 _ Ha), ?(bool_decide_eq_false_2 _ Ha),
      ?(bool_decide_eq_true_2 _ Hl), ?(bool_decide_eq_false_2 _ Hl); simpl;
    (split; split); try (intros [e He]; discriminate He); try discriminate;
    try tauto; eauto.
Qed.

(** The loss sequences may be longer than the accuracy sequences. *)
Example plot_training_curves_independent :
  plot_training_curves [Q2Qc (1 # 2)] [1%Qc; 0%Qc] [Q2Qc (1 # 3)] [0%Qc; 1%Qc]
  = Ok [Chart "Accuracy" [Q2Qc (1 # 2)] [Q2Qc (1 # 3)];
        Chart "Loss" [1%Qc; 0%Qc] [0%Qc; 1%Qc]].
Proof. reflexivity. Qed.

(** ** Confusion Matrix Reporter *)

(** The pooled sequences are the concatenations of the per-language ones. *)
Lemma pool_labels_concat items total :
  pool_labels items total =
  (total.1 ++ concat (true_labels <$> items.*2),
   total.2 ++ concat (pred_labels <$> items.*2)).
Proof.
  revert total. induction items as [|[lang labels] items IH]; intros total.
  - simpl. rewrite !app_nil_r. by destruct total.
  - simpl. rewrite IH. simpl. by rewrite !app_assoc.
Qed.

Lemma length_concat_agree {A B C} (f : A → list B) (g : A → list C) l :
  Forall (λ a, length (f a) = length (g a)) l →
  length (concat (f <$> l)) = length (concat (g <$> l)).
Proof.
  induction 1 as [|a l Ha _ IH]; [done|].
  rewrite !fmap_cons, !concat_cons, !length_app. by rewrite Ha, IH.
Qed.

(** C6: [show_confusion_matrix] raises its size assertion whenever the
    pooled true labels and the pooled predicted labels, the concatenations
    of the per-language sequences, differ in length; the check passes
    whenever every language has as many predicted as true labels. *)
Theorem pooled_size_assertion (d : list (string * prediction)) :
  (length (concat (true_labels <$> d.*2)) ≠
   length (concat (pred_labels <$> d.*2)) →
   show_confusion_matrix d = Raise (AssertionError size_msg)) ∧
  (Forall (λ labels, length (true_labels labels) = length (pred_labels labels))
     d.*2 →
   length (concat (true_labels <$> d.*2)) =
   length (concat (pred_labels <$> d.*2)) ∧
   show_confusion_matrix d ≠ Raise (AssertionError size_msg)).
Proof.
  unfold show_confusion_matrix. rewrite pool_labels_concat. simpl. split.
  - intros Hne. rewrite (bool_decide_eq_false_2 _ Hne). reflexivity.
  - intros Hall. pose proof (length_concat_agree _ _ _ Hall) as Heq.
    split; [done|]. rewrite (bool_decide_eq_true_2 _ Heq).
    unfold assert at 1. cbn [mbind result_bind rbind].
    unfold assert. case_bool_decide; [done|]. cbn. by intros [= ?].
Qed.

Lemma dict_set_fresh {V} (d : list (string * V)) k v :
  k ∉ Py.keys d → Py.dict_set d k v = d ++ [(k, v)].
Proof.
  unfold Py.keys. induction d as [|[k' v'] d IH]; simpl; [done|].
  intros [? ?]%not_elem_of_cons. case_decide; [congruence|]. by rewrite IH.
Qed.

Lemma keys_panels (d : list (string * prediction)) :
  Py.keys (prod_map id panel_labels <$> d) = Py.keys d.
Proof.
  unfold Py.keys. rewrite <-list_fmap_compose. by apply list_fmap_ext; intros ? [].
Qed.

(** The number of panels: one more than the languages, unless a language is
    already called [ALL_LANGUAGES]. *)
Lemma length_merged (d : list (string * prediction)) total :
  length (Py.dict_set (prod_map id panel_labels <$> d) ALL_LANGUAGES total) =
  if decide (ALL_LANGUAGES ∈ Py.keys d) then length d else S (length d).
Proof.
  case_decide.
  - rewrite length_dict_set_present, length_fmap; [done|by rewrite keys_panels].
  - rewrite length_dict_set_fresh, length_fmap; [done|by rewrite keys_panels].
Qed.

(** On [four_entries] both assertions pass and four panels are drawn: the
    entry under [ALL_LANGUAGES] is pooled with the others and then replaced
    by the pooled view. *)
Lemma four_entries_accepted :
  Py.is_dict four_entries ∧
  length four_entries ≠ 3%nat ∧
  show_confusion_matrix four_entries =
  Ok [("en", ([0; 1], [0; 1])); ("es", ([1], [0])); ("fr", ([0], [0]));
      (ALL_LANGUAGES, ([0; 1; 1; 0; 1], [0; 1; 0; 0; 1]))] ∧
  ∃ panels, draw_confusion_matrices four_entries = Ok panels ∧
            length panels = 4%nat.
Proof.
  split_and!; [|done|reflexivity|].
  - unfold Py.is_dict. apply (bool_decide_unpack _). reflexivity.
  - destruct (draw_confusion_matrices four_entries) as [panels|] eqn:Hrun;
      [|by vm_compute in Hrun].
    exists panels. split; [done|].
    apply (f_equal (λ x, match x with
                         | Ok ps => Some (length ps)
                         | Raise _ => None
                         end)) in Hrun.
    vm_compute in Hrun. injection Hrun as Hrun. exact (eq_sym Hrun).
Qed.

(** C4, amended: when no entry is keyed [ALL_LANGUAGES], the key of the
    pooled view, [show_confusion_matrix] succeeds only when given exactly 3
    language entries, and raises an assertion error for every input whose
    number of language entries is not 3. *)
Theorem three_languages_required (d : list (string * prediction)) :
  ALL_LANGUAGES ∉ Py.keys d →
  (∀ panels, draw_confusion_matrices d = Ok panels → length d = 3%nat) ∧
  (length d ≠ 3%nat →
   ∃ msg, draw_confusion_matrices d = Raise (AssertionError msg)).
Proof.
  intros Hkey.
  assert (length d ≠ 3%nat →
          ∃ msg, draw_confusion_matrices d = Raise (AssertionError msg))
    as Hraise.
  { intros Hlen. unfold draw_confusion_matrices, show_confusion_matrix.
    rewrite pool_labels_concat. simpl. rewrite length_merged.
    rewrite decide_False by done.
    assert (S (length d) ≠ 4%nat) as Hfour by lia.
    rewrite (bool_decide_eq_false_2 _ Hfour).
    destruct (decide (length (concat (true_labels <$> d.*2)) =
                      length (concat (pred_labels <$> d.*2)))) as [Hpool|Hpool].
    - rewrite (bool_decide_eq_true_2 _ Hpool). by eexists.
    - rewrite (bool_decide_eq_false_2 _ Hpool). by eexists. }
  split; [|done].
  intros panels Hrun.
  destruct (decide (length d = 3%nat)) as [|Hlen]; [done|].
  destruct (Hraise Hlen) as [msg Hmsg]. by rewrite Hmsg in Hrun.
Qed.

Lemma three_languages_required_witness :
  (ALL_LANGUAGES ∉ Py.keys three_entries) ∧
  ∃ panels, draw_confusion_matrices three_entries = Ok panels ∧
            length three_entries = 3%nat.
Proof.
  assert (Hkey : ALL_LANGUAGES ∉ Py.keys three_entries).
  { apply (bool_decide_unpack _). vm_compute. reflexivity. }
  split; [exact Hkey|].
  destruct (draw_confusion_matrices three_entries) as [panels|] eqn:Hrun;
    [|by vm_compute in Hrun].
  exists panels. split; [done|].
  destruct (three_languages_required three_entries Hkey) as [Honly _].
  exact (Honly panels Hrun).
Defined.

(** ** Stable insertion sort *)

Section StableSortFacts.
Context {A : Type} (before : A → A → bool).
Hypothesis before_total : ∀ x y, before x y = false → before y x = true.

Lemma insert_by_perm x l : insert_by before x l ≡ₚ x :: l.
Proof.
  induction l as [|y l IH]; simpl; [done|].
  destruct (before x y); [done|]. by rewrite IH, Permutation_swap.
Qed.

Lemma sort_by_perm l : sort_by before l ≡ₚ l.
Proof.
  induction l as [|x l IH]; simpl; [done|].
  by rewrite insert_by_perm, IH.
Qed.

Lemma insert_by_HdRel z x l :
  before z x = true → HdRel (λ a b, before a b = true) z l →
  HdRel (λ a b, before a b = true) z (insert_by before x l).
Proof.
  intros Hzx Hhd. destruct l as [|y l]; simpl; [by constructor|].
  destruct (before x y); constructor; [done|]. by inv Hhd.
Qed.

Lemma insert_by_Sorted x l :
  Sorted (λ a b, before a b = true) l →
  Sorted (λ a b, before a b = true) (insert_by before x l).
Proof.
  induction 1 as [|y l Hs IH Hhd]; simpl.
  - by repeat constructor.
  - destruct (before x y) eqn:Hxy.
    + constructor; [by constructor|by constructor].
    + constructor; [done|]. apply insert_by_HdRel; [|done].
      by apply before_total.
Qed.

Lemma sort_by_Sorted l : Sorted (λ a b, before a b = true) (sort_by before l).
Proof.
  induction l as [|x l IH]; simpl; [constructor|].
  by apply insert_by_Sorted.
Qed.
End StableSortFacts.

Lemma Sorted_mono {A} (R1 R2 : relation A) l :
  (∀ a b, R1 a b → R2 a b) → Sorted R1 l → Sorted R2 l.
Proof.
  intros HR. induction 1 as [|x l Hs IH Hhd]; constructor; [done|].
  destruct Hhd; constructor. by apply HR.
Qed.

(** [sorted(l, key=key, reverse=True)] is a descending rearrangement. *)
Lemma sorted_reverse_perm {A} (key : A → Qc) l :
  Py.sorted_reverse key l ≡ₚ l.
Proof. apply sort_by_perm. Qed.

Lemma sorted_reverse_Sorted {A} (key : A → Qc) l :
  StronglySorted (λ a b, (key b ≤ key a)%Qc) (Py.sorted_reverse key l).
Proof.
  apply Sorted_StronglySorted.
  { intros a b c ??. by etrans. }
  eapply Sorted_mono; [|apply sort_by_Sorted].
  - intros a b Hab. by apply bool_decide_eq_true in Hab.
  - intros a b Hab. apply bool_decide_eq_false, Qcnot_le_lt in Hab.
    apply bool_decide_eq_true. by apply Qclt_le_weak.
Qed.

(** [l[:k]] is a prefix of [l], of at most [k] items when [k >= 0]. *)
Lemma slice_to_prefix {A} (l : list A) k : ∃ n, Py.slice_to l k = take n l.
Proof. unfold Py.slice_to. case_bool_decide; eauto. Qed.

Lemma length_slice_to {A} (l : list A) k :
  0 ≤ k → (Z.of_nat (length (Py.slice_to l k)) ≤ k)%Z.
Proof.
  intros Hk. unfold Py.slice_to. rewrite bool_decide_eq_false_2 by lia.
  rewrite length_take. lia.
Qed.

Lemma StronglySorted_take {A} (R : relation A) n l :
  StronglySorted R l → StronglySorted R (take n l).
Proof.
  intros Hs. revert n. induction Hs as [|x l Hs IH Hx]; intros [|n]; simpl;
    try constructor; [done|].
  eapply Forall_forall. intros y Hy. eapply Forall_forall in Hx; [done|].
  eapply elem_of_sublist; [done|apply sublist_take].
Qed.

Lemma StronglySorted_lookup {A} (R : relation A) l i j x y :
  StronglySorted R l → (i < j)%nat → l !! i = Some x → l !! j = Some y →
  R x y.
Proof.
  intros Hs. revert i j. induction Hs as [|z l Hs IH Hz]; intros i j Hij Hi Hj.
  - by rewrite lookup_nil in Hi.
  - destruct j as [|j]; [lia|]. destruct i as [|i]; simpl in *.
    + injection Hi as ->. eapply Forall_forall in Hz; [done|].
      by eapply list_elem_of_lookup_2.
    + eapply (IH i j); [lia|done..].
Qed.

(** ** Failure Extractor *)

Lemma dict_get_elem_of {V} (d : list (string * V)) k v :
  Py.dict_get d k = Ok v → (k, v) ∈ d.
Proof.
  induction d as [|[k' v'] d IH]; simpl; [done|].
  case_decide; subst.
  - intros [= ->]. by left.
  - intros ?. right. by apply IH.
Qed.

Lemma index_Ok {A} (l : list A) i x : Py.index l i = Ok x ↔ l !! i = Some x.
Proof.
  unfold Py.index. destruct (l !! i); split; intros [= ->] || discriminate;
    done.
Qed.

(** [enumerate(zip(a, b, c))] pairs every index with the three items at
    that index. *)
Lemma elem_of_enumerate_zip3 {A B C} (a : list A) (b : list B) (c : list C)
    k i x y z :
  (i, (x, y, z)) ∈ Py.enumerate_from k (Py.zip3 a b c) →
  ∃ j, i = (k + j)%nat ∧ a !! j = Some x ∧ b !! j = Some y ∧ c !! j = Some z.
Proof.
  revert b c k.
  induction a as [|x' a IH]; intros [|y' b] [|z' c] k; simpl;
    try by intros ?%elem_of_nil.
  intros [[= -> -> -> ->]|Hin]%elem_of_cons.
  - exists 0%nat. split_and!; [lia|done..].
  - destruct (IH _ _ _ Hin) as (j & -> & ? & ? & ?).
    exists (S j). split_and!; [lia|done..].
Qed.

Lemma max2_max p :
  (p.1 ≤ Py.max2 p)%Qc ∧ (p.2 ≤ Py.max2 p)%Qc ∧
  (Py.max2 p = p.1 ∨ Py.max2 p = p.2).
Proof.
  unfold Py.max2. case_bool_decide as Hlt.
  - split_and!; [by apply Qclt_le_weak|done|by right].
  - apply Qcnot_lt_le in Hlt. split_and!; [done|done|by left].
Qed.

Lemma scan_failures_sound test_set m rows acc out :
  (∀ i t p prob, (i, (t, p, prob)) ∈ rows →
     true_labels m !! i = Some t ∧ pred_labels m !! i = Some p ∧
     pred_probs m !! i = Some prob) →
  Forall (λ f, reports test_set m f ∧ failure_true_label f = 0 ∧
               failure_pred_label f ≠ 0) acc.1 →
  Forall (λ f, reports test_set m f ∧ failure_true_label f ≠ 0 ∧
               failure_pred_label f ≠ failure_true_label f) acc.2 →
  scan_failures test_set rows acc = Ok out →
  Forall (λ f, reports test_set m f ∧ failure_true_label f = 0 ∧
               failure_pred_label f ≠ 0) out.1 ∧
  Forall (λ f, reports test_set m f ∧ failure_true_label f ≠ 0 ∧
               failure_pred_label f ≠ failure_true_label f) out.2.
Proof.
  revert acc.
  induction rows as [|[i [[t p] prob]] rows IH]; intros acc Hrows H1 H2 Hrun.
  { simpl in Hrun. by injection Hrun as <-. }
  simpl in Hrun.
  assert (∀ i t p prob, (i, (t, p, prob)) ∈ rows →
     true_labels m !! i = Some t ∧ pred_labels m !! i = Some p ∧
     pred_probs m !! i = Some prob) as Hrows'.
  { intros ???? ?. apply Hrows. by right. }
  destruct (Hrows i t p prob) as (Ht & Hp & Hprob); [by left|].
  case_bool_decide as Hne; [|by eapply IH].
  apply bind_Ok in Hrun as (r & Hr & Hrun).
  apply index_Ok in Hr.
  assert (reports test_set m (Failure t p (Py.max2 prob) (text r))) as Hrep.
  { exists i, prob, r. simpl.
    destruct (max2_max prob) as (? & ? & ?). by split_and!. }
  case_bool_decide as Hzero.
  - apply IH in Hrun; [done|done| |done]. simpl.
    apply Forall_app. split; [done|]. apply Forall_singleton.
    simpl. split_and!; [done|done|congruence].
  - apply IH in Hrun; [done|done|done|]. simpl.
    apply Forall_app. split; [done|]. apply Forall_singleton.
    simpl. split_and!; [done|done|congruence].
Qed.

Lemma top_slice_sorted (fs : list failure) k :
  non_increasing (confidence <$> Py.slice_to (Py.sorted_reverse confidence fs) k).
Proof.
  destruct (slice_to_prefix (Py.sorted_reverse confidence fs) k) as [n ->].
  pose proof (StronglySorted_take _ n _ (sorted_reverse_Sorted confidence fs))
    as Hs.
  intros i j x y Hij Hi Hj.
  apply list_lookup_fmap_Some in Hi as (fi & -> & Hi).
  apply list_lookup_fmap_Some in Hj as (fj & -> & Hj).
  destruct (decide (i = j)) as [->|Hne].
  - rewrite Hi in Hj. by injection Hj as ->.
  - by apply (StronglySorted_lookup _ _ i j fi fj Hs); [lia|..].
Qed.

Lemma top_slice_elem_of (fs : list failure) k f :
  f ∈ Py.slice_to (Py.sorted_reverse confidence fs) k → f ∈ fs.
Proof.
  destruct (slice_to_prefix (Py.sorted_reverse confidence fs) k) as [n ->].
  intros Hin. rewrite <-(sorted_reverse_perm confidence fs).
  eapply elem_of_sublist; [done|apply sublist_take].
Qed.

Lemma language_failures_sound test_set m k cats :
  language_failures test_set m k = Ok cats →
  ∃ false_toxic false_nontoxic,
    cats = [(FALSE_TOXIC, false_toxic); (FALSE_NON_TOXIC, false_nontoxic)] ∧
    (∀ f, f ∈ false_toxic →
       reports test_set m f ∧ failure_true_label f = 0 ∧
       failure_pred_label f ≠ 0) ∧
    (∀ f, f ∈ false_nontoxic →
       reports test_set m f ∧ failure_true_label f ≠ 0 ∧
       failure_pred_label f ≠ failure_true_label f) ∧
    non_increasing (confidence <$> false_toxic) ∧
    non_increasing (confidence <$> false_nontoxic) ∧
    (0 ≤ k → Z.of_nat (length false_toxic) ≤ k ∧
             Z.of_nat (length false_nontoxic) ≤ k).
Proof.
  unfold language_failures. intros H.
  apply bind_Ok in H as ([ft fnt] & Hscan & H). injection H as <-.
  apply scan_failures_sound with (m := m) in Hscan as [Hft Hfnt];
    [|by intros i t p prob (j & -> & ? & ? & ?)%elem_of_enumerate_zip3
     |by constructor..].
  simpl in Hft, Hfnt. rewrite Forall_forall in Hft, Hfnt.
  eexists _, _. split_and!.
  - reflexivity.
  - intros f Hf%top_slice_elem_of. by apply Hft.
  - intros f Hf%top_slice_elem_of. by apply Hfnt.
  - apply top_slice_sorted.
  - apply top_slice_sorted.
  - intros Hk. split; by apply length_slice_to.
Qed.

(** Every entry of the result was computed by [language_failures]. *)
Lemma find_failures_entries items ms k acc out lang cats :
  find_failures items ms k acc = Ok out →
  (lang, cats) ∈ out →
  (lang, cats) ∈ acc ∨
  ∃ test_set m, (lang, test_set) ∈ items ∧ Py.dict_get ms lang = Ok m ∧
                language_failures test_set m k = Ok cats.
Proof.
  revert acc. induction items as [|[l ts] items IH]; intros acc H Hin.
  - simpl in H. injection H as <-. by left.
  - simpl in H. apply bind_Ok in H as (m & Hm & H).
    apply bind_Ok in H as (r & Hr & H).
    destruct (IH _ H Hin) as [Hacc|(ts' & m' & ? & ? & ?)].
    + apply elem_of_dict_set in Hacc as [?|[= -> ->]]; [by left|].
      right. exists ts, m. split_and!; [by left|done..].
    + right. exists ts', m'. split_and!; [by right|done..].
Qed.

(** C2: for every language of the result of [find_top_failures], with
    labels that are 0 or 1 as in the data model and a count [K >= 0]: every
    record of the 'False TOXIC' list has true label 0 and predicted label 1,
    every record of the 'False NON-TOXIC' list has true label 1 and
    predicted label 0, the confidence of a record is the larger of the two
    probabilities of its row, the confidences of each list are
    non-increasing, and each list has at most [K] records. *)
Theorem top_failures_contract (ds : list (string * dataframe))
    (ms : list (string * prediction)) (K : Z)
    (out : list (string * list (string * list failure)))
    (lang : string) (cats : list (string * list failure)) :
  (∀ l m, (l, m) ∈ ms →
     binary_labels (true_labels m) ∧ binary_labels (pred_labels m)) →
  0 ≤ K →
  find_top_failures ds ms K = Ok out →
  (lang, cats) ∈ out →
  extraction_contract ds ms K lang cats.
Proof.
  intros Hbin HK Hrun Hin.
  destruct (find_failures_entries _ _ _ _ _ _ _ Hrun Hin)
    as [Hnil|(test_set & m & Hts & Hm & Hlang)];
    [by apply elem_of_nil in Hnil|].
  destruct (Hbin lang m) as [Htrue Hpred]; [by apply dict_get_elem_of|].
  unfold binary_labels in *. rewrite Forall_lookup in Htrue, Hpred.
  apply language_failures_sound in Hlang
    as (ft & fnt & -> & Hft & Hfnt & Hs1 & Hs2 & Hlen).
  exists test_set, m, ft, fnt. split_and!; try done; try by apply Hlen.
  - intros f Hf. destruct (Hft f Hf) as (Hrep & H0 & Hne).
    pose proof Hrep as (i & prob & r & Hi & Hj & _).
    apply Hpred in Hj. split_and!; [done|lia|done].
  - intros f Hf. destruct (Hfnt f Hf) as (Hrep & H0 & Hne).
    pose proof Hrep as (i & prob & r & Hi & Hj & _).
    apply Htrue in Hi. apply Hpred in Hj. split_and!; [lia|lia|done].
Qed.

Lemma top_failures_contract_witness :
  find_top_failures en_corpus en_matches 5 = Ok [("en", en_failures)] ∧
  extraction_contract en_corpus en_matches 5 "en" en_failures.
Proof.
  assert (Hrun : find_top_failures en_corpus en_matches 5
                 = Ok [("en", en_failures)]).
  { vm_compute. reflexivity. }
  split; [exact Hrun|].
  apply (top_failures_contract en_corpus en_matches 5
           [("en", en_failures)] "en" en_failures).
  - intros l m Hin. apply list_elem_of_singleton in Hin.
    injection Hin as _ ->. unfold binary_labels. simpl.
    split; repeat constructor; lia.
  - lia.
  - exact Hrun.
  - apply list_elem_of_singleton. reflexivity.
Defined.

(** ** numpy: [argmax] of square roots *)

(** The square root of a non-negative number is a number. *)
Lemma sqrt_nonneg (l : list Qc) :
  Forall (λ q, 0 ≤ q)%Qc l → Np.sqrt <$> l = Np.Root <$> l.
Proof.
  intros Hl. apply Forall_fmap_ext. eapply Forall_impl; [done|].
  intros q Hq. unfold Np.sqrt. rewrite bool_decide_eq_false_2; [done|].
  by apply Qcle_not_lt.
Qed.

(** [argmax_from] keeps the first maximum: [pre] is the part of the array
    already seen, with its first maximum [b] at index [bi]. *)
Lemma argmax_from_spec (pre l : list Qc) (bi : nat) (b : Qc) :
  pre !! bi = Some b →
  (∀ j q, pre !! j = Some q → (q ≤ b)%Qc) →
  (∀ j q, (j < bi)%nat → pre !! j = Some q → (q < b)%Qc) →
  ∃ q, (pre ++ l) !!
         Np.argmax_from bi (Np.Root b) (length pre) (Np.Root <$> l) = Some q ∧
       (∀ j q', (pre ++ l) !! j = Some q' → (q' ≤ q)%Qc) ∧
       (∀ j q', (j < Np.argmax_from bi (Np.Root b) (length pre)
                        (Np.Root <$> l))%nat →
                (pre ++ l) !! j = Some q' → (q' < q)%Qc).
Proof.
  revert pre bi b. induction l as [|x l IH]; intros pre bi b Hbi Hle Hlt.
  - simpl. rewrite app_nil_r. eauto.
  - rewrite fmap_cons. cbn [Np.argmax_from Np.beats].
    replace (S (length pre)) with (length (pre ++ [x]))
      by (rewrite length_app; simpl; lia).
    rewrite (cons_middle x pre l), app_assoc.
    case_bool_decide as Hbx.
    + apply IH.
      * by rewrite lookup_app_r, Nat.sub_diag by lia.
      * intros j q [Hj|[_ Hj]]%lookup_app_Some.
        -- apply Qclt_le_weak. eapply Qcle_lt_trans; [by eapply Hle|done].
        -- apply list_lookup_singleton_Some in Hj as [_ ->]. done.
      * intros j q Hjlt Hj. rewrite lookup_app_l in Hj by done.
        eapply Qcle_lt_trans; [by eapply Hle|done].
    + apply Qcnot_lt_le in Hbx. apply IH.
      * rewrite lookup_app_l; [done|]. by eapply lookup_lt_Some.
      * intros j q [Hj|[_ Hj]]%lookup_app_Some; [by eapply Hle|].
        apply list_lookup_singleton_Some in Hj as [_ ->]. done.
      * intros j q Hjlt Hj. apply (Hlt j q Hjlt).
        rewrite lookup_app_l in Hj; [done|].
        apply lookup_lt_Some in Hbi. lia.
Qed.

(** [np.argmax] of the square roots of non-negative numbers: the first
    index at which the largest radicand stands. *)
Lemma argmax_sqrt_spec (a : list Qc) (i : nat) :
  Forall (λ q, 0 ≤ q)%Qc a →
  Np.argmax (Np.sqrt <$> a) = Ok i →
  ∃ q, a !! i = Some q ∧
       (∀ j q', a !! j = Some q' → (q' ≤ q)%Qc) ∧
       (∀ j q', (j < i)%nat → a !! j = Some q' → (q' < q)%Qc).
Proof.
  intros Ha. rewrite (sqrt_nonneg _ Ha).
  destruct a as [|x a]; [done|]. simpl. intros [= <-].
  apply (argmax_from_spec [x] a 0 x).
  - done.
  - intros j q Hj. apply list_lookup_singleton_Some in Hj as [_ ->]. done.
  - intros j q Hj. lia.
Qed.

Lemma argmax_sqrt_total (a : list Qc) :
  a ≠ [] → ∃ i, Np.argmax (Np.sqrt <$> a) = Ok i.
Proof. destruct a; [done|]. simpl. eauto. Qed.

(** ** scikit-learn: the shape of the precision-recall curve *)

Lemma Qcdiv_nonneg (a b : Qc) : (0 ≤ a → 0 ≤ b → 0 ≤ a / b)%Qc.
Proof.
  intros Ha Hb. unfold Qcdiv. apply Qcmult_nonneg_nonneg; [done|].
  apply Qcle_lt_or_eq in Hb as [Hb|<-].
  - apply Qclt_le_weak. by apply Qcinv_pos.
  - by apply (bool_decide_unpack _).
Qed.

Lemma Qc_of_Z_nonneg (z : Z) : 0 ≤ z → (0 ≤ Qc_of_Z z)%Qc.
Proof. intros Hz%Z2Qc_inj_le. by rewrite Z2Qc_inj_0 in Hz. Qed.

Lemma cum_counts_cons tp fp y s l :
  Sk.cum_counts tp fp ((y, s) :: l) =
  let tp' := if y then tp + 1 else tp in
  let fp' := if y then fp else fp + 1 in
  match l with
  | [] => [(fp', tp', s)]
  | (_, s') :: _ =>
      if decide (s = s') then Sk.cum_counts tp' fp' l
      else (fp', tp', s) :: Sk.cum_counts tp' fp' l
  end.
Proof. done. Qed.

Lemma cum_counts_nonneg tp fp l :
  0 ≤ tp → 0 ≤ fp →
  Forall (λ pt, 0 ≤ pt.1.2 ∧ 0 ≤ pt.1.1) (Sk.cum_counts tp fp l).
Proof.
  revert tp fp. induction l as [|[y s] l IH]; intros tp fp Htp Hfp.
  { constructor. }
  rewrite cum_counts_cons. cbv zeta.
  assert (0 ≤ (if y then tp + 1 else tp)) by (destruct y; lia).
  assert (0 ≤ (if y then fp else fp + 1)) by (destruct y; lia).
  destruct l as [|[y' s'] l'].
  - by repeat constructor.
  - case_decide; [by apply IH|]. constructor; [done|by apply IH].
Qed.

Lemma cum_counts_nonempty tp fp l : l ≠ [] → Sk.cum_counts tp fp l ≠ [].
Proof.
  revert tp fp. induction l as [|[y s] l IH]; intros tp fp Hl; [done|].
  rewrite cum_counts_cons. cbv zeta. destruct l as [|[y' s'] l']; [done|].
  case_decide; [by apply IH|done].
Qed.

Lemma binary_clf_curve_Ok y_true y_score pts :
  Sk.binary_clf_curve y_true y_score = Ok pts →
  pts ≠ [] ∧ Forall (λ pt, 0 ≤ pt.1.2 ∧ 0 ≤ pt.1.1) pts.
Proof.
  unfold Sk.binary_clf_curve.
  destruct (Sk.binary_target y_true) eqn:Hbin; [|done]. simpl.
  case_bool_decide as Hlen; [|done]. simpl. intros [= <-]. split.
  - apply cum_counts_nonempty. intros Hnil.
    apply (f_equal length) in Hnil. unfold Sk.desc_score in Hnil.
    rewrite length_reverse, (sort_by_perm _ _) in Hnil.
    rewrite length_zip_with, length_fmap, <-Hlen, Nat.min_id in Hnil.
    apply andb_true_iff in Hbin as [Hne%bool_decide_eq_true _].
    by destruct y_true.
  - by apply cum_counts_nonneg.
Qed.

Lemma binary_clf_curve_Raise y_true y_score e :
  Sk.binary_clf_curve y_true y_score = Raise e → e = ValueError.
Proof.
  unfold Sk.binary_clf_curve.
  destruct (Sk.binary_target y_true); simpl; [|by intros [= <-]].
  case_bool_decide; simpl; [done|by intros [= <-]].
Qed.

(** The arrays that [precision_recall_curve] returns: one point per
    threshold, all non-negative, followed by the point (1, 0); there is at
    least one threshold. *)
Lemma precision_recall_curve_shape y_true y_score precision recall thresholds :
  Sk.precision_recall_curve y_true y_score =
    Ok (precision, recall, thresholds) →
  ∃ ps rs, precision = ps ++ [1%Qc] ∧ recall = rs ++ [0%Qc] ∧
           length ps = length thresholds ∧ length rs = length thresholds ∧
           thresholds ≠ [] ∧
           Forall (λ q, 0 ≤ q)%Qc ps ∧ Forall (λ q, 0 ≤ q)%Qc rs.
Proof.
  unfold Sk.precision_recall_curve. intros H.
  apply bind_Ok in H as (pts & Hpts & H). injection H as <- <- <-.
  apply binary_clf_curve_Ok in Hpts as [Hne Hpos].
  eexists _, _. split_and!; try reflexivity.
  - by rewrite !length_reverse, !length_fmap.
  - by rewrite !length_reverse, !length_fmap.
  - intros Hnil. apply (f_equal length) in Hnil.
    rewrite length_reverse, length_fmap in Hnil. by destruct pts.
  - rewrite Forall_reverse, Forall_fmap. eapply Forall_impl; [done|].
    intros [[fp tp] s] [? ?]; simpl in *.
    apply Qcdiv_nonneg; apply Qc_of_Z_nonneg; lia.
  - rewrite Forall_reverse, Forall_fmap.
    assert (0 ≤ default 0 (last pts.*1.*2)) as Hlast.
    { destruct (last pts.*1.*2) as [z|] eqn:Hz; [|done]. simpl.
      apply last_Some_elem_of in Hz.
      apply list_elem_of_fmap in Hz as (? & -> & Hz).
      apply list_elem_of_fmap in Hz as (pt & -> & Hz).
      rewrite Forall_forall in Hpos. by apply Hpos. }
    eapply Forall_impl; [done|].
    intros [[fp tp] s] [? ?]; simpl in *. case_bool_decide; [done|].
    apply Qcdiv_nonneg; by apply Qc_of_Z_nonneg.
Qed.

Lemma precision_recall_curve_Raise y_true y_score e :
  Sk.precision_recall_curve y_true y_score = Raise e → e = ValueError.
Proof.
  unfold Sk.precision_recall_curve.
  destruct (Sk.binary_clf_curve y_true y_score) eqn:Hc; [done|].
  simpl. intros [= <-]. by eapply binary_clf_curve_Raise.
Qed.

Lemma auc_Raise x y e : Sk.auc x y = Raise e → e = ValueError.
Proof.
  unfold Sk.auc. repeat case_match; by intros [= <-].
Qed.

(** ** Precision-Recall Analyzer: the operating point *)

(** The products [precision * recall] of a curve, and the index that
    [np.argmax] picks among their square roots. *)
Lemma operating_point precision recall thresholds y_true y_score :
  Sk.precision_recall_curve y_true y_score =
    Ok (precision, recall, thresholds) →
  length precision = S (length thresholds) ∧
  length recall = S (length thresholds) ∧
  Np.mul precision recall = Ok (zip_with Qcmult precision recall) ∧
  Forall (λ q, 0 ≤ q)%Qc (zip_with Qcmult precision recall) ∧
  ∃ i, Np.argmax (Np.sqrt <$> zip_with Qcmult precision recall) = Ok i ∧
       (i < length thresholds)%nat.
Proof.
  intros (ps & rs & -> & -> & Hps & Hrs & Hth & Hpos_p & Hpos_r)
    %precision_recall_curve_shape.
  assert (Forall (λ q, 0 ≤ q)%Qc (zip_with Qcmult ps rs)) as Hprod.
  { apply Forall_lookup. intros j q Hj.
    apply lookup_zip_with_Some in Hj as (p & r & -> & Hp & Hr).
    rewrite Forall_lookup in Hpos_p, Hpos_r.
    apply Qcmult_nonneg_nonneg; eauto. }
  assert (zip_with Qcmult (ps ++ [1%Qc]) (rs ++ [0%Qc]) =
          zip_with Qcmult ps rs ++ [0%Qc]) as Hzip.
  { rewrite zip_with_app by congruence. simpl. by rewrite Qcmult_0_r. }
  split_and!.
  - rewrite length_app. simpl. lia.
  - rewrite length_app. simpl. lia.
  - unfold Np.mul. rewrite bool_decide_eq_true_2; [done|].
    rewrite !length_app. simpl. lia.
  - rewrite Hzip. apply Forall_app. split; [done|]. by apply Forall_singleton.
  - rewrite Hzip.
    assert (Forall (λ q, 0 ≤ q)%Qc (zip_with Qcmult ps rs ++ [0%Qc])) as Hall.
    { apply Forall_app. split; [done|]. by apply Forall_singleton. }
    destruct (argmax_sqrt_total (zip_with Qcmult ps rs ++ [0%Qc])) as [i Hi].
    { by destruct (zip_with Qcmult ps rs). }
    exists i. split; [done|].
    destruct (argmax_sqrt_spec _ _ Hall Hi) as (q & Hq & _ & Hfirst).
    assert (length (zip_with Qcmult ps rs) = length thresholds) as Hlen.
    { rewrite length_zip_with. lia. }
    destruct (decide (i < length thresholds)%nat) as [|Hge]; [done|exfalso].
    pose proof (lookup_lt_Some _ _ _ Hq) as Hi_lt.
    rewrite length_app in Hi_lt. simpl in Hi_lt.
    assert (i = length (zip_with Qcmult ps rs)) as -> by lia.
    rewrite list_lookup_middle in Hq by done. injection Hq as <-.
    destruct (zip_with Qcmult ps rs) as [|q0 qs] eqn:Hqs.
    { simpl in Hlen. by destruct thresholds. }
    assert (q0 < 0)%Qc as Hneg.
    { apply (Hfirst 0%nat); [simpl; lia|done]. }
    apply Forall_cons in Hprod as [Hq0 _].
    by apply Qcle_not_lt in Hq0.
Qed.

Lemma plot_Ok_inv d out :
  plot_combined_precision_recall_curve d = Ok out →
  ∃ thresholds,
    Sk.precision_recall_curve (pool_scores d ([], [])).1
      (pool_scores d ([], [])).2 =
      Ok (precision out, recall out, thresholds) ∧
    Sk.auc (recall out) (precision out) = Ok (pr_auc out) ∧
    Np.argmax (Np.sqrt <$> zip_with Qcmult (precision out) (recall out)) =
      Ok (optimal_idx out) ∧
    thresholds !! optimal_idx out = Some (optimal_threshold out) ∧
    recall out !! optimal_idx out = Some (optimal_point out).1 ∧
    precision out !! optimal_idx out = Some (optimal_point out).2.
Proof.
  unfold plot_combined_precision_recall_curve.
  destruct (pool_scores d ([], [])) as [y_true y_score]. simpl.
  intros H. apply bind_Ok in H as ([[precision recall] thresholds] & Hc & H).
  apply bind_Ok in H as (area & Harea & H).
  apply bind_Ok in H as (products & Hprod & H).
  apply bind_Ok in H as (i & Hi & H).
  apply bind_Ok in H as (th & Hth%index_Ok & H).
  apply bind_Ok in H as (r & Hr%index_Ok & H).
  apply bind_Ok in H as (p & Hp%index_Ok & H).
  injection H as <-. simpl.
  destruct (operating_point _ _ _ _ _ Hc) as (_ & _ & Hmul & _).
  rewrite Hmul in Hprod. injection Hprod as <-.
  exists thresholds. by split_and!.
Qed.

Lemma plot_Raise d e :
  plot_combined_precision_recall_curve d = Raise e → e = ValueError.
Proof.
  unfold plot_combined_precision_recall_curve.
  destruct (pool_scores d ([], [])) as [y_true y_score].
  destruct (Sk.precision_recall_curve y_true y_score)
    as [[[precision recall] thresholds]|e'] eqn:Hc; simpl.
  2: { intros [= <-]. by eapply precision_recall_curve_Raise. }
  destruct (operating_point _ _ _ _ _ Hc)
    as (Hlp & Hlr & Hmul & _ & i & Hi & Hlt).
  destruct (Sk.auc recall precision) as [area|e'] eqn:Harea; simpl.
  2: { intros [= <-]. by eapply auc_Raise. }
  rewrite Hmul. simpl. rewrite Hi. simpl.
  unfold Py.index.
  destruct (lookup_lt_is_Some_2 thresholds i) as [th ->]; [done|].
  destruct (lookup_lt_is_Some_2 recall i) as [r ->]; [lia|].
  destruct (lookup_lt_is_Some_2 precision i) as [p ->]; [lia|].
  done.
Qed.

(** *** The analyzer returns on every binary, aligned input *)

Lemma cum_counts_mono tp fp l :
  StronglySorted (λ a b, a.1.2 ≤ b.1.2) (Sk.cum_counts tp fp l) ∧
  Forall (λ pt, tp ≤ pt.1.2) (Sk.cum_counts tp fp l).
Proof.
  revert tp fp. induction l as [|[y s] l IH]; intros tp fp.
  { split; constructor. }
  rewrite cum_counts_cons. cbv zeta.
  destruct (IH (if y then tp + 1 else tp) (if y then fp else fp + 1))
    as [Hs Hall].
  assert (tp ≤ (if y then tp + 1 else tp)) as Htp by (destruct y; lia).
  assert (Forall (λ pt, tp ≤ pt.1.2)
            (Sk.cum_counts (if y then tp + 1 else tp)
               (if y then fp else fp + 1) l)) as Hall'.
  { eapply Forall_impl; [exact Hall|]. intros pt ?. simpl in *. lia. }
  destruct l as [|[y' s'] l'].
  - split; repeat constructor. simpl. done.
  - case_decide; [done|]. split; constructor; done.
Qed.

Lemma TlRel_Forall {A} (R : relation A) (a : A) (l : list A) :
  Forall (λ b, R b a) l → TlRel R a l.
Proof.
  intros Hl. induction l as [|x l _] using rev_ind; [constructor|].
  apply Forall_app in Hl as [_ Hx]. rewrite Forall_singleton in Hx.
  by constructor.
Qed.

Lemma diff_nonpos (x : list Qc) :
  StronglySorted (λ a b, b ≤ a)%Qc x → Forall (λ d, d ≤ 0)%Qc (Sk.diff x).
Proof.
  induction 1 as [|a x Hs IH Ha]; [constructor|].
  destruct x as [|b x]; [constructor|]. simpl. constructor; [|done].
  apply Forall_cons in Ha as [Hba _].
  apply (Qcplus_le_mono_r _ _ (- a)) in Hba.
  by rewrite Qcplus_opp_r in Hba.
Qed.

Lemma forallb_Forall {A} (f : A → bool) (l : list A) :
  Forall (λ a, f a = true) l → forallb f l = true.
Proof. induction 1 as [|a l Ha _ IH]; simpl; [done|]. by rewrite Ha, IH. Qed.

(** [auc] accepts every non-increasing [x] of at least two points. *)
Lemma auc_Ok (x y : list Qc) :
  length x = length y → (2 ≤ length x)%nat →
  StronglySorted (λ a b, b ≤ a)%Qc x →
  ∃ area, Sk.auc x y = Ok area.
Proof.
  intros Hlen Htwo Hs. unfold Sk.auc.
  rewrite (bool_decide_eq_true_2 _ Hlen). simpl.
  rewrite bool_decide_eq_false_2 by lia.
  rewrite forallb_Forall.
  - destruct (existsb _ _); eauto.
  - eapply Forall_impl; [by apply diff_nonpos|].
    intros d Hd. by apply bool_decide_eq_true.
Qed.

Lemma binary_clf_curve_mono y_true y_score pts :
  Sk.binary_clf_curve y_true y_score = Ok pts →
  StronglySorted (λ a b, a.1.2 ≤ b.1.2) pts.
Proof.
  unfold Sk.binary_clf_curve.
  destruct (Sk.binary_target y_true); [|done]. simpl.
  case_bool_decide; [|done]. simpl. intros [= <-].
  apply cum_counts_mono.
Qed.

(** Recall falls along the arrays that [precision_recall_curve] returns. *)
Lemma recall_non_increasing y_true y_score precision recall thresholds :
  Sk.precision_recall_curve y_true y_score =
    Ok (precision, recall, thresholds) →
  StronglySorted (λ a b, b ≤ a)%Qc recall.
Proof.
  intros Hc.
  destruct (precision_recall_curve_shape _ _ _ _ _ Hc)
    as (ps & rs & _ & Hrs & _ & _ & _ & _ & Hpos).
  revert Hc. unfold Sk.precision_recall_curve. intros H.
  apply bind_Ok in H as (pts & Hpts & H). injection H as _ <- _.
  apply app_inj_tail in Hrs as [<- _].
  pose proof (binary_clf_curve_mono _ _ _ Hpts) as Hmono.
  apply binary_clf_curve_Ok in Hpts as [_ Hnn].
  apply Sorted_StronglySorted.
  { intros a b c ??. by etrans. }
  apply Sorted_snoc;
    [|apply (TlRel_Forall (λ a b : Qc, (b ≤ a)%Qc)); exact Hpos].
  apply (Sorted_reverse (λ a b : Qc, a ≤ b)%Qc).
  eapply Sorted_fmap; [|apply StronglySorted_Sorted; exact Hmono].
  intros [[fp tp] s] [[fp' tp'] s'] Hle; simpl in *.
  case_bool_decide as Hlast; [done|].
  apply Z2Qc_inj_le in Hle.
  apply Qcmult_le_mono_nonneg_r; [|exact Hle].
  assert (0 ≤ Qc_of_Z (default 0%Z (last pts.*1.*2)))%Qc as Hge.
  { apply Qc_of_Z_nonneg.
    destruct (last pts.*1.*2) as [z|] eqn:Hz; [|done]. simpl.
    apply last_Some_elem_of in Hz.
    apply list_elem_of_fmap in Hz as (? & -> & Hz).
    apply list_elem_of_fmap in Hz as (pt & -> & Hz).
    rewrite Forall_forall in Hnn. by apply Hnn. }
  apply Qcle_lt_or_eq in Hge as [Hgt|Heq].
  - apply Qclt_le_weak. by apply Qcinv_pos.
  - rewrite <-Heq. by apply (bool_decide_unpack _).
Qed.

(** The analyzer draws its plot whenever the pooled labels are binary with
    the positive class 1 and there are as many scores as labels. *)
Lemma plot_total (d : list (string * prediction)) :
  Sk.binary_target (pool_scores d ([], [])).1 = true →
  length (pool_scores d ([], [])).1 = length (pool_scores d ([], [])).2 →
  ∃ out, plot_combined_precision_recall_curve d = Ok out.
Proof.
  intros Hbin Hlen.
  destruct (plot_combined_precision_recall_curve d) as [out|e] eqn:Hrun;
    [by eauto|exfalso].
  revert Hrun. unfold plot_combined_precision_recall_curve.
  destruct (pool_scores d ([], [])) as [y_true y_score]. simpl in *.
  destruct (Sk.precision_recall_curve y_true y_score)
    as [[[precision recall] thresholds]|e'] eqn:Hc; simpl.
  2: { revert Hc. unfold Sk.precision_recall_curve, Sk.binary_clf_curve.
       rewrite Hbin, (bool_decide_eq_true_2 _ Hlen). done. }
  destruct (operating_point _ _ _ _ _ Hc)
    as (Hlp & Hlr & Hmul & _ & i & Hi & Hlt).
  destruct (auc_Ok recall precision) as [area ->];
    [lia|lia|by eapply recall_non_increasing|]. simpl.
  rewrite Hmul. simpl. rewrite Hi. simpl. unfold Py.index.
  destruct (lookup_lt_is_Some_2 thresholds i) as [th ->]; [done|].
  destruct (lookup_lt_is_Some_2 recall i) as [r ->]; [lia|].
  destruct (lookup_lt_is_Some_2 precision i) as [p ->]; [lia|].
  done.
Qed.


(** ** Precision-Recall Analyzer: the operating point in double precision *)








(** Two points with the same product of precision and recall over the
    rationals, one third: the exact embedding marks the first of them, the
    doubles of the products differ in the last place and the program marks
    the second. *)
Lemma tie_decided_by_rounding :
  (∃ out, plot_combined_precision_recall_curve rounding_tie_results = Ok out ∧
          optimal_idx out = 0%nat) ∧
  (∃ out, Float64.operating_point rounding_tie_results = Ok out ∧
          Float64.optimal_idx out = 1%nat).
Proof.
  split.
  - destruct (plot_combined_precision_recall_curve rounding_tie_results)
      as [out|] eqn:Hrun; [|by vm_compute in Hrun].
    exists out. split; [done|].
    apply (f_equal (λ x, match x with
                         | Ok o => Some (optimal_idx o)
                         | Raise _ => None
                         end)) in Hrun.
    vm_compute in Hrun. injection Hrun as Hrun. exact (eq_sym Hrun).
  - destruct (Float64.operating_point rounding_tie_results)
      as [out|] eqn:Hrun; [|by vm_compute in Hrun].
    exists out. split; [done|].
    apply (f_equal (λ x, match x with
                         | Ok o => Some (Float64.optimal_idx o)
                         | Raise _ => None
                         end)) in Hrun.
    vm_compute in Hrun. injection Hrun as Hrun. exact (eq_sym Hrun).
Qed.

(** ** Precision-Recall Analyzer: the curve depends on the samples only *)

Lemma run_ends_cons s s' scores :
  run_ends (s :: s' :: scores) =
  if decide (s = s') then run_ends (s' :: scores)
  else s :: run_ends (s' :: scores).
Proof. done. Qed.

Lemma elem_of_run_ends t scores : t ∈ run_ends scores → t ∈ scores.
Proof.
  induction scores as [|s scores IH]; [done|]. simpl.
  destruct scores as [|s' scores']; [done|].
  case_decide.
  - intros ?. right. by apply IH.
  - intros [->|?]%elem_of_cons; [by left|right; by apply IH].
Qed.

Lemma count_cons_ge t y s l :
  (t ≤ s)%Qc →
  count_pos t ((y, s) :: l) = (if y then 1 else 0) + count_pos t l ∧
  count_neg t ((y, s) :: l) = (if y then 0 else 1) + count_neg t l.
Proof.
  intros Hts. unfold count_pos, count_neg. rewrite !filter_cons. simpl.
  destruct y.
  - rewrite decide_True by done. rewrite decide_False by (by intros [? _]).
    simpl. lia.
  - rewrite decide_False by (by intros [? _]). rewrite decide_True by done.
    simpl. lia.
Qed.

Lemma filter_none {A} (P : A → Prop) `{∀ x, Decision (P x)} (l : list A) :
  Forall (λ a, ¬ P a) l → filter P l = [].
Proof.
  induction 1 as [|a l Ha _ IH]; [done|]. by rewrite filter_cons_False.
Qed.

Lemma count_below t l :
  Forall (λ a, a.2 < t)%Qc l → count_pos t l = 0 ∧ count_neg t l = 0.
Proof.
  intros Hl. unfold count_pos, count_neg.
  rewrite !filter_none; [done|..];
    (eapply Forall_impl; [done|]); intros a Ha [_ Hle];
    by apply Qcle_not_lt in Hle.
Qed.

Lemma count_perm t l l' :
  l ≡ₚ l' → count_pos t l = count_pos t l' ∧ count_neg t l = count_neg t l'.
Proof. intros Hl. unfold count_pos, count_neg. by rewrite Hl. Qed.

(** On samples in decreasing order of score, [cum_counts] gives for every
    distinct score the numbers of negative and of positive samples that
    reach it. *)
Lemma cum_counts_spec tp fp l :
  StronglySorted (λ a b, b.2 ≤ a.2)%Qc l →
  Sk.cum_counts tp fp l =
  (λ t, (fp + count_neg t l, tp + count_pos t l, t)) <$> run_ends l.*2.
Proof.
  intros Hs. revert tp fp.
  induction Hs as [|[y s] l Hs IH Hall]; intros tp fp; [done|].
  rewrite cum_counts_cons. cbv zeta.
  assert (∀ t, t ∈ run_ends l.*2 →
    ((if y then fp else fp + 1) + count_neg t l,
     (if y then tp + 1 else tp) + count_pos t l, t) =
    (fp + count_neg t ((y, s) :: l), tp + count_pos t ((y, s) :: l), t))
    as Hrest.
  { intros t Ht%elem_of_run_ends.
    apply list_elem_of_fmap in Ht as (b & -> & Hb).
    rewrite Forall_forall in Hall. specialize (Hall b Hb). simpl in Hall.
    destruct (count_cons_ge b.2 y s l Hall) as [-> ->].
    destruct y; f_equal; f_equal; lia. }
  assert ((λ t, ((if y then fp else fp + 1) + count_neg t l,
                 (if y then tp + 1 else tp) + count_pos t l, t))
            <$> run_ends l.*2 =
          (λ t, (fp + count_neg t ((y, s) :: l),
                 tp + count_pos t ((y, s) :: l), t)) <$> run_ends l.*2)
    as Hmap.
  { apply Forall_fmap_ext, Forall_forall. intros t Ht. by apply Hrest. }
  destruct l as [|[y' s'] l'].
  - simpl.
    destruct (count_cons_ge s y s [] (Qcle_refl s)) as [-> ->].
    destruct y; repeat f_equal; unfold count_pos, count_neg; simpl; lia.
  - rewrite IH, Hmap.
    change (((y, s) :: (y', s') :: l').*2) with (s :: s' :: l'.*2).
    change (((y', s') :: l').*2) with (s' :: l'.*2).
    rewrite run_ends_cons. case_decide as Hss'; [done|].
    rewrite fmap_cons. f_equal.
    destruct (count_cons_ge s y s ((y', s') :: l') (Qcle_refl s)) as [-> ->].
    destruct (count_below s ((y', s') :: l')) as [-> ->];
      [|destruct y; repeat f_equal; lia].
    apply Forall_cons in Hall as [Hs' Hall]. simpl in Hs'.
    assert (s' < s)%Qc as Hlt.
    { apply Qcle_lt_or_eq in Hs' as [?|?]; [done|congruence]. }
    constructor; [done|].
    apply StronglySorted_inv in Hs as [_ Hl''].
    eapply Forall_impl; [exact Hl''|].
    intros a Ha. simpl in Ha. by eapply Qcle_lt_trans.
Qed.

Lemma desc_score_perm samples : Sk.desc_score samples ≡ₚ samples.
Proof.
  unfold Sk.desc_score. by rewrite reverse_Permutation, sort_by_perm.
Qed.

Lemma desc_score_sorted samples :
  StronglySorted (λ a b, b.2 ≤ a.2)%Qc (Sk.desc_score samples).
Proof.
  apply Sorted_StronglySorted.
  { intros a b c ??. by etrans. }
  unfold Sk.desc_score.
  apply (Sorted_reverse (λ a b : bool * Qc, a.2 ≤ b.2)%Qc).
  eapply Sorted_mono; [|apply sort_by_Sorted].
  - intros a b Hab. by apply bool_decide_eq_true in Hab.
  - intros a b Hab. apply bool_decide_eq_false, Qcnot_le_lt in Hab.
    apply bool_decide_eq_true. by apply Qclt_le_weak.
Qed.

(** The cumulative counts are the same for every order of the samples. *)
Lemma cum_counts_perm samples samples' :
  samples ≡ₚ samples' →
  Sk.cum_counts 0 0 (Sk.desc_score samples) =
  Sk.cum_counts 0 0 (Sk.desc_score samples').
Proof.
  intros Hperm.
  assert (Sk.desc_score samples ≡ₚ Sk.desc_score samples') as Hd.
  { by rewrite !desc_score_perm. }
  rewrite !cum_counts_spec by apply desc_score_sorted.
  assert ((Sk.desc_score samples).*2 = (Sk.desc_score samples').*2) as ->.
  { apply (StronglySorted_unique_strong (λ a b : Qc, b ≤ a)%Qc).
    - intros x1 x2 _ _ ??. by apply Qcle_antisym.
    - eapply StronglySorted_fmap; [|apply desc_score_sorted]. done.
    - eapply StronglySorted_fmap; [|apply desc_score_sorted]. done.
    - by rewrite Hd. }
  apply Forall_fmap_ext, Forall_forall. intros t _.
  by destruct (count_perm t _ _ Hd) as [-> ->].
Qed.

Lemma forallb_perm {A} (f : A → bool) l l' :
  l ≡ₚ l' → forallb f l = forallb f l'.
Proof.
  induction 1 as [|x l l' _ IH|x y l|l l' l'' _ IH1 _ IH2]; simpl.
  - done.
  - by rewrite IH.
  - by destruct (f x), (f y).
  - by rewrite IH1.
Qed.

Lemma binary_target_perm y y' :
  y ≡ₚ y' → Sk.binary_target y = Sk.binary_target y'.
Proof.
  intros Hperm. unfold Sk.binary_target.
  rewrite !(forallb_perm _ _ _ Hperm). f_equal.
  apply bool_decide_ext. split; intros Hne ->.
  - by apply Permutation_nil_r in Hperm.
  - by apply Permutation_nil_l in Hperm.
Qed.

Lemma pool_scores_concat items total :
  pool_scores items total =
  (total.1 ++ concat (true_labels <$> items.*2),
   total.2 ++ concat ((λ m, snd <$> pred_probs m) <$> items.*2)).
Proof.
  revert total. induction items as [|[lang m] items IH]; intros total.
  - simpl. rewrite !app_nil_r. by destruct total.
  - simpl. rewrite IH. simpl. by rewrite !app_assoc.
Qed.

(** With aligned entries the pooled arrays pair every label with the
    probability of its own row. *)
Lemma pooled_samples (ms : list prediction) :
  Forall aligned ms →
  zip ((λ y, bool_decide (y = 1)) <$> concat (true_labels <$> ms))
      (concat ((λ m, snd <$> pred_probs m) <$> ms)) =
  ms ≫= samples_of.
Proof.
  induction 1 as [|m ms Hm _ IH]; [done|].
  rewrite !fmap_cons, !concat_cons, fmap_app, bind_cons.
  etrans; [apply zip_with_app; rewrite !length_fmap; exact Hm|].
  unfold samples_of at 1. f_equal. exact IH.
Qed.

Lemma binary_clf_curve_perm (ms ms' : list prediction) :
  ms ≡ₚ ms' → Forall aligned ms →
  Sk.binary_clf_curve (concat (true_labels <$> ms))
    (concat ((λ m, snd <$> pred_probs m) <$> ms)) =
  Sk.binary_clf_curve (concat (true_labels <$> ms'))
    (concat ((λ m, snd <$> pred_probs m) <$> ms')).
Proof.
  intros Hperm Hal.
  assert (Forall aligned ms') as Hal' by (by rewrite <-Hperm).
  unfold Sk.binary_clf_curve.
  rewrite !pooled_samples by done.
  assert (concat (true_labels <$> ms) ≡ₚ concat (true_labels <$> ms')) as Ht.
  { by rewrite Hperm. }
  assert (concat ((λ m, snd <$> pred_probs m) <$> ms) ≡ₚ
          concat ((λ m, snd <$> pred_probs m) <$> ms')) as Hs.
  { by rewrite Hperm. }
  rewrite (binary_target_perm _ _ Ht).
  rewrite (bool_decide_ext _
    (length (concat (true_labels <$> ms')) =
     length (concat ((λ m, snd <$> pred_probs m) <$> ms'))))
    by (by rewrite Ht, Hs).
  rewrite (cum_counts_perm (ms ≫= samples_of) (ms' ≫= samples_of))
    by (by rewrite Hperm).
  done.
Qed.

Lemma plot_depends_on_curve d d' :
  Sk.binary_clf_curve (concat (true_labels <$> d.*2))
    (concat ((λ m, snd <$> pred_probs m) <$> d.*2)) =
  Sk.binary_clf_curve (concat (true_labels <$> d'.*2))
    (concat ((λ m, snd <$> pred_probs m) <$> d'.*2)) →
  plot_combined_precision_recall_curve d =
  plot_combined_precision_recall_curve d'.
Proof.
  intros Hcurve. unfold plot_combined_precision_recall_curve.
  rewrite !pool_scores_concat. simpl.
  unfold Sk.precision_recall_curve. by rewrite Hcurve.
Qed.

(** C8: the area under the precision-recall curve does not depend on the
    order in which the languages are pooled: for entries whose true labels
    and probability pairs are aligned, as the data model has them, every
    permutation of the entries gives the same outcome of
    [plot_combined_precision_recall_curve], and with it the same area. *)
Theorem pr_auc_pooling_order_invariant (d d' : list (string * prediction)) :
  d ≡ₚ d' →
  Forall aligned d.*2 →
  plot_combined_precision_recall_curve d' =
    plot_combined_precision_recall_curve d ∧
  ∀ out, plot_combined_precision_recall_curve d = Ok out →
         ∃ out', plot_combined_precision_recall_curve d' = Ok out' ∧
                 pr_auc out' = pr_auc out.
Proof.
  intros Hperm Hal.
  assert (plot_combined_precision_recall_curve d' =
          plot_combined_precision_recall_curve d) as Heq.
  { apply plot_depends_on_curve. symmetry.
    apply binary_clf_curve_perm; [by rewrite Hperm|done]. }
  split; [done|]. intros out Hout. exists out. by rewrite Heq.
Qed.

Lemma pr_auc_pooling_order_invariant_witness :
  reverse diverging_results ≡ₚ diverging_results ∧
  Forall aligned (reverse diverging_results).*2 ∧
  ∃ out out',
    plot_combined_precision_recall_curve (reverse diverging_results) = Ok out ∧
    plot_combined_precision_recall_curve diverging_results = Ok out' ∧
    pr_auc out' = pr_auc out.
Proof.
  assert (reverse diverging_results ≡ₚ diverging_results) as Hperm.
  { apply reverse_Permutation. }
  assert (Forall aligned (reverse diverging_results).*2) as Hal.
  { repeat constructor. }
  split; [exact Hperm|]. split; [exact Hal|].
  destruct (pr_auc_pooling_order_invariant _ _ Hperm Hal) as [_ Hauc].
  destruct (plot_combined_precision_recall_curve (reverse diverging_results))
    as [out|] eqn:Hrun; [|by vm_compute in Hrun].
  destruct (Hauc out eq_refl) as (out' & Hout' & Heq).
  by exists out, out'.
Defined.

(** Entries that are not aligned: the label of one language is paired with
    the probability of the other, and the area depends on the order. *)
Example misaligned_entries_depend_on_order :
  ∃ out out',
    plot_combined_precision_recall_curve
      [("en", Prediction [1; 0] [] [(Q2Qc (1 # 10), Q2Qc (9 # 10))]);
       ("es", Prediction [] [] [(Q2Qc (9 # 10), Q2Qc (1 # 10))])] = Ok out ∧
    plot_combined_precision_recall_curve
      [("es", Prediction [] [] [(Q2Qc (9 # 10), Q2Qc (1 # 10))]);
       ("en", Prediction [1; 0] [] [(Q2Qc (1 # 10), Q2Qc (9 # 10))])]
      = Ok out' ∧
    pr_auc out = 1%Qc ∧ pr_auc out' = Q2Qc (1 # 4).
Proof.
  eexists _, _. split; [by vm_compute|]. split; [by vm_compute|].
  split; by apply Qc_is_canon.
Qed.

(** ** The heap: what [show_confusion_matrix] leaves untouched *)

Module HeapFacts.
Import Heap HeapLogic.

Lemma triple_bind {A B} (P : heap → Prop) (m : M A) (k : A → M B)
    (Q : A → heap → Prop) (Q' : B → heap → Prop) (E : heap → Prop) :
  triple P m Q E → (∀ a, triple (Q a) (k a) Q' E) →
  triple P (m ≫= k) Q' E.
Proof.
  intros Hm Hk h HP. specialize (Hm h HP).
  unfold mbind, M_bind. destruct (m h) as [[a|e] h']; [|done].
  by apply Hk.
Qed.

Lemma triple_ret {A} (P : heap → Prop) (a : A) (Q : A → heap → Prop) E :
  (∀ h, P h → Q a h) → triple P (mret a) Q E.
Proof. intros HQ h HP. by apply HQ. Qed.

Lemma triple_weaken {A} (P P' : heap → Prop) (m : M A)
    (Q Q' : A → heap → Prop) (E : heap → Prop) :
  triple P' m Q' E → (∀ h, P h → P' h) → (∀ a h, Q' a h → Q a h) →
  triple P m Q E.
Proof.
  intros Hm HP HQ h Hh. specialize (Hm h (HP h Hh)).
  destruct (m h) as [[a|e] h']; [by apply HQ|done].
Qed.

Lemma triple_conseq {A} (P P' : heap → Prop) (m : M A)
    (Q Q' : A → heap → Prop) (E E' : heap → Prop) :
  triple P' m Q' E' → (∀ h, P h → P' h) → (∀ a h, Q' a h → Q a h) →
  (∀ h, E' h → E h) → triple P m Q E.
Proof.
  intros Hm HP HQ HE h Hh. specialize (Hm h (HP h Hh)).
  destruct (m h) as [[a|e] h']; [by apply HQ|by apply HE].
Qed.

Lemma triple_reads_only {A} (P : heap → Prop) (m : M A) :
  reads_only m →
  triple P m (λ a h, P h ∧ m h = (Ok a, h)) P.
Proof.
  intros Hm h HP. specialize (Hm h).
  destruct (m h) as [[a|e] h'] eqn:Hmh; simpl in Hm; by subst.
Qed.

Lemma reads_only_bind {A B} (m : M A) (k : A → M B) :
  reads_only m → (∀ a, reads_only (k a)) → reads_only (m ≫= k).
Proof.
  intros Hm Hk h. specialize (Hm h). unfold mbind, M_bind.
  destruct (m h) as [[a|e] h']; simpl in *; subst; [apply Hk|done].
Qed.

Lemma reads_only_ret {A} (a : A) : reads_only (mret a).
Proof. done. Qed.
Lemma reads_only_raise {A} e : reads_only (@raise A e).
Proof. done. Qed.
Lemma reads_only_lift {A} (r : result A) : reads_only (lift r).
Proof. done. Qed.
Lemma reads_only_read l : reads_only (read l).
Proof. intros h. unfold read. by destruct (h !! l). Qed.
Lemma reads_only_assert b msg : reads_only (Heap.assert b msg).
Proof. by destruct b. Qed.

Create HintDb reads_only.
#[local] Hint Resolve reads_only_ret reads_only_raise reads_only_lift
  reads_only_read reads_only_assert : reads_only.

Ltac solve_reads_only :=
  repeat first
    [ progress eauto with reads_only
    | apply reads_only_bind; [|intros ?]
    | match goal with |- reads_only (match ?x with _ => _ end) =>
        destruct x end ].

Lemma reads_only_dict_items v : reads_only (dict_items v).
Proof. unfold dict_items. destruct v; solve_reads_only. Qed.
Lemma reads_only_unpack v : reads_only (unpack v).
Proof. unfold unpack. destruct v; solve_reads_only. Qed.
Lemma reads_only_getitem v k : reads_only (getitem v k).
Proof. unfold getitem. destruct v; solve_reads_only. Qed.
Lemma reads_only_elements v : reads_only (elements v).
Proof. unfold elements. destruct v; solve_reads_only. Qed.
Lemma reads_only_extend_method v : reads_only (extend_method v).
Proof. unfold extend_method. destruct v; solve_reads_only. Qed.
#[local] Hint Resolve reads_only_dict_items reads_only_unpack
  reads_only_getitem reads_only_elements reads_only_extend_method
  : reads_only.
Lemma reads_only_len v : reads_only (len v).
Proof. unfold len. solve_reads_only. Qed.
#[local] Hint Resolve reads_only_len : reads_only.

Lemma reads_only_for_each {A} (l : list A) (body : A → M unit) :
  (∀ x, reads_only (body x)) → reads_only (for_each l body).
Proof. intros Hbody. induction l; simpl; solve_reads_only. Qed.

(** *** The frame: the heap [h0] of the caller *)

Section Frame.
Variable h0 : heap.

Lemma alloc_frame (P E : heap → Prop) (o : obj) :
  triple P (alloc o)
    (λ l h', ∃ h, P h ∧ h !! l = None ∧ h' = <[l:=o]> h) E.
Proof.
  intros h HP. simpl. exists h. split_and!; [done| |done].
  apply not_elem_of_dom, is_fresh.
Qed.

Lemma unused_fresh (h : heap) (l : loc) :
  h0 ⊆ h → h !! l = None → unused h0 l.
Proof.
  intros Hsub Hl. unfold unused.
  destruct (h0 !! l) as [o|] eqn:Ho; [|done].
  eapply lookup_weaken in Ho; [|done]. congruence.
Qed.

Lemma frame_insert (h : heap) (l : loc) (o : obj) :
  h0 ⊆ h → unused h0 l → h0 ⊆ <[l:=o]> h.
Proof. intros Hsub Hl. by apply insert_subseteq_r. Qed.

Lemma append_frame (I : heap → Prop) y a :
  write_stable I y → triple I (append y a) (λ _ h, I h) I.
Proof.
  intros Hst h HI. unfold append, read, write, mbind, M_bind.
  destruct (h !! y) as [[items|items]|]; simpl; [|done..].
  by apply Hst.
Qed.

Lemma setitem_frame (I : heap → Prop) y k a :
  write_stable I y → triple I (setitem y k a) (λ _ h, I h) I.
Proof.
  intros Hst h HI. unfold setitem, read, write, mbind, M_bind.
  destruct (h !! y) as [[items|items]|]; simpl; [done| |done].
  by apply Hst.
Qed.

Lemma extend_frame (I : heap → Prop) l src :
  write_stable I l → triple I (extend l src) (λ _ h, I h) I.
Proof.
  intros Hst. unfold extend.
  eapply triple_bind; [apply triple_reads_only, reads_only_elements|].
  intros new h [HI _]. unfold read, write, mbind, M_bind.
  destruct (h !! l) as [[items|items]|]; simpl; [|done..].
  by apply Hst.
Qed.

Lemma write_stable_frame l : unused h0 l → write_stable (λ h, h0 ⊆ h) l.
Proof. intros Hl h o Hsub. by apply frame_insert. Qed.

(** [deepcopy] only writes to the objects that it allocates. *)
Lemma copy_items_frame rec y items memo :
  (∀ a memo', triple (λ h, h0 ⊆ h) (rec a memo')
                (λ _ h, h0 ⊆ h) (λ h, h0 ⊆ h)) →
  unused h0 y →
  triple (λ h, h0 ⊆ h) (copy_items rec y items memo)
    (λ _ h, h0 ⊆ h) (λ h, h0 ⊆ h).
Proof.
  intros Hrec Hy. revert memo.
  induction items as [|a items IH]; intros memo; simpl.
  { by apply triple_ret. }
  eapply triple_bind; [apply Hrec|]. intros [a' memo'].
  eapply triple_bind; [by apply append_frame, write_stable_frame|].
  intros []. apply IH.
Qed.

Lemma copy_entries_frame rec y items memo :
  (∀ a memo', triple (λ h, h0 ⊆ h) (rec a memo')
                (λ _ h, h0 ⊆ h) (λ h, h0 ⊆ h)) →
  unused h0 y →
  triple (λ h, h0 ⊆ h) (copy_entries rec y items memo)
    (λ _ h, h0 ⊆ h) (λ h, h0 ⊆ h).
Proof.
  intros Hrec Hy. revert memo.
  induction items as [|[k a] items IH]; intros memo; simpl.
  { by apply triple_ret. }
  eapply triple_bind; [apply Hrec|]. intros [a' memo'].
  eapply triple_bind; [by apply setitem_frame, write_stable_frame|].
  intros []. apply IH.
Qed.

Lemma triple_pure {A} (φ : Prop) (P : heap → Prop) (m : M A) Q E :
  (φ → triple P m Q E) → triple (λ h, P h ∧ φ) m Q E.
Proof. intros Hm h [HP Hφ]. by apply Hm. Qed.

Lemma alloc_unused (o : obj) :
  triple (λ h, h0 ⊆ h) (alloc o)
    (λ l h, (h0 ⊆ h ∧ h !! l = Some o) ∧ unused h0 l) (λ h, h0 ⊆ h).
Proof.
  eapply triple_weaken;
    [apply (alloc_frame (λ h, h0 ⊆ h) (λ h, h0 ⊆ h))|done|].
  intros l h' (h & Hsub & Hl & ->).
  assert (unused h0 l) by (by eapply unused_fresh).
  split_and!; [by apply frame_insert|by rewrite lookup_insert_eq|done].
Qed.

Lemma deepcopy_frame fuel x memo :
  triple (λ h, h0 ⊆ h) (deepcopy fuel x memo)
    (λ _ h, h0 ⊆ h) (λ h, h0 ⊆ h).
Proof.
  revert x memo. induction fuel as [|fuel IH]; intros x memo; simpl.
  { by intros h Hh. }
  destruct x as [z|q|s|l]; try by apply triple_ret.
  destruct (memo !! l) as [y|]; [by apply triple_ret|].
  eapply triple_bind; [apply triple_reads_only, reads_only_read|].
  intros [items|items].
  - eapply triple_weaken with (P' := λ h, h0 ⊆ h) (Q' := λ _ h, h0 ⊆ h);
      [|by intros h [? _]|done].
    eapply triple_bind; [apply alloc_unused|]. intros y.
    apply triple_pure. intros Hun.
    eapply triple_weaken with (P' := λ h, h0 ⊆ h) (Q' := λ _ h, h0 ⊆ h);
      [|by intros h [? _]|done].
    eapply triple_bind; [by apply copy_items_frame|].
    intros memo'. by apply triple_ret.
  - eapply triple_weaken with (P' := λ h, h0 ⊆ h) (Q' := λ _ h, h0 ⊆ h);
      [|by intros h [? _]|done].
    eapply triple_bind; [apply alloc_unused|]. intros y.
    apply triple_pure. intros Hun.
    eapply triple_weaken with (P' := λ h, h0 ⊆ h) (Q' := λ _ h, h0 ⊆ h);
      [|by intros h [? _]|done].
    eapply triple_bind; [by apply copy_entries_frame|].
    intros memo'. by apply triple_ret.
Qed.


Lemma for_each_frame {A} (I : heap → Prop) (l : list A)
    (body : A → M unit) :
  (∀ x, triple I (body x) (λ _ h, I h) I) →
  triple I (for_each l body) (λ _ h, I h) I.
Proof.
  intros Hbody. induction l as [|x l IH]; simpl.
  { by apply triple_ret. }
  eapply triple_bind; [apply Hbody|]. intros []. apply IH.
Qed.

(** A step that only reads keeps the precondition. *)
Lemma triple_read_step {A B} (P : heap → Prop) (m : M A) (k : A → M B)
    Q E :
  reads_only m → (∀ h, P h → E h) → (∀ a, triple P (k a) Q E) →
  triple P (m ≫= k) Q E.
Proof.
  intros Hm HE Hk h HP. pose proof (Hm h) as Hh.
  unfold mbind, M_bind. destruct (m h) as [[a|e] h']; simpl in Hh; subst.
  - by apply Hk.
  - by apply HE.
Qed.

Lemma pooling_write_stable tl tt tp l :
  unused h0 l → l ≠ tl → write_stable (pooling h0 tl tt tp) l.
Proof.
  intros Hl Hne h o [Hsub Htl]. split; [by apply frame_insert|].
  by rewrite lookup_insert_ne.
Qed.

Lemma triple_read_eq {A B} (P : heap → Prop) (m : M A) (k : A → M B)
    Q E :
  reads_only m → (∀ h, P h → E h) →
  (∀ a, triple (λ h, P h ∧ m h = (Ok a, h)) (k a) Q E) →
  triple P (m ≫= k) Q E.
Proof.
  intros Hm HE Hk h HP. pose proof (Hm h) as Hh.
  unfold mbind, M_bind.
  destruct (m h) as [[a|e] h'] eqn:Hmh; simpl in Hh; subst.
  - by apply Hk.
  - by apply HE.
Qed.

Lemma triple_assume {A} (φ : Prop) (P : heap → Prop) (m : M A) Q E :
  (∀ h, P h → φ) → (φ → triple P m Q E) → triple P m Q E.
Proof. intros Hφ Hm h HP. apply Hm; [by eapply Hφ|done]. Qed.

Lemma triple_pre {A} (P P' : heap → Prop) (m : M A) Q E :
  (∀ h, P h → P' h) → triple P' m Q E → triple P m Q E.
Proof. intros HP Hm. by eapply triple_weaken. Qed.

(** [total_labels[k].extend(labels[k])] for either key. *)
Lemma pooling_extend tl tt tp (k : string) (target : loc)
    (labels : value) (rest : M unit) :
  unused h0 target → target ≠ tl →
  (∀ h t, pooling h0 tl tt tp h →
          getitem (VRef tl) k h = (Ok t, h) → t = VRef target) →
  triple (pooling h0 tl tt tp) rest
    (λ _ h, pooling h0 tl tt tp h) (pooling h0 tl tt tp) →
  triple (pooling h0 tl tt tp)
    (t ← getitem (VRef tl) k;
     t ← extend_method t;
     src ← getitem labels k;
     _ ← extend t src;
     rest)
    (λ _ h, pooling h0 tl tt tp h) (pooling h0 tl tt tp).
Proof.
  intros Hun Hne Hget Hrest.
  apply triple_read_eq; [apply reads_only_getitem|done|]. intros t.
  apply (triple_assume (t = VRef target)).
  { intros h [Hp Heq]. by eapply Hget. }
  intros ->. eapply triple_pre; [by intros h [? _]|].
  apply triple_read_eq; [apply reads_only_extend_method|done|]. intros l.
  apply (triple_assume (l = target)).
  { intros h [_ Heq]. revert Heq.
    unfold extend_method, read, mbind, M_bind, mret, M_ret.
    destruct (h !! target) as [[?|?]|]; simpl; by intros [= <-]. }
  intros ->. eapply triple_pre; [by intros h [? _]|].
  apply triple_read_step; [apply reads_only_getitem|done|]. intros src.
  eapply triple_bind.
  { by apply extend_frame, pooling_write_stable. }
  intros []. exact Hrest.
Qed.

Lemma pooling_body tl tt tp (lang : string) (labels : value) :
  unused h0 tt → unused h0 tp → tt ≠ tl → tp ≠ tl →
  triple (pooling h0 tl tt tp)
    (t ← getitem (VRef tl) TRUE_LABELS;
     t ← extend_method t;
     src ← getitem labels TRUE_LABELS;
     _ ← extend t src;
     p ← getitem (VRef tl) PRED_LABELS;
     p ← extend_method p;
     src ← getitem labels PRED_LABELS;
     extend p src)
    (λ _ h, pooling h0 tl tt tp h) (pooling h0 tl tt tp).
Proof.
  intros Htt Htp Hne1 Hne2.
  apply (pooling_extend tl tt tp TRUE_LABELS tt); [done..| |].
  { intros h t [_ Htl]. unfold getitem, read, lift, mbind, M_bind.
    rewrite Htl. simpl. by intros [= <-]. }
  apply triple_read_eq; [apply reads_only_getitem|done|]. intros t.
  apply (triple_assume (t = VRef tp)).
  { intros h [[_ Htl] Heq]. revert Heq.
    unfold getitem, read, lift, mbind, M_bind.
    rewrite Htl. simpl. by intros [= <-]. }
  intros ->. eapply triple_pre; [by intros h [? _]|].
  apply triple_read_eq; [apply reads_only_extend_method|done|]. intros l.
  apply (triple_assume (l = tp)).
  { intros h [_ Heq]. revert Heq.
    unfold extend_method, read, mbind, M_bind, mret, M_ret.
    destruct (h !! tp) as [[?|?]|]; simpl; by intros [= <-]. }
  intros ->. eapply triple_pre; [by intros h [? _]|].
  apply triple_read_step; [apply reads_only_getitem|done|]. intros src.
  by apply extend_frame, pooling_write_stable.
Qed.

Lemma dict_get_set {V} (d : list (string * V)) k v :
  Py.dict_get (Py.dict_set d k v) k = Ok v.
Proof.
  induction d as [|[k' v'] d IH]; simpl.
  - by rewrite decide_True.
  - case_decide; simpl.
    + by rewrite decide_True.
    + by rewrite decide_False.
Qed.

Lemma show_confusion_matrix_triple fuel arg :
  triple (λ h, h0 ⊆ h) (Heap.show_confusion_matrix fuel arg)
    (drawn h0) (λ h, h0 ⊆ h).
Proof.
  unfold Heap.show_confusion_matrix.
  eapply triple_bind; [apply (alloc_frame (λ h, h0 ⊆ h))|]. intros tt.
  eapply triple_bind; [apply alloc_frame|]. intros tp.
  eapply triple_bind; [apply alloc_frame|]. intros tl.
  apply (triple_assume
           (unused h0 tt ∧ unused h0 tp ∧ unused h0 tl ∧ tt ≠ tl ∧ tp ≠ tl)).
  { intros h3 (h2 & (h1 & (h & Hsub & Htt & ->) & Htp & ->) & Htl & ->).
    assert (unused h0 tt) by (by eapply unused_fresh).
    assert (h0 ⊆ <[tt:=OList []]> h) by (by apply frame_insert).
    assert (unused h0 tp) by (by eapply unused_fresh).
    assert (h0 ⊆ <[tp:=OList []]> (<[tt:=OList []]> h))
      by (by apply frame_insert).
    assert (unused h0 tl) by (by eapply unused_fresh).
    split_and!; [done..| |].
    - intros ->. rewrite lookup_insert_ne in Htl.
      + by rewrite lookup_insert_eq in Htl.
      + intros ->. by rewrite lookup_insert_eq in Htp.
    - intros ->. by rewrite lookup_insert_eq in Htl. }
  intros (Hutt & Hutp & Hutl & Hne1 & Hne2).
  apply (triple_pre _ (pooling h0 tl tt tp)).
  { intros h3 (h2 & (h1 & (h & Hsub & Htt & ->) & Htp & ->) & Htl & ->).
    split; [by repeat apply frame_insert|by rewrite lookup_insert_eq]. }
  apply triple_read_step;
    [apply reads_only_dict_items|by intros h [? _]|]. intros items.
  eapply triple_bind.
  { eapply triple_conseq;
      [apply (for_each_frame (pooling h0 tl tt tp))|done|done
      |by intros h [? _]].
    intros [lang labels]. by apply pooling_body. }
  intros []. eapply triple_weaken with (Q' := drawn h0) (P' := λ h, h0 ⊆ h);
    [|by intros h [? _]|done].
  apply triple_read_step; [apply reads_only_getitem|done|]. intros t.
  apply triple_read_step; [apply reads_only_len|done|]. intros n_true.
  apply triple_read_step; [apply reads_only_getitem|done|]. intros p.
  apply triple_read_step; [apply reads_only_len|done|]. intros n_pred.
  apply triple_read_step; [apply reads_only_assert|done|]. intros _.
  eapply triple_bind; [apply deepcopy_frame|]. intros [copy memo].
  apply triple_read_step; [apply reads_only_unpack|done|]. intros copied.
  eapply triple_bind; [apply alloc_unused|]. intros merged.
  apply triple_pure. intros Hum.
  apply triple_read_step;
    [apply reads_only_len|by intros h [? _]|]. intros n.
  apply triple_read_step;
    [apply reads_only_assert|by intros h [? _]|]. intros _.
  apply triple_read_step;
    [apply reads_only_dict_items|by intros h [? _]|]. intros shown.
  apply triple_read_step; [|by intros h [? _]|].
  { apply reads_only_for_each. intros [lang values].
    repeat (apply reads_only_bind;
            [first [apply reads_only_getitem|apply reads_only_elements]
            |intros ?]).
    apply reads_only_ret. }
  intros _. apply triple_ret. intros h [Hsub Hm].
  split_and!; [done..|]. eexists _, tl. split_and!; [done| |done].
  apply dict_get_set.
Qed.

End Frame.

(** C10: [show_confusion_matrix] leaves the mapping it is given
    unchanged: whether it returns or raises, every object that was in the
    heap before the call, the dictionary of the caller, its per-language
    dictionaries and their label sequences among them, is in the heap
    after the call with the same contents; the pooled entry under
    [ALL_LANGUAGES] is added to a dictionary at a location that the
    caller's heap did not use, and it is itself a new object. *)
Theorem caller_mapping_unchanged (fuel : nat) (arg : value) (h0 : heap) :
  (∀ l o, h0 !! l = Some o →
          (Heap.show_confusion_matrix fuel arg h0).2 !! l = Some o) ∧
  (∀ merged,
     (Heap.show_confusion_matrix fuel arg h0).1 = Ok merged →
     h0 !! merged = None ∧
     ∃ kvs tl,
       (Heap.show_confusion_matrix fuel arg h0).2 !! merged
         = Some (ODict kvs) ∧
       Py.dict_get kvs ALL_LANGUAGES = Ok (VRef tl) ∧
       h0 !! tl = None).
Proof.
  pose proof (show_confusion_matrix_triple h0 fuel arg h0
                (reflexivity h0)) as H.
  destruct (Heap.show_confusion_matrix fuel arg h0) as [[merged|e] h];
    simpl.
  - destruct H as (Hsub & Hm & Hkvs). split.
    + intros l o Hl. by eapply lookup_weaken.
    + intros ? [= <-]. done.
  - split; [|done]. intros l o Hl. by eapply lookup_weaken.
Qed.

End HeapFacts.

(** ** The object-level run and the value-level embedding *)

Module HeapRefinement.
Import Heap HeapLogic HeapFacts.

Lemma run_bind_Ok {A B} (m : M A) (k : A → M B) h a h1 :
  m h = (Ok a, h1) → (m ≫= k) h = k a h1.
Proof. intros Hm. unfold mbind, M_bind. by rewrite Hm. Qed.

Lemma run_bind_Raise {A B} (m : M A) (k : A → M B) h e h1 :
  m h = (Raise e, h1) → (m ≫= k) h = (Raise e, h1).
Proof. intros Hm. unfold mbind, M_bind. by rewrite Hm. Qed.

(** *** No step but [assert] raises an assertion error *)

Lemma raises_only_bind {A B} X (m : M A) (k : A → M B) :
  raises_only X m → (∀ a, raises_only X (k a)) → raises_only X (m ≫= k).
Proof.
  intros Hm Hk h e h'. unfold mbind, M_bind.
  destruct (m h) as [[a|e'] h1] eqn:Hmh.
  - apply Hk.
  - intros [= <- <-]. by eapply Hm.
Qed.

Lemma raises_only_ret {A} X (a : A) : raises_only X (mret a).
Proof. by intros h e h'. Qed.

Lemma raises_only_raise {A} (X : exn → Prop) e :
  X e → raises_only X (@raise A e).
Proof. intros He h e' h'. by intros [= <- <-]. Qed.

Lemma raises_only_get {V} (kvs : list (string * V)) k :
  raises_only not_assertion (lift (Py.dict_get kvs k)).
Proof.
  intros h e h'. unfold lift. intros [= He _]. revert He.
  induction kvs as [|[k' v] kvs IH]; simpl.
  - by intros [= <-].
  - case_decide; [done|apply IH].
Qed.

Lemma raises_only_read l : raises_only not_assertion (read l).
Proof.
  intros h e h'. unfold read. destruct (h !! l); [done|]. by intros [= <- <-].
Qed.

Lemma raises_only_alloc X o : raises_only X (alloc o).
Proof. by intros h e h'. Qed.

Lemma raises_only_write X l o : raises_only X (write l o).
Proof. by intros h e h'. Qed.

Create HintDb raises_only.
#[local] Hint Resolve raises_only_ret raises_only_get raises_only_read
  raises_only_alloc raises_only_write : raises_only.
#[local] Hint Extern 1 (@raises_only _ not_assertion (@raise _ _)) =>
  apply raises_only_raise; intros ?; discriminate : raises_only.

Ltac solve_raises_only :=
  repeat first
    [ progress eauto with raises_only
    | apply raises_only_bind; [|intros ?]
    | match goal with |- raises_only _ (match ?x with _ => _ end) =>
        destruct x end ].

Lemma raises_only_dict_items v : raises_only not_assertion (dict_items v).
Proof. unfold dict_items. destruct v; solve_raises_only. Qed.
Lemma raises_only_unpack v : raises_only not_assertion (unpack v).
Proof. unfold unpack. destruct v; solve_raises_only. Qed.
Lemma raises_only_getitem v k : raises_only not_assertion (getitem v k).
Proof. unfold getitem. destruct v; solve_raises_only. Qed.
Lemma raises_only_elements v : raises_only not_assertion (elements v).
Proof. unfold elements. destruct v; solve_raises_only. Qed.
Lemma raises_only_append y a : raises_only not_assertion (append y a).
Proof. unfold append. solve_raises_only. Qed.
Lemma raises_only_setitem y k a : raises_only not_assertion (setitem y k a).
Proof. unfold setitem. solve_raises_only. Qed.
#[local] Hint Resolve raises_only_dict_items raises_only_unpack
  raises_only_getitem raises_only_elements raises_only_append
  raises_only_setitem : raises_only.

Lemma raises_only_copy_items rec y items memo :
  (∀ a memo', raises_only not_assertion (rec a memo')) →
  raises_only not_assertion (copy_items rec y items memo).
Proof.
  intros Hrec. revert memo.
  induction items as [|a items IH]; intros memo; simpl.
  { apply raises_only_ret. }
  apply raises_only_bind; [apply Hrec|]. intros [a' memo'].
  apply raises_only_bind; [apply raises_only_append|]. intros []. apply IH.
Qed.

Lemma raises_only_copy_entries rec y items memo :
  (∀ a memo', raises_only not_assertion (rec a memo')) →
  raises_only not_assertion (copy_entries rec y items memo).
Proof.
  intros Hrec. revert memo.
  induction items as [|[k a] items IH]; intros memo; simpl.
  { apply raises_only_ret. }
  apply raises_only_bind; [apply Hrec|]. intros [a' memo'].
  apply raises_only_bind; [apply raises_only_setitem|]. intros []. apply IH.
Qed.

Lemma raises_only_deepcopy fuel x memo :
  raises_only not_assertion (deepcopy fuel x memo).
Proof.
  revert x memo. induction fuel as [|fuel IH]; intros x memo; simpl.
  { solve_raises_only. }
  destruct x as [z|q|s|l]; try apply raises_only_ret.
  destruct (memo !! l) as [y|]; [apply raises_only_ret|].
  apply raises_only_bind; [apply raises_only_read|]. intros [items|items].
  - apply raises_only_bind; [apply raises_only_alloc|]. intros y.
    apply raises_only_bind; [by apply raises_only_copy_items|]. intros memo'.
    apply raises_only_ret.
  - apply raises_only_bind; [apply raises_only_alloc|]. intros y.
    apply raises_only_bind; [by apply raises_only_copy_entries|].
    intros memo'. apply raises_only_ret.
Qed.

Lemma raises_only_for_each {A} X (l : list A) (body : A → M unit) :
  (∀ x, raises_only X (body x)) → raises_only X (for_each l body).
Proof.
  intros Hbody. induction l as [|x l IH]; simpl.
  { apply raises_only_ret. }
  apply raises_only_bind; [apply Hbody|]. intros []. apply IH.
Qed.

(** *** What the steps do on a heap that holds the mapping *)

Lemma holds_labels_mono h h' v zs :
  h ⊆ h' → holds_labels h v zs → holds_labels h' v zs.
Proof.
  intros Hsub (l & -> & Hl). exists l. split; [done|].
  by eapply lookup_weaken.
Qed.

Lemma holds_entry_mono h h' v m :
  h ⊆ h' → holds_entry h v m → holds_entry h' v m.
Proof.
  intros Hsub (l & kvs & vt & vp & -> & Hl & Ht & Hp & Hvt & Hvp).
  exists l, kvs, vt, vp.
  split_and!; [done|by eapply lookup_weaken|done|done|..];
    by eapply holds_labels_mono.
Qed.

Lemma getitem_run h l kvs k :
  h !! l = Some (ODict kvs) → getitem (VRef l) k h = (Py.dict_get kvs k, h).
Proof. intros Hl. unfold getitem, read, lift, mbind, M_bind. by rewrite Hl. Qed.

Lemma elements_run h l vs :
  h !! l = Some (OList vs) → elements (VRef l) h = (Ok vs, h).
Proof. intros Hl. unfold elements, read, mbind, M_bind. by rewrite Hl. Qed.

Lemma extend_method_run h l vs :
  h !! l = Some (OList vs) → extend_method (VRef l) h = (Ok l, h).
Proof.
  intros Hl. unfold extend_method, read, mbind, M_bind. by rewrite Hl.
Qed.

Lemma extend_run h l xs src new :
  h !! l = Some (OList xs) → elements src h = (Ok new, h) →
  extend l src h = (Ok tt, <[l:=OList (xs ++ new)]> h).
Proof.
  intros Hl Hsrc. unfold extend. rewrite (run_bind_Ok _ _ _ _ _ Hsrc).
  unfold read, write, mbind, M_bind. by rewrite Hl.
Qed.

(** [total_labels[k].extend(labels[k])] on a heap that holds the labels
    [zs] of the entry under [k]. *)
Lemma pool_extend_run h (tl target : loc) (tkvs : list (string * value))
    (k : string) (acc : list Z) (labels vk : value) (zs : list Z)
    (rest : M unit) :
  h !! tl = Some (ODict tkvs) → Py.dict_get tkvs k = Ok (VRef target) →
  h !! target = Some (OList (VInt <$> acc)) →
  getitem labels k h = (Ok vk, h) → holds_labels h vk zs →
  (t ← getitem (VRef tl) k;
   t ← extend_method t;
   src ← getitem labels k;
   _ ← extend t src;
   rest) h =
  rest (<[target:=OList (VInt <$> (acc ++ zs))]> h).
Proof.
  intros Htl Hk Htarget Hget (lk & -> & Hlk).
  rewrite (run_bind_Ok _ _ h (VRef target) h);
    [|by rewrite (getitem_run _ _ _ _ Htl), Hk].
  rewrite (run_bind_Ok _ _ h target h); [|by eapply extend_method_run].
  rewrite (run_bind_Ok _ _ h (VRef lk) h) by done.
  erewrite run_bind_Ok;
    [|by eapply extend_run; [|by apply elements_run]].
  by rewrite fmap_app.
Qed.

Lemma pool_extend_last h (tl target : loc) (tkvs : list (string * value))
    (k : string) (acc : list Z) (labels vk : value) (zs : list Z) :
  h !! tl = Some (ODict tkvs) → Py.dict_get tkvs k = Ok (VRef target) →
  h !! target = Some (OList (VInt <$> acc)) →
  getitem labels k h = (Ok vk, h) → holds_labels h vk zs →
  (t ← getitem (VRef tl) k;
   t ← extend_method t;
   src ← getitem labels k;
   extend t src) h =
  (Ok (), <[target:=OList (VInt <$> (acc ++ zs))]> h).
Proof.
  intros Htl Hk Htarget Hget (lk & -> & Hlk).
  rewrite (run_bind_Ok _ _ h (VRef target) h);
    [|by rewrite (getitem_run _ _ _ _ Htl), Hk].
  rewrite (run_bind_Ok _ _ h target h); [|by eapply extend_method_run].
  rewrite (run_bind_Ok _ _ h (VRef lk) h) by done.
  erewrite extend_run; [|done|by apply elements_run].
  by rewrite fmap_app.
Qed.

Lemma used_ne (h0 : heap) l l' o : unused h0 l → h0 !! l' = Some o → l ≠ l'.
Proof. unfold unused. intros Hl Hl' ->. congruence. Qed.

Lemma pool_body_run h0 tl tt tp acc_t acc_p h ve m :
  unused h0 tt → unused h0 tp → tt ≠ tl → tp ≠ tl → tt ≠ tp →
  pooled h0 tl tt tp acc_t acc_p h → holds_entry h0 ve m →
  ∃ h',
    (t ← getitem (VRef tl) TRUE_LABELS;
     t ← extend_method t;
     src ← getitem ve TRUE_LABELS;
     _ ← extend t src;
     p ← getitem (VRef tl) PRED_LABELS;
     p ← extend_method p;
     src ← getitem ve PRED_LABELS;
     extend p src) h = (Ok (), h') ∧
    pooled h0 tl tt tp (acc_t ++ true_labels m) (acc_p ++ pred_labels m) h'.
Proof.
  intros Hutt Hutp Hne1 Hne2 Hne3 [[Hsub Htl] [Htt Htp]].
  intros (le & kvs & vt & vp & -> & Hle & Ht & Hp & Hvt & Hvp).
  destruct Hvt as (lt0 & -> & Hlt0). destruct Hvp as (lp0 & -> & Hlp0).
  pose proof (used_ne _ _ _ _ Hutt Hle) as Hne_le.
  pose proof (used_ne _ _ _ _ Hutt Hlp0) as Hne_lp0.
  erewrite (pool_extend_run h tl tt _ TRUE_LABELS acc_t (VRef le)
              (VRef lt0) (true_labels m)); [|done|done|done|..].
  2: { erewrite getitem_run; [by rewrite Ht|by eapply lookup_weaken]. }
  2: { exists lt0. split; [done|by eapply lookup_weaken]. }
  set (h1 := <[tt:=OList (VInt <$> (acc_t ++ true_labels m))]> h).
  assert (h0 ⊆ h1) as Hsub1 by (by apply frame_insert).
  assert (h1 !! tl = Some (ODict [(TRUE_LABELS, VRef tt);
                                  (PRED_LABELS, VRef tp)])) as Htl1.
  { unfold h1. by rewrite lookup_insert_ne. }
  assert (h1 !! tp = Some (OList (VInt <$> acc_p))) as Htp1.
  { unfold h1. by rewrite lookup_insert_ne. }
  erewrite (pool_extend_last h1 tl tp _ PRED_LABELS acc_p (VRef le)
              (VRef lp0) (pred_labels m)); [|done|done|done|..].
  2: { erewrite getitem_run; [by rewrite Hp|by eapply lookup_weaken]. }
  2: { exists lp0. split; [done|by eapply lookup_weaken]. }
  eexists. split; [done|].
  split_and!.
  - split; [by apply frame_insert|].
    rewrite lookup_insert_ne by done. done.
  - rewrite lookup_insert_ne by done. unfold h1.
    by rewrite lookup_insert_eq.
  - by rewrite lookup_insert_eq.
Qed.

(** The pooling loop on a heap that holds the entries. *)
Lemma pool_run h0 tl tt tp (items : list (string * value))
    (d : list (string * prediction)) :
  unused h0 tt → unused h0 tp → tt ≠ tl → tp ≠ tl → tt ≠ tp →
  Forall2 (λ kv e, kv.1 = e.1 ∧ holds_entry h0 kv.2 e.2) items d →
  ∀ acc_t acc_p h,
    pooled h0 tl tt tp acc_t acc_p h →
    ∃ h',
      for_each items (λ '(lang, labels),
        t ← getitem (VRef tl) TRUE_LABELS;
        t ← extend_method t;
        src ← getitem labels TRUE_LABELS;
        _ ← extend t src;
        p ← getitem (VRef tl) PRED_LABELS;
        p ← extend_method p;
        src ← getitem labels PRED_LABELS;
        extend p src) h = (Ok (), h') ∧
      pooled h0 tl tt tp (acc_t ++ concat (true_labels <$> d.*2))
        (acc_p ++ concat (pred_labels <$> d.*2)) h'.
Proof.
  intros Hutt Hutp Hne1 Hne2 Hne3.
  induction 1 as [|[k ve] [k' m] items d [_ Hentry] _ IH];
    intros acc_t acc_p h Hpooled.
  { simpl. rewrite !app_nil_r. by exists h. }
  simpl in Hentry. cbn [for_each].
  destruct (pool_body_run _ _ _ _ _ _ _ _ _ Hutt Hutp Hne1 Hne2 Hne3
              Hpooled Hentry) as (h1 & Hbody & Hpooled1).
  rewrite (run_bind_Ok _ _ _ _ _ Hbody).
  destruct (IH _ _ _ Hpooled1) as (h' & Hrest & Hpooled').
  exists h'. split; [done|].
  rewrite !fmap_cons, !concat_cons, !app_assoc. done.
Qed.



(** *** The copy has the keys of the original *)

Lemma deepcopy_grows fuel x memo h r h' :
  deepcopy fuel x memo h = (r, h') → h ⊆ h'.
Proof.
  intros Hrun.
  pose proof (deepcopy_frame h fuel x memo h (reflexivity h)) as H.
  rewrite Hrun in H. by destruct r.
Qed.

Lemma keys_dict_set_fresh {V} (d : list (string * V)) k v :
  k ∉ d.*1 → (Py.dict_set d k v).*1 = d.*1 ++ [k].
Proof. intros Hk. rewrite dict_set_fresh by done. by rewrite fmap_app. Qed.

Lemma copy_entries_keys rec y items memo h acc memo' h' :
  (∀ a memo1 h1 r h2, rec a memo1 h1 = (r, h2) → h1 ⊆ h2) →
  h !! y = Some (ODict acc) → NoDup (acc.*1 ++ items.*1) →
  copy_entries rec y items memo h = (Ok memo', h') →
  ∃ acc', h' !! y = Some (ODict acc') ∧ acc'.*1 = acc.*1 ++ items.*1.
Proof.
  intros Hrec. revert memo h acc.
  induction items as [|[k a] items IH]; intros memo h acc Hy Hnd; simpl.
  { intros [= _ <-]. exists acc. by rewrite app_nil_r. }
  unfold mbind, M_bind.
  destruct (rec a memo h) as [[[a' memo1]|e] h1] eqn:Hcall; [|done].
  apply Hrec in Hcall as Hsub.
  pose proof (lookup_weaken _ _ _ _ Hy Hsub) as Hy1.
  unfold setitem, read, write, mbind, M_bind. rewrite Hy1. simpl.
  intros Hrest. fold (copy_entries rec y items memo1) in Hrest.
  assert (k ∉ acc.*1) as Hk.
  { intros Hin. apply NoDup_app in Hnd as (_ & Hnd & _).
    apply (Hnd k Hin). by left. }
  apply (IH _ _ (Py.dict_set acc k a')) in Hrest as (acc' & Hacc' & Hkeys).
  - exists acc'. split; [done|].
    rewrite Hkeys, keys_dict_set_fresh by done.
    by rewrite <-app_assoc.
  - by rewrite lookup_insert_eq.
  - rewrite keys_dict_set_fresh by done. by rewrite <-app_assoc.
Qed.

Lemma deepcopy_dict_keys fuel l kvs h copy memo h' :
  h !! l = Some (ODict kvs) → NoDup kvs.*1 →
  deepcopy fuel (VRef l) ∅ h = (Ok (copy, memo), h') →
  ∃ y kvs', copy = VRef y ∧ h' !! y = Some (ODict kvs') ∧ kvs'.*1 = kvs.*1.
Proof.
  intros Hl Hnd. destruct fuel as [|fuel]; [done|]. simpl.
  rewrite lookup_empty. unfold read, alloc, mbind, M_bind. rewrite Hl.
  destruct (copy_entries _ _ _ _ _) as [[memo'|e] h1] eqn:Hcopy; [|done].
  intros [= <- <- <-].
  eapply (copy_entries_keys _ _ _ _ _ []) in Hcopy
    as (kvs' & Hkvs' & Hkeys).
  - by eexists _, _.
  - intros ?????. apply deepcopy_grows.
  - by rewrite lookup_insert_eq.
  - done.
Qed.

(** *** The object-level run, step by step *)

Lemma keys_dict_set {V} (d : list (string * V)) k v :
  (Py.dict_set d k v).*1 = if decide (k ∈ d.*1) then d.*1 else d.*1 ++ [k].
Proof.
  case_decide as Hk; [|by apply keys_dict_set_fresh].
  induction d as [|[k' v'] d IH]; simpl in *.
  - by apply elem_of_nil in Hk.
  - destruct (decide (k' = k)) as [->|Hne]; simpl; [done|].
    apply elem_of_cons in Hk as [?|Hk]; [congruence|]. f_equal. by apply IH.
Qed.

Lemma len_run h l vs :
  h !! l = Some (OList vs) → len (VRef l) h = (Ok (length vs), h).
Proof.
  intros Hl. unfold len. by rewrite (run_bind_Ok _ _ _ _ _ (elements_run _ _ _ Hl)).
Qed.

Lemma len_dict_run h l kvs :
  h !! l = Some (ODict kvs) → len (VRef l) h = (Ok (length kvs), h).
Proof.
  intros Hl. unfold len, elements, read, mbind, M_bind. rewrite Hl. simpl.
  by rewrite !length_fmap.
Qed.

Lemma drawing_reads_only (shown : list (string * value)) :
  reads_only (for_each shown (λ '(lang, values),
    true ← getitem values TRUE_LABELS;
    preds ← getitem values PRED_LABELS;
    _ ← elements true;
    _ ← elements preds;
    mret ())).
Proof.
  apply reads_only_for_each. intros [lang values].
  repeat (apply reads_only_bind;
          [first [apply reads_only_getitem|apply reads_only_elements]
          |intros ?]).
  apply reads_only_ret.
Qed.

Lemma drawing_raises_only (shown : list (string * value)) :
  raises_only not_assertion (for_each shown (λ '(lang, values),
    true ← getitem values TRUE_LABELS;
    preds ← getitem values PRED_LABELS;
    _ ← elements true;
    _ ← elements preds;
    mret ())).
Proof.
  apply raises_only_for_each. intros [lang values].
  repeat (apply raises_only_bind;
          [first [apply raises_only_getitem|apply raises_only_elements]
          |intros ?]).
  apply raises_only_ret.
Qed.

(** On a heap that holds the mapping [d], the run is decided by the two
    pooled lengths and by the keys of [d], unless the copy or the drawing
    raises an exception of its own. *)
Lemma object_run fuel h v d r h' :
  holds h v d →
  Heap.show_confusion_matrix fuel v h = (r, h') →
  if bool_decide (length (concat (true_labels <$> d.*2)) =
                  length (concat (pred_labels <$> d.*2)))
  then
    (∃ e, r = Raise e ∧ not_assertion e) ∨
    if bool_decide
         ((if decide (ALL_LANGUAGES ∈ d.*1) then length d else S (length d))
          = 4%nat)
    then
      ∃ merged kvs,
        r = Ok merged ∧ h' !! merged = Some (ODict kvs) ∧
        kvs.*1 = if decide (ALL_LANGUAGES ∈ d.*1) then d.*1
                 else d.*1 ++ [ALL_LANGUAGES]
    else r = Raise (AssertionError entries_msg)
  else r = Raise (AssertionError size_msg).
Proof.
  intros (l & kvs & -> & Hl & Hnd & Hentries). unfold Heap.show_confusion_matrix.
  set (lt := fresh (dom h)). set (h1 := <[lt:=OList []]> h).
  set (lp := fresh (dom h1)). set (h2 := <[lp:=OList []]> h1).
  set (ld := fresh (dom h2)).
  set (h3 := <[ld:=ODict [(TRUE_LABELS, VRef lt); (PRED_LABELS, VRef lp)]]> h2).
  rewrite (run_bind_Ok (alloc (OList [])) _ h lt h1 eq_refl).
  rewrite (run_bind_Ok (alloc (OList [])) _ h1 lp h2 eq_refl).
  rewrite (run_bind_Ok (alloc _) _ h2 ld h3 eq_refl).
  assert (h !! lt = None) as Hlt by apply not_elem_of_dom, is_fresh.
  assert (h1 !! lp = None) as Hlp by apply not_elem_of_dom, is_fresh.
  assert (h2 !! ld = None) as Hld by apply not_elem_of_dom, is_fresh.
  assert (lp ≠ lt) as Hne1.
  { intros ->. unfold h1 in Hlp. by rewrite lookup_insert_eq in Hlp. }
  assert (ld ≠ lp) as Hne2.
  { intros ->. unfold h2 in Hld. by rewrite lookup_insert_eq in Hld. }
  assert (ld ≠ lt) as Hne3.
  { intros ->. unfold h2, h1 in Hld.
    rewrite lookup_insert_ne, lookup_insert_eq in Hld; done. }
  assert (unused h lt) as Hult by done.
  assert (unused h lp) as Hulp.
  { unfold unused, h1 in *. by rewrite lookup_insert_ne in Hlp. }
  assert (unused h ld) as Huld.
  { unfold unused, h2, h1 in *. by rewrite !lookup_insert_ne in Hld. }
  assert (pooled h ld lt lp [] [] h3) as Hpooled.
  { split_and!.
    - split; [by repeat apply frame_insert|]. unfold h3.
      by rewrite lookup_insert_eq.
    - unfold h3, h2, h1.
      by rewrite !lookup_insert_ne, lookup_insert_eq by done.
    - unfold h3, h2. by rewrite lookup_insert_ne, lookup_insert_eq by done. }
  assert (h ⊆ h3) as Hsub3 by apply Hpooled.
  rewrite (run_bind_Ok (dict_items _) _ h3 kvs h3).
  2: { unfold dict_items, read, mbind, M_bind.
       by rewrite (lookup_weaken _ _ _ _ Hl Hsub3). }
  destruct (pool_run h ld lt lp kvs d Hult Hulp) with (acc_t := @nil Z)
    (acc_p := @nil Z) (h := h3) as (h4 & Hloop & [[Hsub4 Hld4] [Hlt4 Hlp4]]);
    [done..|].
  rewrite (run_bind_Ok _ _ _ _ _ Hloop). simpl in Hlt4, Hlp4.
  rewrite (run_bind_Ok (getitem _ _) _ h4 (VRef lt) h4)
    by (by rewrite (getitem_run _ _ _ _ Hld4)).
  rewrite (run_bind_Ok _ _ _ _ _ (len_run _ _ _ Hlt4)).
  rewrite (run_bind_Ok (getitem _ _) _ h4 (VRef lp) h4)
    by (by rewrite (getitem_run _ _ _ _ Hld4)).
  rewrite (run_bind_Ok _ _ _ _ _ (len_run _ _ _ Hlp4)).
  rewrite !length_fmap.
  case_bool_decide as Hsize.
  2: { unfold Heap.assert, raise, mbind, M_bind. by intros [= <- <-]. }
  rewrite (run_bind_Ok (Heap.assert true _) _ h4 () h4 eq_refl).
  destruct (deepcopy fuel (VRef l) ∅ h4) as [[[copy memo]|e] h5] eqn:Hcopy.
  2: { rewrite (run_bind_Raise _ _ _ _ _ Hcopy). intros [= <- <-].
       left. exists e. split; [done|]. by eapply raises_only_deepcopy. }
  rewrite (run_bind_Ok _ _ _ _ _ Hcopy).
  apply deepcopy_dict_keys with (kvs := kvs) in Hcopy
    as (y & kvs' & -> & Hy & Hkeys);
    [|by eapply lookup_weaken|done].
  cbv beta iota.
  rewrite (run_bind_Ok (unpack _) _ h5 kvs' h5).
  2: { unfold unpack, read, mbind, M_bind. by rewrite Hy. }
  set (merged := fresh (dom h5)).
  set (shown := Py.dict_set kvs' ALL_LANGUAGES (VRef ld)).
  set (h6 := <[merged:=ODict shown]> h5).
  rewrite (run_bind_Ok (alloc _) _ h5 merged h6 eq_refl).
  assert (h6 !! merged = Some (ODict shown)) as Hm.
  { unfold h6. by rewrite lookup_insert_eq. }
  rewrite (run_bind_Ok _ _ _ _ _ (len_dict_run _ _ _ Hm)).
  assert (kvs.*1 = d.*1) as Hkd.
  { clear -Hentries. induction Hentries as [|[??] [??] ?? [? _] _ IH];
      simpl in *; [done|]. by f_equal. }
  assert (shown.*1 = if decide (ALL_LANGUAGES ∈ d.*1) then d.*1
                     else d.*1 ++ [ALL_LANGUAGES]) as Hshown.
  { unfold shown. by rewrite keys_dict_set, Hkeys, Hkd. }
  assert (length shown =
          if decide (ALL_LANGUAGES ∈ d.*1) then length d else S (length d))
    as ->.
  { rewrite <-(length_fmap fst shown), Hshown.
    case_decide; rewrite ?length_app, !length_fmap; simpl; lia. }
  case_bool_decide as Hcount.
  2: { unfold Heap.assert, raise, mbind, M_bind. intros [= <- <-]. by right. }
  rewrite (run_bind_Ok (Heap.assert true _) _ h6 () h6 eq_refl).
  rewrite (run_bind_Ok (dict_items _) _ h6 shown h6).
  2: { unfold dict_items, read, mbind, M_bind. by rewrite Hm. }
  pose proof (drawing_reads_only shown h6) as Hread.
  pose proof (drawing_raises_only shown h6) as Hraise.
  unfold mbind at 1, M_bind at 1.
  destruct (for_each _ _ h6) as [[[]|e] h7]; simpl in Hread; subst h7.
  - intros [= <- <-]. right. by exists merged, shown.
  - intros [= <- <-]. left. exists e. split; [done|]. by eapply Hraise.
Qed.

End HeapRefinement.

(** On a heap that holds the mapping [d], the object-level run and the
    value-level embedding agree: a run that returns has drawn the panels
    that the value-level embedding returns, under the same keys in the same
    order; a run that raises an assertion error raises the one of the
    value-level embedding; and an assertion error of the value-level
    embedding is raised by the run too, unless the copy (whose recursion is
    bounded) or the drawing raises an exception of its own first. *)
Theorem object_level_agrees (fuel : nat) (h : Heap.heap) (v : Heap.value)
    (d : list (string * prediction)) :
  HeapLogic.holds h v d →
  match (Heap.show_confusion_matrix fuel v h).1 with
  | Ok merged =>
      ∃ panels kvs,
        show_confusion_matrix d = Ok panels ∧
        (Heap.show_confusion_matrix fuel v h).2 !! merged
          = Some (Heap.ODict kvs) ∧
        kvs.*1 = panels.*1
  | Raise e =>
      HeapLogic.not_assertion e ∨ show_confusion_matrix d = Raise e
  end ∧
  (show_confusion_matrix d = Raise (AssertionError size_msg) →
   (Heap.show_confusion_matrix fuel v h).1 = Raise (AssertionError size_msg)) ∧
  (show_confusion_matrix d = Raise (AssertionError entries_msg) →
   ∃ e, (Heap.show_confusion_matrix fuel v h).1 = Raise e ∧
        (e = AssertionError entries_msg ∨ HeapLogic.not_assertion e)).
Proof.
  intros Hholds.
  destruct (Heap.show_confusion_matrix fuel v h) as [r h'] eqn:Hrun.
  pose proof (HeapRefinement.object_run _ _ _ _ _ _ Hholds Hrun) as Hobj.
  simpl. unfold show_confusion_matrix. rewrite pool_labels_concat. simpl.
  rewrite length_merged. unfold Py.keys.
  case_bool_decide as Hsize; simpl.
  2: { subst r. split_and!; [by right|done|done]. }
  destruct Hobj as [(e & -> & He)|Hobj].
  { split_and!; [by left|by case_bool_decide|]. intros _. exists e. auto. }
  case_bool_decide as Hcount; simpl.
  - destruct Hobj as (merged & kvs & -> & Hm & Hkeys). split_and!; [|done..].
    eexists _, kvs. split_and!; [done..|].
    rewrite Hkeys, HeapRefinement.keys_dict_set.
    pose proof (keys_panels d) as Hpanels. unfold Py.keys in Hpanels.
    by rewrite Hpanels.
  - subst r. split_and!; [by right|done|]. intros _. eexists. eauto.
Qed.

(** ** The two embeddings of [show_confusion_matrix] side by side *)

Module HeapExamples.

(** Three languages: the object-level run draws what the value-level
    embedding returns, and the caller's mapping still holds its three
    entries. *)
Example three_entries_agree :
  ∃ panels,
    show_confusion_matrix three_entries = Ok panels ∧
    HeapStore.run three_entries =
    Ok (panels, prod_map (λ lang, lang) panel_labels <$> three_entries).
Proof. eexists. split; vm_compute; reflexivity. Qed.

(** Four entries with the key of the pooled view: accepted by the
    object-level run too; the caller's entry under that key is kept in
    the caller's mapping, and replaced in the copy that is drawn. *)
Example four_entries_agree :
  ∃ panels,
    show_confusion_matrix four_entries = Ok panels ∧
    HeapStore.run four_entries =
    Ok (panels, prod_map (λ lang, lang) panel_labels <$> four_entries).
Proof. eexists. split; vm_compute; reflexivity. Qed.

(** Two languages: both embeddings raise the same assertion. *)
Example two_entries_agree :
  show_confusion_matrix (take 2 three_entries) =
    Raise (AssertionError entries_msg) ∧
  HeapStore.run (take 2 three_entries) = Raise (AssertionError entries_msg).
Proof. split; vm_compute; reflexivity. Qed.

End HeapExamples.

(** * Further properties of the components *)

(** ** Dictionaries: an entry after an update *)

Lemma dict_get_set_eq {V} (d : list (string * V)) k v :
  Py.dict_get (Py.dict_set d k v) k = Ok v.
Proof.
  induction d as [|[k' v'] d IH]; simpl; [by rewrite decide_True|].
  case_decide; simpl; [by rewrite decide_True|by rewrite decide_False].
Qed.

Lemma dict_get_set_ne {V} (d : list (string * V)) k k' v :
  k ≠ k' → Py.dict_get (Py.dict_set d k v) k' = Py.dict_get d k'.
Proof.
  intros Hne. induction d as [|[k0 v0] d IH]; simpl.
  - by rewrite decide_False.
  - case_decide; simpl.
    + subst. by rewrite !decide_False.
    + case_decide; [done|apply IH].
Qed.

Lemma keys_dict_set_new {V} (d : list (string * V)) k v :
  k ∉ Py.keys d → Py.keys (Py.dict_set d k v) = Py.keys d ++ [k].
Proof.
  intros Hk. rewrite dict_set_fresh by done. unfold Py.keys.
  by rewrite fmap_app.
Qed.

(** ** Inference Runner: the entries of the result *)

Section InferenceRunnerEntries.
Context {logits : Type}.
Variable model : list string → list logits.
Variable softmax : logits → Qc * Qc.

(** What [predict_language] returns: the probabilities do not depend on the
    threshold, the predicted labels are their thresholding. *)
Lemma predict_language_eq ds bs conf_th :
  predict_language model softmax ds bs conf_th =
  loader ← Torch.DataLoader (text <$> ds) bs;
  let probs := softmax <$> (loader ≫= model) in
  Ok (Prediction (label <$> ds)
        ((λ p, Np.where_gt p.2 conf_th) <$> probs) probs).
Proof.
  unfold predict_language.
  destruct (Torch.DataLoader (text <$> ds) bs) as [loader|e]; [|done].
  cbn [mbind result_bind rbind].
  pose proof (predict_batches_rule model softmax conf_th loader ([], [])
                eq_refl) as Hrule.
  pose proof (predict_batches_probs model softmax conf_th loader ([], []))
    as Hprobs.
  destruct (predict_batches _ _ _ _ _) as [labels probs].
  simpl in *. by subst.
Qed.

Lemma predict_languages_lookup items bs conf_th acc res :
  NoDup (Py.keys acc ++ Py.keys items) →
  predict_languages model softmax items bs conf_th acc = Ok res →
  Py.keys res = Py.keys acc ++ Py.keys items ∧
  (∀ lang ds, (lang, ds) ∈ items →
     ∃ r, Py.dict_get res lang = Ok r ∧
          predict_language model softmax ds bs conf_th = Ok r) ∧
  (∀ lang r, Py.dict_get acc lang = Ok r → Py.dict_get res lang = Ok r).
Proof.
  revert acc. induction items as [|[lang ds] items IH]; intros acc Hnd.
  { simpl. intros [= <-]. rewrite app_nil_r. split_and!; [done| |done].
    by intros ?? ?%elem_of_nil. }
  cbn [predict_languages]. intros H. apply bind_Ok in H as (r & Hr & H).
  change (Py.keys ((lang, ds) :: items)) with (lang :: Py.keys items) in *.
  assert (lang ∉ Py.keys acc) as Hfresh.
  { apply NoDup_app in Hnd as (_ & Hdisj & _). intros Hin.
    apply (Hdisj lang Hin). by left. }
  assert (lang ∉ Py.keys items) as Hlater.
  { apply NoDup_app in Hnd as (_ & _ & Hnd). by apply NoDup_cons in Hnd as []. }
  apply IH in H as (Hkeys & Hitems & Hacc).
  2: { rewrite keys_dict_set_new by done. by rewrite <-app_assoc. }
  rewrite keys_dict_set_new in Hkeys by done.
  split_and!.
  - by rewrite Hkeys, <-app_assoc.
  - intros lang' ds' [[= -> ->]|Hin]%elem_of_cons; [|by apply Hitems].
    exists r. split; [|done]. apply Hacc, dict_get_set_eq.
  - intros lang' r' Hget. apply Hacc. rewrite dict_get_set_ne; [done|].
    intros ->. apply Hfresh. apply dict_get_elem_of in Hget.
    unfold Py.keys. apply list_elem_of_fmap. by exists (lang', r').
Qed.

Lemma predict_lookup is_file dfs bs conf_th res :
  Py.is_dict dfs →
  predict_with_probabilities model softmax is_file dfs bs conf_th = Ok res →
  Py.keys res = Py.keys dfs ∧
  ∀ lang ds, (lang, ds) ∈ dfs →
    ∃ r, Py.dict_get res lang = Ok r ∧
         predict_language model softmax ds bs conf_th = Ok r.
Proof.
  unfold Py.is_dict, predict_with_probabilities. intros Hnd H.
  apply bind_Ok in H as (_ & _ & H).
  apply predict_languages_lookup in H as (Hkeys & Hitems & _); [|done].
  by split.
Qed.

Lemma predict_languages_Ok items bs conf_th acc :
  0 < bs → ∃ res, predict_languages model softmax items bs conf_th acc = Ok res.
Proof.
  intros Hbs. revert acc. induction items as [|[lang ds] items IH]; intros acc.
  { by eexists. }
  cbn [predict_languages]. rewrite predict_language_eq.
  unfold Torch.DataLoader. rewrite bool_decide_eq_false_2 by lia.
  cbn [mbind result_bind rbind]. apply IH.
Qed.
End InferenceRunnerEntries.

(** X1: [predict_with_probabilities] raises the assertion error of its
    first statement when the model path is not a file, and it returns a
    result only when the path is a file and either the batch size is
    positive or there is no language to predict. *)
Theorem predict_with_probabilities_preconditions {logits : Type}
    (model : list string → list logits) (softmax : logits → Qc * Qc)
    (model_is_file : bool) (df_by_language : list (string * dataframe))
    (batch_size : Z) (conf_th : Qc) :
  (model_is_file = false →
   predict_with_probabilities model softmax model_is_file df_by_language
     batch_size conf_th = Raise (AssertionError "Model path is not a file")) ∧
  (∀ res, predict_with_probabilities model softmax model_is_file
            df_by_language batch_size conf_th = Ok res →
          model_is_file = true ∧ (df_by_language = [] ∨ 0 < batch_size)).
Proof.
  unfold predict_with_probabilities.
  destruct model_is_file; cbn [assert mbind result_bind rbind];
    [|by split].
  split; [done|]. intros res Hrun. split; [done|].
  destruct df_by_language as [|[lang ds] items]; [by left|right].
  destruct (decide (0 < batch_size)) as [|Hbs]; [done|exfalso].
  revert Hrun. cbn [predict_languages]. rewrite predict_language_eq.
  unfold Torch.DataLoader. by rewrite bool_decide_eq_true_2 by lia.
Qed.

(** X2: the result of [predict_with_probabilities] has the languages of the
    input, in the order of the input, and the entry of every language holds
    the [LABEL] column of the table of that language as its true labels. *)
Theorem prediction_languages_and_labels {logits : Type}
    (model : list string → list logits) (softmax : logits → Qc * Qc)
    (model_is_file : bool) (df_by_language : list (string * dataframe))
    (batch_size : Z) (conf_th : Qc) (res : list (string * prediction)) :
  Py.is_dict df_by_language →
  predict_with_probabilities model softmax model_is_file df_by_language
    batch_size conf_th = Ok res →
  Py.keys res = Py.keys df_by_language ∧
  ∀ lang lang_dataset, (lang, lang_dataset) ∈ df_by_language →
    ∃ r, Py.dict_get res lang = Ok r ∧
         true_labels r = label <$> lang_dataset.
Proof.
  intros Hnd Hrun.
  destruct (predict_lookup _ _ _ _ _ _ _ Hnd Hrun) as [Hkeys Hitems].
  split; [done|]. intros lang ds Hin.
  destruct (Hitems lang ds Hin) as (r & Hget & Hlang).
  exists r. split; [done|].
  rewrite predict_language_eq in Hlang.
  apply bind_Ok in Hlang as (loader & _ & Hlang). by injection Hlang as <-.
Qed.

Lemma prediction_languages_and_labels_witness :
  ∃ res,
    predict_with_probabilities (fmap keyword_scores) id true two_languages 2
      (Q2Qc (1 # 2)) = Ok res ∧
    Py.keys res = ["en"; "es"] ∧
    ∀ lang lang_dataset, (lang, lang_dataset) ∈ two_languages →
      ∃ r, Py.dict_get res lang = Ok r ∧
           true_labels r = label <$> lang_dataset.
Proof.
  destruct (predict_with_probabilities (fmap keyword_scores) id true
              two_languages 2 (Q2Qc (1 # 2))) as [res|] eqn:Hrun;
    [|by vm_compute in Hrun].
  exists res. split; [done|].
  apply (prediction_languages_and_labels (fmap keyword_scores) id true
           two_languages 2 (Q2Qc (1 # 2)) res); [|done].
  unfold Py.is_dict. simpl. apply NoDup_cons. split; [|apply NoDup_singleton].
  by intros ?%list_elem_of_singleton.
Defined.

(** ** Inference Runner: a classifier that scores every text on its own *)

Section RowWise.
Context {logits : Type}.
Variable model : list string → list logits.
Variable softmax : logits → Qc * Qc.
Variable score : string → logits.
Hypothesis model_row_wise : ∀ batch, model batch = score <$> batch.

Lemma forward_row_wise (loader : list (list string)) :
  loader ≫= model = score <$> concat loader.
Proof.
  induction loader as [|batch loader IH]; [done|].
  by rewrite bind_cons, concat_cons, fmap_app, IH, model_row_wise.
Qed.

Lemma predict_language_row_wise ds bs conf_th :
  0 < bs →
  predict_language model softmax ds bs conf_th =
  Ok (Prediction (label <$> ds)
        ((λ r, Np.where_gt (softmax (score (text r))).2 conf_th) <$> ds)
        ((λ r, softmax (score (text r))) <$> ds)).
Proof.
  intros Hbs. rewrite predict_language_eq.
  destruct (Torch.DataLoader (text <$> ds) bs) as [loader|e] eqn:Hloader.
  2: { revert Hloader. unfold Torch.DataLoader.
       by rewrite bool_decide_eq_false_2 by lia. }
  cbn [mbind result_bind rbind]. cbv zeta.
  rewrite forward_row_wise, (DataLoader_concat _ _ _ Hloader).
  by rewrite <-!list_fmap_compose.
Qed.

Lemma predict_languages_row_wise items bs bs' conf_th acc :
  0 < bs → 0 < bs' →
  predict_languages model softmax items bs conf_th acc =
  predict_languages model softmax items bs' conf_th acc.
Proof.
  intros Hbs Hbs'. revert acc.
  induction items as [|[lang ds] items IH]; intros acc; [done|].
  cbn [predict_languages].
  rewrite !predict_language_row_wise by done.
  cbn [mbind result_bind rbind]. apply IH.
Qed.
End RowWise.

(** X3: for a classifier that scores every text of a batch on its own, the
    outcome of [predict_with_probabilities] is the same for any two positive
    batch sizes. *)
Theorem batch_size_is_irrelevant {logits : Type}
    (model : list string → list logits) (softmax : logits → Qc * Qc)
    (score : string → logits)
    (model_is_file : bool) (df_by_language : list (string * dataframe))
    (batch_size batch_size' : Z) (conf_th : Qc) :
  (∀ batch, model batch = score <$> batch) →
  0 < batch_size → 0 < batch_size' →
  predict_with_probabilities model softmax model_is_file df_by_language
    batch_size conf_th =
  predict_with_probabilities model softmax model_is_file df_by_language
    batch_size' conf_th.
Proof.
  intros Hmodel Hbs Hbs'. unfold predict_with_probabilities.
  destruct model_is_file; [|done]. cbn [assert mbind result_bind rbind].
  by apply predict_languages_row_wise with score.
Qed.

Lemma batch_size_is_irrelevant_witness :
  predict_with_probabilities (fmap keyword_scores) id true two_languages 1
    (Q2Qc (1 # 2)) =
  predict_with_probabilities (fmap keyword_scores) id true two_languages 32
    (Q2Qc (1 # 2)).
Proof.
  apply (batch_size_is_irrelevant (fmap keyword_scores) id keyword_scores).
  - done.
  - lia.
  - lia.
Defined.

(** X4: for a classifier that scores every text of a batch on its own, the
    entry of a language in the result of [predict_with_probabilities] holds,
    row by row of the table of that language, the label of the row, the
    softmax probabilities of its text, and 1 or 0 as the toxic probability
    of its text is above [conf_th] rounded to single precision or not. *)
Theorem probabilities_follow_the_rows {logits : Type}
    (model : list string → list logits) (softmax : logits → Qc * Qc)
    (score : string → logits)
    (model_is_file : bool) (df_by_language : list (string * dataframe))
    (batch_size : Z) (conf_th : Qc) (res : list (string * prediction))
    (lang : string) (r : prediction) :
  (∀ batch, model batch = score <$> batch) →
  predict_with_probabilities model softmax model_is_file df_by_language
    batch_size conf_th = Ok res →
  (lang, r) ∈ res →
  ∃ lang_dataset,
    (lang, lang_dataset) ∈ df_by_language ∧
    true_labels r = label <$> lang_dataset ∧
    pred_probs r = (λ row, softmax (score (text row))) <$> lang_dataset ∧
    pred_labels r =
      (λ row, Np.where_gt (softmax (score (text row))).2 conf_th)
        <$> lang_dataset.
Proof.
  intros Hmodel Hrun Hin.
  destruct (predict_entries _ _ _ _ _ _ _ _ _ Hrun Hin) as (ds & Hds & Hlang).
  exists ds. split; [done|].
  assert (0 < batch_size) as Hbs.
  { destruct (decide (0 < batch_size)) as [|Hle]; [done|exfalso].
    revert Hlang. rewrite predict_language_eq. unfold Torch.DataLoader.
    by rewrite bool_decide_eq_true_2 by lia. }
  rewrite (predict_language_row_wise model softmax score Hmodel) in Hlang
    by done.
  by injection Hlang as <-.
Qed.

Lemma probabilities_follow_the_rows_witness :
  ∃ res,
    predict_with_probabilities (fmap keyword_scores) id true two_languages 2
      (Q2Qc (1 # 2)) = Ok res ∧
    ∀ lang r, (lang, r) ∈ res →
      ∃ lang_dataset,
        (lang, lang_dataset) ∈ two_languages ∧
        true_labels r = label <$> lang_dataset ∧
        pred_probs r = (λ row, keyword_scores (text row)) <$> lang_dataset ∧
        pred_labels r =
          (λ row, Np.where_gt (keyword_scores (text row)).2 (Q2Qc (1 # 2)))
            <$> lang_dataset.
Proof.
  destruct (predict_with_probabilities (fmap keyword_scores) id true
              two_languages 2 (Q2Qc (1 # 2))) as [res|] eqn:Hrun;
    [|by vm_compute in Hrun].
  exists res. split; [done|]. intros lang r Hin.
  exact (probabilities_follow_the_rows (fmap keyword_scores) id
           keyword_scores true two_languages 2 (Q2Qc (1 # 2)) res lang r
           (λ _, eq_refl) Hrun Hin).
Defined.

(** ** Inference Runner: the threshold *)

Lemma where_gt_mono (x c c' : Qc) :
  (c ≤ c')%Qc → 0 ≤ Np.where_gt x c' ∧ Np.where_gt x c' ≤ Np.where_gt x c.
Proof.
  intros Hc. unfold Np.where_gt.
  case_bool_decide as H1; case_bool_decide as H2; try lia.
  destruct H2. eapply Qcle_lt_trans; [|exact H1]. by apply float32_mono.
Qed.

Lemma Forall2_dict_set {V} (R : V → V → Prop) (d d' : list (string * V))
    k v v' :
  Forall2 (λ e e', e'.1 = e.1 ∧ R e.2 e'.2) d d' → R v v' →
  Forall2 (λ e e', e'.1 = e.1 ∧ R e.2 e'.2)
    (Py.dict_set d k v) (Py.dict_set d' k v').
Proof.
  intros Hd Hv. induction Hd as [|[k1 v1] [k2 v2] d d' [Hk Hr] Hd IH]; simpl.
  - by repeat constructor.
  - simpl in Hk, Hr. subst k2. case_decide; by constructor.
Qed.

Section Threshold.
Context {logits : Type}.
Variable model : list string → list logits.
Variable softmax : logits → Qc * Qc.

Lemma predict_language_threshold ds bs conf_th conf_th' r :
  (conf_th ≤ conf_th')%Qc →
  predict_language model softmax ds bs conf_th = Ok r →
  ∃ r', predict_language model softmax ds bs conf_th' = Ok r' ∧
        fewer_toxic r r'.
Proof.
  intros Hc. rewrite !predict_language_eq.
  destruct (Torch.DataLoader (text <$> ds) bs) as [loader|e]; [|done].
  cbn [mbind result_bind rbind]. intros [= <-]. eexists. split; [done|].
  split_and!; [done..|]. simpl.
  apply Forall2_fmap, Forall_Forall2_diag, Forall_forall.
  intros p _. by apply where_gt_mono.
Qed.

Lemma predict_languages_threshold items bs conf_th conf_th' acc acc' res :
  (conf_th ≤ conf_th')%Qc →
  Forall2 (λ e e', e'.1 = e.1 ∧ fewer_toxic e.2 e'.2) acc acc' →
  predict_languages model softmax items bs conf_th acc = Ok res →
  ∃ res', predict_languages model softmax items bs conf_th' acc' = Ok res' ∧
          Forall2 (λ e e', e'.1 = e.1 ∧ fewer_toxic e.2 e'.2) res res'.
Proof.
  intros Hc. revert acc acc'.
  induction items as [|[lang ds] items IH]; intros acc acc' Hacc.
  { simpl. intros [= <-]. by exists acc'. }
  cbn [predict_languages]. intros H. apply bind_Ok in H as (r & Hr & H).
  destruct (predict_language_threshold _ _ _ _ _ Hc Hr) as (r' & -> & Hrr').
  cbn [mbind result_bind rbind]. eapply IH; [|done].
  by apply Forall2_dict_set.
Qed.
End Threshold.

(** X5: when [predict_with_probabilities] returns for [conf_th], it returns
    for every larger threshold too, with the same languages, true labels and
    probabilities, and every predicted label at most what it was: a row
    that was predicted non-toxic stays non-toxic. *)
Theorem higher_threshold_fewer_toxic {logits : Type}
    (model : list string → list logits) (softmax : logits → Qc * Qc)
    (model_is_file : bool) (df_by_language : list (string * dataframe))
    (batch_size : Z) (conf_th conf_th' : Qc)
    (res : list (string * prediction)) :
  (conf_th ≤ conf_th')%Qc →
  predict_with_probabilities model softmax model_is_file df_by_language
    batch_size conf_th = Ok res →
  ∃ res',
    predict_with_probabilities model softmax model_is_file df_by_language
      batch_size conf_th' = Ok res' ∧
    Forall2 (λ e e', e'.1 = e.1 ∧ fewer_toxic e.2 e'.2) res res'.
Proof.
  intros Hc. unfold predict_with_probabilities.
  destruct model_is_file; [|done]. cbn [assert mbind result_bind rbind].
  apply predict_languages_threshold; [done|constructor].
Qed.

Lemma higher_threshold_fewer_toxic_witness :
  ∃ res res',
    predict_with_probabilities (fmap keyword_scores) id true two_languages 2
      (Q2Qc (1 # 2)) = Ok res ∧
    predict_with_probabilities (fmap keyword_scores) id true two_languages 2
      (Q2Qc (9 # 10)) = Ok res' ∧
    Forall2 (λ e e', e'.1 = e.1 ∧ fewer_toxic e.2 e'.2) res res'.
Proof.
  destruct (predict_with_probabilities (fmap keyword_scores) id true
              two_languages 2 (Q2Qc (1 # 2))) as [res|] eqn:Hrun;
    [|by vm_compute in Hrun].
  destruct (higher_threshold_fewer_toxic (fmap keyword_scores) id true
              two_languages 2 (Q2Qc (1 # 2)) (Q2Qc (9 # 10)) res)
    as (res' & Hrun' & Hrel); [by vm_compute|done|].
  by exists res, res'.
Defined.

(** ** scikit-learn: the confusion matrix *)

Lemma elem_of_unique_labels x y_true y_pred :
  x ∈ Sk.unique_labels y_true y_pred ↔ x ∈ y_true ++ y_pred.
Proof.
  unfold Sk.unique_labels. rewrite merge_sort_Permutation.
  apply elem_of_remove_dups.
Qed.

Lemma NoDup_unique_labels y_true y_pred :
  NoDup (Sk.unique_labels y_true y_pred).
Proof.
  unfold Sk.unique_labels. rewrite merge_sort_Permutation.
  apply NoDup_remove_dups.
Qed.

Lemma length_unique_labels y_true y_pred :
  length (Sk.unique_labels y_true y_pred) =
  length (remove_dups (y_true ++ y_pred)).
Proof. unfold Sk.unique_labels. by rewrite merge_sort_Permutation. Qed.

(** The sum of a row of counts: the samples with the true label of the
    row. *)
Lemma count_row_sum (labels : list Z) (samples : list (Z * Z)) (t : Z) :
  NoDup labels →
  foldr Z.add 0
    ((λ p, Z.of_nat (length (filter (λ s, s = (t, p)) samples))) <$> labels) =
  Z.of_nat (length (filter (λ s, s.1 = t ∧ s.2 ∈ labels) samples)).
Proof.
  induction 1 as [|p labels Hp _ IH].
  - simpl. rewrite filter_none; [done|].
    apply Forall_forall. intros s _ [_ Hs]. by apply elem_of_nil in Hs.
  - rewrite fmap_cons. cbn [foldr]. rewrite IH. clear IH.
    induction samples as [|[a b] samples IH]; [done|].
    rewrite !filter_cons. simpl.
    destruct (decide (a = t)) as [->|Hat].
    + destruct (decide (b = p)) as [->|Hbp].
      * rewrite decide_True by done.
        rewrite (decide_False (P := t = t ∧ p ∈ labels)) by (by intros [_ ?]).
        rewrite decide_True by (split; [done|by left]).
        simpl. lia.
      * rewrite decide_False by congruence.
        destruct (decide (b ∈ labels)) as [Hb|Hb].
        -- rewrite decide_True by done.
           rewrite decide_True by (split; [done|by right]). simpl. lia.
        -- rewrite decide_False by (by intros [_ ?]).
           rewrite decide_False; [lia|].
           intros [_ [?|?]%elem_of_cons]; done.
    + rewrite decide_False by congruence.
      rewrite decide_False by (by intros [? _]).
      rewrite decide_False by (by intros [? _]). lia.
Qed.

Lemma length_filter_zero {A} (P : A → Prop) `{∀ x, Decision (P x)} (l : list A) :
  length (filter P l) = 0%nat ↔ Forall (λ a, ¬ P a) l.
Proof.
  induction l as [|a l IH]; [by split; [constructor|]|].
  rewrite filter_cons. destruct (decide (P a)) as [Ha|Ha]; simpl.
  - split; [done|]. by intros [? _]%Forall_cons.
  - rewrite IH. split; [by constructor|]. by intros [_ ?]%Forall_cons.
Qed.

Lemma Qc_of_Z_pos (z : Z) : 0 < z → (0 < Qc_of_Z z)%Qc.
Proof. intros Hz%Z2Qc_inj_lt. by rewrite Z2Qc_inj_0 in Hz. Qed.

Lemma Qc_of_Z_ne_0 (n : Z) : n ≠ 0 → Qc_of_Z n ≠ 0%Qc.
Proof. intros Hn. rewrite <-Z2Qc_inj_0. by intros ?%Z2Qc_inj. Qed.

Lemma Qc_fraction_le_1 (a b : Z) :
  0 ≤ a ≤ b → (Qc_of_Z a / Qc_of_Z b ≤ 1)%Qc.
Proof.
  intros [Ha Hab]. destruct (decide (b = 0)) as [->|Hb].
  - assert (a = 0) as -> by lia. unfold Qcdiv.
    rewrite Z2Qc_inj_0, Qcmult_0_l. by vm_compute.
  - assert (0 < Qc_of_Z b)%Qc as Hpos by (apply Qc_of_Z_pos; lia).
    rewrite <-(Qcmult_inv_r (Qc_of_Z b)).
    + unfold Qcdiv. apply Qcmult_le_mono_nonneg_r.
      * by apply Qclt_le_weak, Qcinv_pos.
      * by apply Z2Qc_inj_le in Hab.
    + intros Heq. rewrite Heq in Hpos. by apply Qclt_not_eq in Hpos.
Qed.

Lemma Qc_fraction_1 (b : Z) : b ≠ 0 → (Qc_of_Z b / Qc_of_Z b = 1)%Qc.
Proof.
  intros Hb. apply Qcmult_inv_r. rewrite <-Z2Qc_inj_0. by intros ?%Z2Qc_inj.
Qed.

Lemma foldr_add_nonneg (cs : list Z) :
  Forall (λ c, 0 ≤ c) cs → 0 ≤ foldr Z.add 0 cs ∧ Forall (λ c, c ≤ foldr Z.add 0 cs) cs.
Proof.
  induction 1 as [|c cs Hc _ [IH1 IH2]]; simpl; [by split; [|constructor]|].
  split; [lia|]. constructor; [lia|].
  eapply Forall_impl; [done|]. intros x ?. simpl in *. lia.
Qed.

Lemma float64_0 : Np.float64 0 = 0%Qc.
Proof. done. Qed.

(** A fraction in percent, in double precision. *)
Lemma float64_percent (x : Qc) :
  (0 ≤ x)%Qc → (x ≤ 1)%Qc →
  (0 ≤ Np.float64 (x * Qc_of_Z 100))%Qc ∧
  (Np.float64 (x * Qc_of_Z 100) ≤ Qc_of_Z 100)%Qc.
Proof.
  intros H0 H1. split.
  - apply float64_nonneg, Qcmult_nonneg_nonneg; [done|].
    by apply Qc_of_Z_nonneg.
  - rewrite <-float64_100 at 2. apply float64_mono.
    rewrite <-(Qcmult_1_l (Qc_of_Z 100)) at 2.
    apply Qcmult_le_mono_nonneg_r; [by apply Qc_of_Z_nonneg|done].
Qed.

(** [np.round] keeps a number between 0 and a bound [B] that it leaves
    unchanged. *)
Lemma around_bounds (decimals : nat) (B : Z) (x : Qc) :
  0 ≤ B →
  Np.float64 (Qc_of_Z (B * 10 ^ Z.of_nat decimals)) =
    Qc_of_Z (B * 10 ^ Z.of_nat decimals) →
  Np.float64 (Qc_of_Z B) = Qc_of_Z B →
  (0 ≤ x)%Qc → (x ≤ Qc_of_Z B)%Qc →
  (0 ≤ Np.around decimals x)%Qc ∧ (Np.around decimals x ≤ Qc_of_Z B)%Qc.
Proof.
  intros HB Hscaled Hfix H0 H1. unfold Np.around.
  set (k := 10 ^ Z.of_nat decimals) in *.
  assert (0 < k) as Hk by (apply Z.pow_pos_nonneg; lia).
  assert (0 < Qc_of_Z k)%Qc as Hk' by (by apply Qc_of_Z_pos).
  assert (Qc_of_Z k ≠ 0%Qc) as Hk0 by (apply Qc_of_Z_ne_0; lia).
  set (y := Np.float64 (x * Qc_of_Z k)).
  assert (0 ≤ y)%Qc as Hy0.
  { apply float64_nonneg, Qcmult_nonneg_nonneg; [done|].
    by apply Qclt_le_weak. }
  assert (y ≤ Qc_of_Z (B * k))%Qc as Hy1.
  { rewrite <-Hscaled. apply float64_mono. rewrite Z2Qc_inj_mul.
    apply Qcmult_le_mono_nonneg_r; [by apply Qclt_le_weak|done]. }
  assert (0 ≤ Py.round_half_even y ≤ B * k) as Hz.
  { split.
    - rewrite <-(round_half_even_Z 0). apply round_half_even_mono.
      by rewrite Z2Qc_inj_0.
    - rewrite <-(round_half_even_Z (B * k)). by apply round_half_even_mono. }
  split.
  - apply float64_nonneg, Qcdiv_nonneg; [|by apply Qclt_le_weak].
    apply Qc_of_Z_nonneg. lia.
  - rewrite <-Hfix. apply float64_mono.
    apply (Qcmult_le_mono_pos_r _ _ (Qc_of_Z k)); [done|].
    unfold Qcdiv. rewrite <-Qcmult_assoc, (Qcmult_comm (/ _)),
      Qcmult_inv_r, Qcmult_1_r by done.
    rewrite <-Z2Qc_inj_mul. apply (proj1 (Z2Qc_inj_le _ _)). lia.
Qed.

Lemma around_percent (decimals : nat) (x : Qc) :
  (decimals = 1 ∨ decimals = 2)%nat →
  (0 ≤ x)%Qc → (x ≤ Qc_of_Z 100)%Qc →
  (0 ≤ Np.around decimals x)%Qc ∧ (Np.around decimals x ≤ Qc_of_Z 100)%Qc.
Proof.
  intros Hd. apply around_bounds; [lia| |apply float64_100].
  destruct Hd as [-> | ->]; apply Qc_is_canon; by vm_compute.
Qed.

(** A row of the normalised matrix, in percent: its cells lie between 0
    and 100, and all of them are zero when the row has no samples. *)
Lemma percent_row (cs : list Z) :
  Forall (λ c, 0 ≤ c) cs →
  let total := foldr Z.add 0 cs in
  let row := (λ x, Np.float64 (x * Qc_of_Z 100)) <$>
               ((λ c, if bool_decide (total = 0) then 0%Qc
                      else Np.float64 (Qc_of_Z c / Qc_of_Z total)) <$> cs) in
  (total = 0 → Forall (λ x, x = 0%Qc) row) ∧
  Forall (λ x, 0 ≤ x ∧ x ≤ Qc_of_Z 100)%Qc row.
Proof.
  intros Hcs total row. subst row.
  destruct (foldr_add_nonneg cs Hcs) as [Htotal Hle]. fold total in Htotal, Hle.
  case_bool_decide as Hzero.
  - split.
    + intros _. rewrite !Forall_fmap. apply Forall_forall. intros c _. simpl.
      by rewrite Qcmult_0_l.
    + rewrite !Forall_fmap. apply Forall_forall. intros c _. simpl.
      rewrite Qcmult_0_l, float64_0. split; [done|]. by apply Qc_of_Z_nonneg.
  - split; [done|].
    rewrite !Forall_fmap. rewrite Forall_forall in Hcs, Hle.
    apply Forall_forall. intros c Hc. simpl.
    apply float64_percent; apply float64_unit.
    + apply Qcdiv_nonneg; apply Qc_of_Z_nonneg; [by apply Hcs|done].
    + apply Qc_fraction_le_1. split; [by apply Hcs|by apply Hle].
    + apply Qcdiv_nonneg; apply Qc_of_Z_nonneg; [by apply Hcs|done].
    + apply Qc_fraction_le_1. split; [by apply Hcs|by apply Hle].
Qed.

(** The samples that [zip] pairs: with arrays of one length, every true
    label is the first component of a sample. *)
Lemma elem_of_zip_fst {A B} (a : list A) (b : list B) x :
  length a = length b → x ∈ a → ∃ y, (x, y) ∈ zip a b.
Proof.
  intros Hlen (i & Hi)%list_elem_of_lookup_1.
  destruct (lookup_lt_is_Some_2 b i) as [y Hy].
  { rewrite <-Hlen. by eapply lookup_lt_Some. }
  exists y. apply list_elem_of_lookup_2 with i.
  apply lookup_zip_with_Some. eauto.
Qed.

(** Row [t] of the matrix that [confusion_matrix] returns, in percent. *)
Lemma confusion_row (y_true y_pred : list Z) (t : Z) :
  length y_true = length y_pred →
  let labels := Sk.unique_labels y_true y_pred in
  let counts := (λ p, Z.of_nat (length (filter (λ s, s = (t, p))
                                          (zip y_true y_pred)))) <$> labels in
  Forall (λ c, 0 ≤ c) counts ∧
  (foldr Z.add 0 counts ≠ 0 ↔ t ∈ y_true).
Proof.
  intros Hlen labels counts. split.
  { subst counts. rewrite Forall_fmap. apply Forall_forall. intros p _. simpl. lia. }
  subst counts. rewrite count_row_sum by apply NoDup_unique_labels.
  rewrite <-Nat2Z.inj_0, Nat2Z.inj_iff, length_filter_zero.
  split.
  - intros Hex. apply not_Forall_Exists in Hex; [|intros s; apply _].
    apply Exists_exists in Hex as ([a b] & Hin & Hab).
    apply dec_stable in Hab as [<- _]. simpl.
    by apply elem_of_zip_l in Hin.
  - intros Ht Hall. destruct (elem_of_zip_fst _ y_pred _ Hlen Ht) as [y Hy].
    rewrite Forall_forall in Hall. apply (Hall _ Hy). split; [done|].
    simpl. apply elem_of_unique_labels, elem_of_app. right.
    by apply elem_of_zip_r in Hy.
Qed.

(** ** Confusion Matrix Reporter: the drawing loop *)

Lemma show_confusion_matrix_length d merged :
  show_confusion_matrix d = Ok merged → length merged = 4%nat.
Proof. unfold show_confusion_matrix. intros H. inv_Ok. by subst. Qed.

Lemma draw_panel_Ok i lang true_ preds p :
  draw_panel i lang (true_, preds) = Ok p ↔
  length true_ = length preds ∧ (i < 4)%nat ∧
  p = let cm := Np.times
                  (Sk.normalize_true
                     (Sk.count_matrix (Sk.unique_labels true_ preds)
                        (zip true_ preds)))
                  (Qc_of_Z 100) in
      Panel (i `div` 2, i `mod` 2)%nat (Py.title lang) cm
        (Np.around 2 <$>
           ((λ a, Np.float64 (a * Qc_of_Z 100)) <$>
              Np.mean (zip_with (λ t p, bool_decide (t = p)) true_ preds)))
        ((λ row : list Qc, Np.around 1 <$> row) <$> cm).
Proof.
  unfold draw_panel, Sk.confusion_matrix, Np.index2.
  destruct (decide (length true_ = length preds)) as [Hlen|Hlen].
  2: { rewrite (bool_decide_eq_false_2 _ Hlen). simpl. split; [done|].
       by intros [? _]. }
  rewrite (bool_decide_eq_true_2 _ Hlen).
  pose proof (Nat.mod_upper_bound i 2 ltac:(lia)) as Hmod.
  pose proof (Nat.div_mod_eq i 2) as Hdiv.
  set (a := (i `div` 2)%nat) in *. set (b := (i `mod` 2)%nat) in *. simpl.
  case_bool_decide as Hi; simpl.
  - split; [intros [= <-]|by intros (_ & _ & ->)].
    split_and!; [done|lia|done].
  - split; [done|]. intros (_ & Hlt & _). destruct Hi. lia.
Qed.

Lemma draw_panel_Raise i lang true_ preds e :
  draw_panel i lang (true_, preds) = Raise e ↔
  (length true_ ≠ length preds ∧ e = ValueError) ∨
  (length true_ = length preds ∧ (4 ≤ i)%nat ∧ e = IndexError).
Proof.
  destruct (draw_panel i lang (true_, preds)) as [p|e'] eqn:Hrun.
  - apply draw_panel_Ok in Hrun as (? & ? & _). split; [done|].
    intros [[? _]|(_ & ? & _)]; [done|lia].
  - revert Hrun. unfold draw_panel, Sk.confusion_matrix, Np.index2.
    destruct (decide (length true_ = length preds)) as [Hlen|Hlen].
    + rewrite (bool_decide_eq_true_2 _ Hlen).
      pose proof (Nat.mod_upper_bound i 2 ltac:(lia)) as Hmod.
      pose proof (Nat.div_mod_eq i 2) as Hdiv.
      set (a := (i `div` 2)%nat) in *. set (b := (i `mod` 2)%nat) in *. simpl.
      case_bool_decide as Hi; simpl; [done|]. intros [= <-].
      assert (4 ≤ i)%nat by lia.
      split.
      * intros [= <-]. by right.
      * by intros [[? _]|(_ & _ & ->)].
    + rewrite (bool_decide_eq_false_2 _ Hlen). simpl. intros [= <-]. split.
      * intros [= <-]. by left.
      * by intros [[_ ->]|[? _]].
Qed.

Lemma draw_panels_Ok_inv items ps :
  draw_panels items = Ok ps →
  Forall2 (λ p it, draw_panel it.1 it.2.1 it.2.2 = Ok p) ps items.
Proof.
  revert ps. induction items as [|[i [lang values]] items IH]; intros ps.
  - intros [= <-]. constructor.
  - simpl. intros H. apply bind_Ok in H as (p & Hp & H).
    apply bind_Ok in H as (ps' & Hps & H). injection H as <-.
    constructor; [done|by apply IH].
Qed.

(** With at most four entries the loop fails only on an entry whose label
    sequences differ in length. *)
Lemma draw_panels_outcome k (items : list (string * (list Z * list Z))) :
  (k + length items ≤ 4)%nat →
  if decide (Forall (λ e, length e.2.1 = length e.2.2) items)
  then ∃ ps, draw_panels (Py.enumerate_from k items) = Ok ps ∧
             length ps = length items
  else draw_panels (Py.enumerate_from k items) = Raise ValueError.
Proof.
  revert k. induction items as [|[lang [true_ preds]] items IH]; intros k Hk.
  { rewrite decide_True by apply Forall_nil_2. by exists []. }
  simpl in Hk. specialize (IH (S k) ltac:(lia)).
  cbn [Py.enumerate_from draw_panels].
  destruct (draw_panel k lang (true_, preds)) as [p|e] eqn:Hp;
    cbn [mbind result_bind rbind].
  - apply draw_panel_Ok in Hp as (Hlen & _ & _).
    destruct (decide (Forall _ items)) as [Hall|Hall].
    + rewrite decide_True by (by apply Forall_cons).
      destruct IH as (ps & -> & Hps). exists (p :: ps).
      split; [done|]. simpl. by rewrite Hps.
    + rewrite decide_False by (by intros [_ ?]%Forall_cons).
      by rewrite IH.
  - apply draw_panel_Raise in Hp as [[Hlen ->]|(_ & ? & _)]; [|lia].
    by rewrite decide_False by (by intros [? _]%Forall_cons).
Qed.

Lemma lookup_enumerate_from {A} (k : nat) (l : list A) j :
  Py.enumerate_from k l !! j = (λ x, ((k + j)%nat, x)) <$> l !! j.
Proof.
  revert k j. induction l as [|x l IH]; intros k [|j]; simpl; try done.
  - by rewrite Nat.add_0_r.
  - rewrite IH. by replace (S k + j)%nat with (k + S j)%nat by lia.
Qed.

Lemma draw_Ok_inv d panels :
  draw_confusion_matrices d = Ok panels →
  ∃ merged,
    show_confusion_matrix d = Ok merged ∧
    Forall2 (λ p e, ∃ i, draw_panel i e.1 e.2 = Ok p) panels merged.
Proof.
  unfold draw_confusion_matrices. intros H.
  apply bind_Ok in H as (merged & Hm & H). exists merged. split; [done|].
  apply draw_panels_Ok_inv in H.
  apply Forall2_same_length_lookup. split.
  - apply Forall2_length in H. rewrite H. clear.
    generalize 0%nat. induction merged; intros; simpl; [done|]. f_equal. eauto.
  - intros j p e Hp He.
    eapply Forall2_lookup_lr in H; [| done |].
    2: { rewrite lookup_enumerate_from, He. done. }
    simpl in H. eauto.
Qed.

(** *** The accuracy of a panel *)

Lemma length_filter_all {A} (P : A → Prop) `{∀ x, Decision (P x)} (l : list A) :
  length (filter P l) = length l ↔ Forall P l.
Proof.
  induction l as [|a l IH]; [by split; [constructor|]|].
  rewrite filter_cons. pose proof (length_filter P l) as Hle.
  destruct (decide (P a)) as [Ha|Ha]; simpl.
  - split.
    + intros [= Hl]. constructor; [done|by apply IH].
    + intros [_ Hl]%Forall_cons. f_equal. by apply IH.
  - split; [lia|]. by intros [? _]%Forall_cons.
Qed.

Lemma Forall_zip_matches (a b : list Z) :
  length a = length b →
  Forall (λ x, x = true) (zip_with (λ t p, bool_decide (t = p)) a b) ↔ a = b.
Proof.
  revert b. induction a as [|x a IH]; intros [|y b] Hlen; simpl in *; try done.
  split.
  - intros [Hxy Hab]%Forall_cons. apply bool_decide_eq_true in Hxy as ->.
    f_equal. apply IH; [lia|done].
  - intros [= -> ->]. constructor; [by apply bool_decide_eq_true|].
    by apply IH.
Qed.

Lemma Forall_zip_mismatches (a b : list Z) :
  length a = length b →
  Forall (λ x, ¬ x = true) (zip_with (λ t p, bool_decide (t = p)) a b) ↔
  Forall2 (λ t p, t ≠ p) a b.
Proof.
  revert b. induction a as [|x a IH]; intros [|y b] Hlen; simpl in *;
    try done; try (by split; constructor).
  split.
  - intros [Hxy Hab]%Forall_cons. constructor.
    + intros ->. apply Hxy. by apply bool_decide_eq_true.
    + apply IH; [lia|done].
  - intros [Hxy Hab]%Forall2_cons. constructor.
    + by intros ?%bool_decide_eq_true.
    + apply IH; [lia|done].
Qed.

Lemma around_2_100 : Np.around 2 (Qc_of_Z 100) = Qc_of_Z 100.
Proof. apply Qc_is_canon. by vm_compute. Qed.

Lemma around_2_0 : Np.around 2 0 = 0%Qc.
Proof. apply Qc_is_canon. by vm_compute. Qed.

(** The accuracy in the title of a panel whose label sequences have one
    length. *)
Lemma panel_accuracy_spec (true_ preds : list Z) :
  length true_ = length preds →
  let accuracy :=
    Np.around 2 <$>
      ((λ a, Np.float64 (a * Qc_of_Z 100)) <$>
         Np.mean (zip_with (λ t p, bool_decide (t = p)) true_ preds)) in
  (accuracy = None ↔ true_ = []) ∧
  (∀ a, accuracy = Some a →
     (0 ≤ a)%Qc ∧ (a ≤ Qc_of_Z 100)%Qc ∧
     (true_ = preds → a = Qc_of_Z 100) ∧
     (Forall2 (λ t p, t ≠ p) true_ preds → a = 0%Qc)).
Proof.
  intros Hlen accuracy. subst accuracy.
  pose proof (Forall_zip_matches _ _ Hlen) as Hall.
  pose proof (Forall_zip_mismatches _ _ Hlen) as Hnone.
  assert (length (zip_with (λ t p, bool_decide (t = p)) true_ preds) =
          length true_) as Hn.
  { rewrite length_zip_with. lia. }
  set (bools := zip_with (λ t p, bool_decide (t = p)) true_ preds) in *.
  destruct (decide (true_ = [])) as [->|Hne].
  { simpl. by split. }
  assert (Z.of_nat (length bools) ≠ 0) as Hpos.
  { rewrite Hn. destruct true_; [done|simpl; lia]. }
  assert (Np.mean bools =
          Some (Np.float64
                  (Qc_of_Z (Z.of_nat (length (filter (λ x, x = true) bools))) /
                   Qc_of_Z (Z.of_nat (length bools))))) as ->.
  { destruct bools; [done|reflexivity]. }
  set (m := Z.of_nat (length (filter (λ x, x = true) bools))).
  assert (0 ≤ m ≤ Z.of_nat (length bools)) as Hm.
  { subst m. pose proof (length_filter (λ x, x = true) bools). lia. }
  cbn [fmap option_fmap option_map].
  split.
  - split; [done|]. by intros ->.
  - intros a Ha. apply (inj Some) in Ha. subst a.
    assert (0 ≤ Qc_of_Z m / Qc_of_Z (Z.of_nat (length bools)))%Qc as Hq0.
    { apply Qcdiv_nonneg; apply Qc_of_Z_nonneg; lia. }
    assert (Qc_of_Z m / Qc_of_Z (Z.of_nat (length bools)) ≤ 1)%Qc as Hq1
      by (by apply Qc_fraction_le_1).
    destruct (float64_unit _ Hq0 Hq1) as [Hf0 Hf1].
    destruct (float64_percent _ Hf0 Hf1) as [Hp0 Hp1].
    destruct (around_percent 2 _ ltac:(by right) Hp0 Hp1) as [Ha0 Ha1].
    split_and!; [done|done| |].
    + intros Heq. apply Hall in Heq.
      apply (length_filter_all (λ x : bool, x = true)) in Heq.
      assert (m = Z.of_nat (length bools)) as -> by (subst m; lia).
      rewrite Qc_fraction_1, float64_1, Qcmult_1_l, float64_100 by done.
      apply around_2_100.
    + intros Hdiff. apply Hnone in Hdiff.
      apply (length_filter_zero (λ x : bool, x = true)) in Hdiff.
      assert (m = 0) as -> by (subst m; lia).
      unfold Qcdiv. rewrite Z2Qc_inj_0, !Qcmult_0_l, float64_0.
      apply around_2_0.
Qed.

Lemma show_confusion_matrix_Raise d e :
  show_confusion_matrix d = Raise e →
  e = AssertionError size_msg ∨ e = AssertionError entries_msg.
Proof.
  unfold show_confusion_matrix.
  destruct (bool_decide (length _ = length _)); simpl.
  - destruct (bool_decide (length _ = 4%nat)); simpl; [done|].
    intros [= <-]. by right.
  - intros [= <-]. by left.
Qed.

(** Without an entry keyed [ALL_LANGUAGES] the merged mapping is the
    input followed by the pooled view. *)
Lemma show_confusion_matrix_fresh d merged :
  ALL_LANGUAGES ∉ Py.keys d →
  show_confusion_matrix d = Ok merged →
  merged = (prod_map id panel_labels <$> d) ++
           [(ALL_LANGUAGES, (concat (true_labels <$> d.*2),
                             concat (pred_labels <$> d.*2)))] ∧
  length (concat (true_labels <$> d.*2)) =
  length (concat (pred_labels <$> d.*2)) ∧
  length d = 3%nat.
Proof.
  intros Hkey. unfold show_confusion_matrix. rewrite pool_labels_concat.
  simpl. intros H.
  apply bind_Ok in H as ([] & Hsize%assert_Ok%bool_decide_eq_true & H).
  apply bind_Ok in H as ([] & Hcount%assert_Ok%bool_decide_eq_true & H).
  injection H as <-.
  rewrite length_merged, decide_False in Hcount by done.
  rewrite dict_set_fresh by (by rewrite keys_panels).
  split_and!; [done|done|lia].
Qed.

(** The outcome of the drawing loop on the merged mapping. *)
Lemma draw_confusion_matrices_outcome d merged :
  show_confusion_matrix d = Ok merged →
  (Forall (λ e, length e.2.1 = length e.2.2) merged →
   ∃ panels, draw_confusion_matrices d = Ok panels ∧
             length panels = 4%nat) ∧
  (¬ Forall (λ e, length e.2.1 = length e.2.2) merged →
   draw_confusion_matrices d = Raise ValueError).
Proof.
  intros Hshow. unfold draw_confusion_matrices. rewrite Hshow.
  cbn [mbind result_bind rbind].
  pose proof (show_confusion_matrix_length _ _ Hshow) as Hlen.
  pose proof (draw_panels_outcome 0 merged ltac:(lia)) as Hout.
  split; intros Hall.
  - rewrite decide_True in Hout by done.
    destruct Hout as (ps & -> & Hps). exists ps. split; [done|congruence].
  - by rewrite decide_False in Hout.
Qed.

(** X6: the drawing loop of [show_confusion_matrix] never indexes outside the
    2x2 grid of axes: no input makes it raise [IndexError], and when it
    returns, its panels are on the axes (0,0), (0,1), (1,0) and (1,1), in
    this order. *)
Theorem panels_fill_the_grid (d : list (string * prediction)) :
  draw_confusion_matrices d ≠ Raise IndexError ∧
  ∀ panels, draw_confusion_matrices d = Ok panels →
    panel_axes <$> panels = [(0, 0); (0, 1); (1, 0); (1, 1)]%nat.
Proof.
  destruct (show_confusion_matrix d) as [merged|e] eqn:Hshow.
  - pose proof (show_confusion_matrix_length _ _ Hshow) as Hlen.
    destruct (draw_confusion_matrices_outcome _ _ Hshow) as [Hok Hraise].
    split.
    + destruct (decide (Forall (λ e, length e.2.1 = length e.2.2) merged))
        as [Hall|Hall].
      * destruct (Hok Hall) as (ps & -> & _). done.
      * by rewrite (Hraise Hall).
    + intros panels. unfold draw_confusion_matrices. rewrite Hshow.
      cbn [mbind result_bind rbind]. intros Hrun%draw_panels_Ok_inv.
      destruct merged as [|[l0 [t0 p0]] [|[l1 [t1 p1]] [|[l2 [t2 p2]]
        [|[l3 [t3 p3]] [|? ?]]]]]; try done.
      cbn [Py.enumerate_from] in Hrun.
      repeat (apply Forall2_cons_inv_r in Hrun
                as (? & ? & (_ & _ & ->)%draw_panel_Ok & Hrun & ->)).
      apply Forall2_nil_inv_r in Hrun as ->. reflexivity.
  - unfold draw_confusion_matrices. rewrite Hshow.
    apply show_confusion_matrix_Raise in Hshow as [->| ->];
      split; try done; intros panels; done.
Qed.

(** X7: for three languages, none of them keyed [ALL_LANGUAGES], whose pooled
    true and predicted labels have the same length, so that both assertions
    of [show_confusion_matrix] pass: four panels are drawn when every
    language has as many predicted as true labels, and otherwise
    [confusion_matrix] raises [ValueError]; the size assertion does not
    catch languages whose differences cancel out. *)
Theorem misaligned_language_raises_ValueError
    (d : list (string * prediction)) :
  ALL_LANGUAGES ∉ Py.keys d →
  length d = 3%nat →
  length (concat (true_labels <$> d.*2)) =
  length (concat (pred_labels <$> d.*2)) →
  (Forall (λ m, length (true_labels m) = length (pred_labels m)) d.*2 →
   ∃ panels, draw_confusion_matrices d = Ok panels ∧
             length panels = 4%nat) ∧
  (¬ Forall (λ m, length (true_labels m) = length (pred_labels m)) d.*2 →
   draw_confusion_matrices d = Raise ValueError).
Proof.
  intros Hkey Hlen Hpool.
  destruct (show_confusion_matrix d) as [merged|e] eqn:Hshow.
  2: { exfalso. revert Hshow. unfold show_confusion_matrix.
       rewrite pool_labels_concat. simpl.
       rewrite (bool_decide_eq_true_2 _ Hpool). simpl.
       rewrite length_merged, decide_False by done.
       rewrite bool_decide_eq_true_2 by lia. done. }
  destruct (draw_confusion_matrices_outcome _ _ Hshow) as [Hok Hraise].
  apply show_confusion_matrix_fresh in Hshow as (-> & _ & _); [|done].
  assert (Forall (λ e : string * (list Z * list Z),
                    length e.2.1 = length e.2.2)
            ((prod_map id panel_labels <$> d) ++
             [(ALL_LANGUAGES, (concat (true_labels <$> d.*2),
                               concat (pred_labels <$> d.*2)))]) ↔
          Forall (λ m, length (true_labels m) = length (pred_labels m)) d.*2)
    as Hiff.
  { rewrite Forall_app, Forall_singleton, !Forall_fmap. simpl.
    split; [intros [Hd _]|intros Hd; split; [|done]];
      (eapply Forall_impl; [exact Hd|]); by intros [lang m]. }
  split; intros Hd.
  - apply Hok. by apply Hiff.
  - apply Hraise. by rewrite Hiff.
Qed.

Lemma misaligned_language_raises_ValueError_witness :
  length (concat (true_labels <$> cancelling_entries.*2)) =
  length (concat (pred_labels <$> cancelling_entries.*2)) ∧
  draw_confusion_matrices cancelling_entries = Raise ValueError.
Proof.
  split; [reflexivity|].
  apply (misaligned_language_raises_ValueError cancelling_entries).
  - unfold Py.keys. simpl. rewrite !not_elem_of_cons.
    split_and!; [done..|apply not_elem_of_nil].
  - reflexivity.
  - reflexivity.
  - intros [Hen _]%Forall_cons. simpl in Hen. lia.
Defined.

(** X8: in every panel that [show_confusion_matrix] draws, the matrix has one
    row per label, in increasing order of the labels of the panel; every
    cell of the matrix, and every number written into a cell, lies between
    0 and 100, and the row of a label that occurs among the predictions
    only is 0 throughout. *)
Theorem confusion_cells_are_percentages (d : list (string * prediction))
    (panels : list panel) :
  draw_confusion_matrices d = Ok panels →
  ∃ merged,
    show_confusion_matrix d = Ok merged ∧
    Forall2 (λ p e,
        Forall2 (λ l row,
            (l ∉ e.2.1 → Forall (λ x, x = 0%Qc) row) ∧
            Forall (λ x, (0 ≤ x)%Qc ∧ (x ≤ Qc_of_Z 100)%Qc) row)
          (Sk.unique_labels e.2.1 e.2.2) (panel_cm p) ∧
        Forall (Forall (λ x, (0 ≤ x)%Qc ∧ (x ≤ Qc_of_Z 100)%Qc))
          (panel_texts p))
      panels merged.
Proof.
  intros (merged & Hshow & Hall)%draw_Ok_inv. exists merged. split; [done|].
  eapply Forall2_impl; [exact Hall|].
  intros p [lang [true_ preds]] (i & (Hlen & _ & ->)%draw_panel_Ok).
  cbn [panel_cm panel_texts fst snd].
  unfold Np.times, Sk.normalize_true, Sk.count_matrix.
  rewrite <-!list_fmap_compose.
  assert (∀ t,
    let counts := (λ p, Z.of_nat (length (filter (λ s, s = (t, p))
                                            (zip true_ preds))))
                    <$> Sk.unique_labels true_ preds in
    let row := (λ x, Np.float64 (x * Qc_of_Z 100)) <$>
                 ((λ c, if bool_decide (foldr Z.add 0 counts = 0) then 0%Qc
                        else Np.float64
                               (Qc_of_Z c / Qc_of_Z (foldr Z.add 0 counts)))
                    <$> counts) in
    (t ∉ true_ → Forall (λ x, x = 0%Qc) row) ∧
    Forall (λ x, (0 ≤ x)%Qc ∧ (x ≤ Qc_of_Z 100)%Qc) row) as Hrow.
  { intros t counts row.
    destruct (confusion_row true_ preds t Hlen) as [Hpos Hsum].
    destruct (percent_row _ Hpos) as (H0 & Hrange).
    split; [|exact Hrange]. intros Ht. apply H0.
    destruct (decide (foldr Z.add 0 counts = 0)) as [|Hne]; [done|].
    by apply Hsum in Hne. }
  split.
  - apply Forall2_fmap_r, Forall_Forall2_diag.
    apply Forall_forall. intros t _. apply Hrow.
  - rewrite Forall_fmap. apply Forall_forall. intros t _. simpl.
    rewrite Forall_fmap. destruct (Hrow t) as [_ Hrange].
    eapply Forall_impl; [exact Hrange|].
    intros x [Hx0 Hx1]. simpl. by apply around_percent; [left|..].
Qed.

Lemma binary_distinct_labels (l : list Z) :
  binary_labels l →
  (length (remove_dups l) ≤ 2)%nat ∧
  (length (remove_dups l) = 2%nat ↔ 0 ∈ l ∧ 1 ∈ l).
Proof.
  intros Hbin. unfold binary_labels in Hbin. rewrite Forall_forall in Hbin.
  pose proof (NoDup_remove_dups l) as Hnd.
  assert (remove_dups l ⊆+ [0; 1]) as Hsub.
  { apply NoDup_submseteq; [done|]. intros x Hx.
    rewrite elem_of_remove_dups in Hx.
    destruct (Hbin x Hx) as [-> | ->]; [by left|right; by left]. }
  pose proof (submseteq_length _ _ Hsub) as Hle. simpl in Hle.
  split; [done|]. split.
  - intros Hlen.
    assert (remove_dups l ≡ₚ [0; 1]) as Hperm.
    { apply submseteq_length_Permutation; [done|]. simpl. lia. }
    split; apply elem_of_remove_dups; rewrite Hperm;
      [by left|right; by left].
  - intros [H0 H1].
    assert ([0; 1] ⊆+ remove_dups l) as Hsup.
    { apply NoDup_submseteq.
      - repeat constructor; [|apply not_elem_of_nil].
        by intros ?%list_elem_of_singleton.
      - intros x [->|[->|?%elem_of_nil]%elem_of_cons]%elem_of_cons;
          [| |done]; by apply elem_of_remove_dups. }
    apply submseteq_length in Hsup. simpl in Hsup. lia.
Qed.

(** X9: the matrix of every panel that [show_confusion_matrix] draws is
    square, its side being the number of distinct labels among the true and
    the predicted labels of the panel; with labels that are 0 or 1 it is at
    most 2x2, and 2x2 exactly when both 0 and 1 occur. *)
Theorem confusion_matrix_shape (d : list (string * prediction))
    (panels : list panel) :
  draw_confusion_matrices d = Ok panels →
  ∃ merged,
    show_confusion_matrix d = Ok merged ∧
    Forall2 (λ p e,
        let n := length (remove_dups (e.2.1 ++ e.2.2)) in
        length (panel_cm p) = n ∧
        Forall (λ row, length row = n) (panel_cm p) ∧
        (binary_labels e.2.1 → binary_labels e.2.2 →
         (n ≤ 2)%nat ∧
         (n = 2%nat ↔ 0 ∈ e.2.1 ++ e.2.2 ∧ 1 ∈ e.2.1 ++ e.2.2)))
      panels merged.
Proof.
  intros (merged & Hshow & Hall)%draw_Ok_inv. exists merged. split; [done|].
  eapply Forall2_impl; [exact Hall|].
  intros p [lang [true_ preds]] (i & (Hlen & _ & ->)%draw_panel_Ok). simpl.
  unfold Np.times, Sk.normalize_true, Sk.count_matrix.
  rewrite !length_fmap, length_unique_labels. split_and!; [done| |].
  - rewrite !Forall_fmap. apply Forall_forall. intros t _. simpl.
    by rewrite !length_fmap, length_unique_labels.
  - intros Ht Hp. apply binary_distinct_labels.
    unfold binary_labels in *. by apply Forall_app.
Qed.

(** X10: the accuracy in the title of a panel, rounded to two decimals as
    the title shows it, is nan exactly when the panel has no labels;
    otherwise it lies between 0 and 100, it is 100 when the predicted
    labels are the true labels, and 0 when every predicted label differs
    from the true one. *)
Theorem panel_accuracy_meaning (d : list (string * prediction))
    (panels : list panel) :
  draw_confusion_matrices d = Ok panels →
  ∃ merged,
    show_confusion_matrix d = Ok merged ∧
    Forall2 (λ p e,
        (panel_accuracy p = None ↔ e.2.1 = []) ∧
        ∀ a, panel_accuracy p = Some a →
          (0 ≤ a)%Qc ∧ (a ≤ Qc_of_Z 100)%Qc ∧
          (e.2.1 = e.2.2 → a = Qc_of_Z 100) ∧
          (Forall2 (λ t p, t ≠ p) e.2.1 e.2.2 → a = 0%Qc))
      panels merged.
Proof.
  intros (merged & Hshow & Hall)%draw_Ok_inv. exists merged. split; [done|].
  eapply Forall2_impl; [exact Hall|].
  intros p [lang [true_ preds]] (i & (Hlen & _ & ->)%draw_panel_Ok).
  cbn [panel_accuracy fst snd].
  destruct (panel_accuracy_spec true_ preds Hlen) as (Hnone & Hsome).
  by split.
Qed.

Lemma confusion_cells_are_percentages_witness :
  ∃ panels merged,
    draw_confusion_matrices three_entries = Ok panels ∧
    show_confusion_matrix three_entries = Ok merged ∧
    Forall2 (λ p e,
        Forall2 (λ l row,
            (l ∉ e.2.1 → Forall (λ x, x = 0%Qc) row) ∧
            Forall (λ x, (0 ≤ x)%Qc ∧ (x ≤ Qc_of_Z 100)%Qc) row)
          (Sk.unique_labels e.2.1 e.2.2) (panel_cm p) ∧
        Forall (Forall (λ x, (0 ≤ x)%Qc ∧ (x ≤ Qc_of_Z 100)%Qc))
          (panel_texts p))
      panels merged.
Proof.
  destruct (draw_confusion_matrices three_entries) as [panels|] eqn:Hrun;
    [|by vm_compute in Hrun].
  destruct (confusion_cells_are_percentages three_entries panels Hrun)
    as (merged & Hshow & Hrows).
  by exists panels, merged.
Defined.

Lemma confusion_matrix_shape_witness :
  ∃ panels merged,
    draw_confusion_matrices three_entries = Ok panels ∧
    show_confusion_matrix three_entries = Ok merged ∧
    Forall2 (λ p e,
        let n := length (remove_dups (e.2.1 ++ e.2.2)) in
        length (panel_cm p) = n ∧
        Forall (λ row, length row = n) (panel_cm p) ∧
        (binary_labels e.2.1 → binary_labels e.2.2 →
         (n ≤ 2)%nat ∧
         (n = 2%nat ↔ 0 ∈ e.2.1 ++ e.2.2 ∧ 1 ∈ e.2.1 ++ e.2.2)))
      panels merged.
Proof.
  destruct (draw_confusion_matrices three_entries) as [panels|] eqn:Hrun;
    [|by vm_compute in Hrun].
  destruct (confusion_matrix_shape three_entries panels Hrun)
    as (merged & Hshow & Hshape).
  by exists panels, merged.
Defined.

Lemma panel_accuracy_meaning_witness :
  ∃ panels merged,
    draw_confusion_matrices three_entries = Ok panels ∧
    show_confusion_matrix three_entries = Ok merged ∧
    Forall2 (λ p e,
        (panel_accuracy p = None ↔ e.2.1 = []) ∧
        ∀ a, panel_accuracy p = Some a →
          (0 ≤ a)%Qc ∧ (a ≤ Qc_of_Z 100)%Qc ∧
          (e.2.1 = e.2.2 → a = Qc_of_Z 100) ∧
          (Forall2 (λ t p, t ≠ p) e.2.1 e.2.2 → a = 0%Qc))
      panels merged.
Proof.
  destruct (draw_confusion_matrices three_entries) as [panels|] eqn:Hrun;
    [|by vm_compute in Hrun].
  destruct (panel_accuracy_meaning three_entries panels Hrun)
    as (merged & Hshow & Hacc).
  by exists panels, merged.
Defined.

(** ** Precision-Recall Analyzer: the curve in the unit square *)

Lemma sorted_le_last (l : list Z) (z : Z) :
  StronglySorted Z.le l → last l = Some z → Forall (λ x, x ≤ z) l.
Proof.
  induction 1 as [|x l Hs IH Hx]; [done|]. intros Hlast.
  destruct l as [|y l].
  - injection Hlast as ->. by repeat constructor.
  - rewrite last_cons_cons in Hlast. specialize (IH Hlast).
    constructor; [|done]. apply Forall_cons in Hx as [Hxy _].
    apply Forall_cons in IH as [Hyz _]. lia.
Qed.

(** Every point of the curve lies in the unit square. *)
Lemma curve_unit_interval y_true y_score precision recall thresholds :
  Sk.precision_recall_curve y_true y_score =
    Ok (precision, recall, thresholds) →
  Forall unit_interval precision ∧ Forall unit_interval recall.
Proof.
  unfold Sk.precision_recall_curve. intros H.
  apply bind_Ok in H as (pts & Hpts & H). injection H as <- <- <-.
  pose proof (binary_clf_curve_mono _ _ _ Hpts) as Hmono.
  apply binary_clf_curve_Ok in Hpts as [_ Hnn].
  rewrite Forall_forall in Hnn.
  split; apply Forall_app; (split; [|by apply Forall_singleton; split; vm_compute]);
    rewrite Forall_reverse, Forall_fmap; apply Forall_forall;
    intros [[fp tp] s] Hpt; destruct (Hnn _ Hpt) as [Htp Hfp]; simpl in *.
  - split.
    + apply Qcdiv_nonneg; apply Qc_of_Z_nonneg; lia.
    + apply Qc_fraction_le_1. lia.
  - case_bool_decide as Hlast; [by split; vm_compute|].
    destruct (last pts.*1.*2) as [z|] eqn:Hz; [|done]. simpl in *.
    assert (tp ≤ z) as Hle.
    { assert (StronglySorted Z.le pts.*1.*2) as Hs.
      { rewrite <-list_fmap_compose.
        eapply StronglySorted_fmap; [|exact Hmono]. by intros ??. }
      pose proof (sorted_le_last _ _ Hs Hz) as Hall.
      rewrite Forall_forall in Hall. apply Hall.
      apply list_elem_of_fmap. exists (fp, tp). split; [done|].
      apply list_elem_of_fmap. by exists (fp, tp, s). }
    split.
    + apply Qcdiv_nonneg; apply Qc_of_Z_nonneg; lia.
    + apply Qc_fraction_le_1. lia.
Qed.

(** The same for the curve in double precision. *)
Lemma f64_curve_unit_interval y_true y_score precision recall thresholds :
  Float64.precision_recall_curve y_true y_score =
    Ok (precision, recall, thresholds) →
  Forall unit_interval precision ∧ Forall unit_interval recall.
Proof.
  unfold Float64.precision_recall_curve. intros H.
  apply bind_Ok in H as (pts & Hpts & H). injection H as <- <- <-.
  pose proof (binary_clf_curve_mono _ _ _ Hpts) as Hmono.
  apply binary_clf_curve_Ok in Hpts as [_ Hnn].
  rewrite Forall_forall in Hnn.
  split; apply Forall_app; (split; [|by apply Forall_singleton; split; vm_compute]);
    rewrite Forall_reverse, Forall_fmap; apply Forall_forall;
    intros [[fp tp] s] Hpt; destruct (Hnn _ Hpt) as [Htp Hfp]; simpl in *.
  - apply float64_unit.
    + apply Qcdiv_nonneg; apply Qc_of_Z_nonneg; lia.
    + apply Qc_fraction_le_1. lia.
  - case_bool_decide as Hlast; [by split; vm_compute|].
    destruct (last pts.*1.*2) as [z|] eqn:Hz; [|done]. simpl in *.
    assert (tp ≤ z) as Hle.
    { assert (StronglySorted Z.le pts.*1.*2) as Hs.
      { rewrite <-list_fmap_compose.
        eapply StronglySorted_fmap; [|exact Hmono]. by intros ??. }
      pose proof (sorted_le_last _ _ Hs Hz) as Hall.
      rewrite Forall_forall in Hall. apply Hall.
      apply list_elem_of_fmap. exists (fp, tp). split; [done|].
      apply list_elem_of_fmap. by exists (fp, tp, s). }
    apply float64_unit.
    + apply Qcdiv_nonneg; apply Qc_of_Z_nonneg; lia.
    + apply Qc_fraction_le_1. lia.
Qed.

(** X12: every precision and every recall of the curve that
    [plot_combined_precision_recall_curve] draws lies between 0 and 1,
    over the rationals and in double precision. *)
Theorem pr_curve_in_unit_square (d : list (string * prediction)) :
  (∀ out, plot_combined_precision_recall_curve d = Ok out →
          Forall unit_interval (precision out) ∧
          Forall unit_interval (recall out)) ∧
  (∀ out, Float64.operating_point d = Ok out →
          Forall unit_interval (Float64.precision out) ∧
          Forall unit_interval (Float64.recall out)).
Proof.
  split.
  - intros out (thresholds & Hc & _)%plot_Ok_inv.
    exact (curve_unit_interval _ _ _ _ _ Hc).
  - intros out. unfold Float64.operating_point.
    destruct (pool_scores d ([], [])) as [y_true y_score]. simpl.
    intros H.
    apply bind_Ok in H as ([[precision recall] thresholds] & Hc & H).
    apply bind_Ok in H as (area & _ & H).
    apply bind_Ok in H as (products & _ & H).
    apply bind_Ok in H as (i & _ & H).
    apply bind_Ok in H as (th & _ & H).
    apply bind_Ok in H as (r & _ & H).
    apply bind_Ok in H as (p & _ & H).
    injection H as <-. simpl.
    exact (f64_curve_unit_interval _ _ _ _ _ Hc).
Qed.

(** ** Precision-Recall Analyzer: the thresholds *)


Lemma binary_clf_curve_inv y_true y_score pts :
  Sk.binary_clf_curve y_true y_score = Ok pts →
  Sk.binary_target y_true = true ∧ length y_true = length y_score ∧
  pts = Sk.cum_counts 0 0
          (Sk.desc_score
             (zip ((λ y, bool_decide (y = 1)) <$> y_true) y_score)).
Proof.
  unfold Sk.binary_clf_curve.
  destruct (Sk.binary_target y_true); [|done]. simpl.
  case_bool_decide; [|done]. simpl. by intros [= <-].
Qed.





(** ** Precision-Recall Analyzer: when it returns *)

Lemma binary_target_spec (y : list Z) :
  Sk.binary_target y = true ↔
  y ≠ [] ∧ (Forall (λ v, v = 0 ∨ v = 1) y ∨ Forall (λ v, v = -1 ∨ v = 1) y).
Proof.
  unfold Sk.binary_target.
  rewrite andb_true_iff, orb_true_iff, bool_decide_eq_true.
  rewrite !forallb_forall, !Forall_forall.
  split; intros [Hne [Hall|Hall]]; (split; [done|]); [left|right|left|right];
    intros v Hv.
  - apply list_elem_of_In, Hall in Hv. by apply bool_decide_eq_true in Hv.
  - apply list_elem_of_In, Hall in Hv. by apply bool_decide_eq_true in Hv.
  - apply list_elem_of_In, Hall in Hv. by apply bool_decide_eq_true.
  - apply list_elem_of_In, Hall in Hv. by apply bool_decide_eq_true.
Qed.

(** X14: [plot_combined_precision_recall_curve] returns exactly when the
    pooled true labels are not empty, are all 0 or 1 or are all -1 or 1, and
    are as many as the pooled toxic probabilities; whatever it raises is a
    [ValueError]. *)
Theorem plot_outcome (d : list (string * prediction)) :
  let labels := concat (true_labels <$> d.*2) in
  let scores := concat ((λ m, snd <$> pred_probs m) <$> d.*2) in
  ((∃ out, plot_combined_precision_recall_curve d = Ok out) ↔
   labels ≠ [] ∧
   (Forall (λ y, y = 0 ∨ y = 1) labels ∨
    Forall (λ y, y = -1 ∨ y = 1) labels) ∧
   length labels = length scores) ∧
  (∀ e, plot_combined_precision_recall_curve d = Raise e → e = ValueError).
Proof.
  intros labels scores. split; [|intros e; apply plot_Raise].
  assert ((pool_scores d ([], [])).1 = labels ∧
          (pool_scores d ([], [])).2 = scores) as [Hl Hs].
  { by rewrite pool_scores_concat. }
  split.
  - intros (out & (thresholds & Hc & _)%plot_Ok_inv).
    rewrite Hl, Hs in Hc. revert Hc. unfold Sk.precision_recall_curve.
    intros H. apply bind_Ok in H as (pts & Hpts & _).
    apply binary_clf_curve_inv in Hpts as (Hbin & Hlen & _).
    apply binary_target_spec in Hbin as [? ?]. done.
  - intros (Hne & Hbin & Hlen). apply plot_total.
    + rewrite Hl. by apply binary_target_spec.
    + by rewrite Hl, Hs.
Qed.

(** ** Precision-Recall Analyzer: with and without toxic samples *)









(** ** Failure Extractor: what the loops compute *)

Lemma scan_failures_spec test_set rows acc :
  if decide (Forall (λ r, r.2.1.1 ≠ r.2.1.2 → (r.1 < length test_set)%nat)
               rows)
  then scan_failures test_set rows acc =
       Ok (acc.1 ++ (row_failure test_set <$> filter false_toxic_row rows),
           acc.2 ++ (row_failure test_set <$> filter false_nontoxic_row rows))
  else scan_failures test_set rows acc = Raise IndexError.
Proof.
  revert acc. induction rows as [|[i [[t p] prob]] rows IH]; intros acc.
  { rewrite decide_True by constructor. simpl. rewrite !app_nil_r.
    by destruct acc. }
  cbn [scan_failures]. rewrite !filter_cons.
  set (rw := (i, (t, p, prob))).
  case_bool_decide as Hne.
  2: { assert (t = p) as Htp by (first [exact Hne|by apply dec_stable]).
       rewrite (decide_False (P := false_toxic_row rw)) by (by intros [? _]).
       rewrite (decide_False (P := false_nontoxic_row rw))
         by (by intros [? _]).
       specialize (IH acc). case_decide as Hall.
       - rewrite decide_True; [done|]. by constructor.
       - rewrite decide_False; [done|]. by intros [_ ?]%Forall_cons. }
  unfold Py.index. destruct (test_set !! i) as [r|] eqn:Hi;
    cbn [mbind result_bind rbind].
  2: { rewrite decide_False; [done|]. intros [Hlt _]%Forall_cons.
       simpl in Hlt. apply lookup_ge_None in Hi. specialize (Hlt Hne). lia. }
  assert (row_failure test_set rw = Failure t p (Py.max2 prob) (text r))
    as Hf.
  { unfold row_failure, rw, dataframe. cbn [fst snd]. by rewrite Hi. }
  pose proof (lookup_lt_Some _ _ _ Hi) as Hlt.
  case_bool_decide as Hzero.
  - rewrite (decide_True (P := false_toxic_row rw)) by done.
    rewrite (decide_False (P := false_nontoxic_row rw)) by (by intros [_ ?]).
    specialize (IH (acc.1 ++ [Failure t p (Py.max2 prob) (text r)], acc.2)).
    case_decide as Hall.
    + rewrite decide_True by (by constructor). rewrite IH. cbn [fst snd].
      by rewrite fmap_cons, Hf, <-app_assoc.
    + rewrite decide_False; [done|]. by intros [_ ?]%Forall_cons.
  - rewrite (decide_False (P := false_toxic_row rw)) by (by intros [_ ?]).
    rewrite (decide_True (P := false_nontoxic_row rw)) by done.
    specialize (IH (acc.1, acc.2 ++ [Failure t p (Py.max2 prob) (text r)])).
    case_decide as Hall.
    + rewrite decide_True by (by constructor). rewrite IH. cbn [fst snd].
      by rewrite fmap_cons, Hf, <-app_assoc.
    + rewrite decide_False; [done|]. by intros [_ ?]%Forall_cons.
Qed.

Lemma language_failures_spec test_set m K :
  if decide (Forall (λ r, r.2.1.1 ≠ r.2.1.2 → (r.1 < length test_set)%nat)
               (scanned_rows m))
  then language_failures test_set m K =
       Ok [(FALSE_TOXIC,
            Py.slice_to
              (Py.sorted_reverse confidence (all_false_toxic test_set m)) K);
           (FALSE_NON_TOXIC,
            Py.slice_to
              (Py.sorted_reverse confidence (all_false_nontoxic test_set m))
              K)]
  else language_failures test_set m K = Raise IndexError.
Proof.
  unfold language_failures. fold (scanned_rows m).
  pose proof (scan_failures_spec test_set (scanned_rows m) ([], [])) as Hscan.
  case_decide; rewrite Hscan; [|done]. reflexivity.
Qed.

Lemma find_failures_Ok_entries items ms K acc out lang cats :
  find_failures items ms K acc = Ok out →
  (lang, cats) ∈ out →
  (lang, cats) ∈ acc ∨
  ∃ test_set m,
    (lang, test_set) ∈ items ∧ Py.dict_get ms lang = Ok m ∧
    cats = [(FALSE_TOXIC,
             Py.slice_to
               (Py.sorted_reverse confidence (all_false_toxic test_set m)) K);
            (FALSE_NON_TOXIC,
             Py.slice_to
               (Py.sorted_reverse confidence (all_false_nontoxic test_set m))
               K)].
Proof.
  intros Hrun Hin.
  destruct (find_failures_entries _ _ _ _ _ _ _ Hrun Hin)
    as [?|(test_set & m & Hts & Hm & Hlang)]; [by left|right].
  exists test_set, m. split_and!; [done..|].
  pose proof (language_failures_spec test_set m K) as Hspec.
  case_decide; rewrite Hspec in Hlang; [|done]. by injection Hlang as <-.
Qed.

Lemma length_slice_to_exact {A} (l : list A) (k : Z) :
  Z.of_nat (length (Py.slice_to l k)) = slice_length (length l) k.
Proof.
  unfold Py.slice_to, slice_length. case_bool_decide; rewrite length_take; lia.
Qed.

(** *** A prefix of a ranking *)

Lemma take_dominates {A} (R : relation A) (l : list A) (n : nat) (x : A) :
  StronglySorted R l → x ∈ l →
  x ∈ take n l ∨ ∀ y, y ∈ take n l → R y x.
Proof.
  intros Hs Hx. rewrite <-(take_drop n l) in Hs, Hx.
  apply elem_of_app in Hx as [?|Hx]; [by left|right].
  intros y Hy. by eapply (StronglySorted_app_1_elem_of R).
Qed.

(** *** Stability of the ranking *)

Section Stability.
Context {A : Type} (key : A → Qc) (c : Qc).

Lemma filter_insert_by (x : A) (l : list A) :
  filter (λ a, key a = c)
    (insert_by (λ x y, bool_decide (key y ≤ key x)%Qc) x l) =
  filter (λ a, key a = c) (x :: l).
Proof.
  induction l as [|y l IH]; [done|]. simpl.
  case_bool_decide as Hle; [done|].
  apply Qcnot_le_lt in Hle.
  rewrite filter_cons, IH, !filter_cons.
  case_decide as Hy; case_decide as Hx; try done.
  rewrite Hx, Hy in Hle. by apply Qclt_not_eq in Hle.
Qed.

Lemma filter_sorted_reverse (l : list A) :
  filter (λ a, key a = c) (Py.sorted_reverse key l) =
  filter (λ a, key a = c) l.
Proof.
  unfold Py.sorted_reverse, sort_by. induction l as [|x l IH]; [done|].
  cbn [foldr]. by rewrite filter_insert_by, !filter_cons, IH.
Qed.
End Stability.

Lemma slice_keeps_row_order (all : list failure) (K : Z) :
  keeps_row_order (Py.slice_to (Py.sorted_reverse confidence all) K) all.
Proof.
  intros c. destruct (slice_to_prefix (Py.sorted_reverse confidence all) K)
    as [n ->].
  rewrite <-(filter_sorted_reverse confidence c all).
  rewrite <-(take_drop n (Py.sorted_reverse confidence all)) at 2.
  rewrite filter_app. by apply prefix_app_r.
Qed.

Lemma find_top_failures_entries ds ms K out lang cats :
  find_top_failures ds ms K = Ok out →
  (lang, cats) ∈ out →
  ∃ test_set m,
    (lang, test_set) ∈ ds ∧ Py.dict_get ms lang = Ok m ∧
    cats = [(FALSE_TOXIC,
             Py.slice_to
               (Py.sorted_reverse confidence (all_false_toxic test_set m)) K);
            (FALSE_NON_TOXIC,
             Py.slice_to
               (Py.sorted_reverse confidence (all_false_nontoxic test_set m))
               K)].
Proof.
  intros Hrun Hin.
  destruct (find_failures_Ok_entries _ _ _ _ _ _ _ Hrun Hin) as [Hnil|?];
    [by apply elem_of_nil in Hnil|done].
Qed.

(** X16: each list of [find_top_failures] has the length that the slice
    [[:top_failures]] gives it: with [n] mismatches of its category, the
    smaller of [top_failures] and [n] for a count that is not negative, and
    [n + top_failures], or 0 if that is negative, for a negative count. *)
Theorem top_failures_lengths (ds : list (string * dataframe))
    (ms : list (string * prediction)) (K : Z)
    (out : list (string * list (string * list failure)))
    (lang : string) (cats : list (string * list failure)) :
  find_top_failures ds ms K = Ok out →
  (lang, cats) ∈ out →
  ∃ test_set m false_toxic false_nontoxic,
    (lang, test_set) ∈ ds ∧ Py.dict_get ms lang = Ok m ∧
    cats = [(FALSE_TOXIC, false_toxic); (FALSE_NON_TOXIC, false_nontoxic)] ∧
    Z.of_nat (length false_toxic) =
      slice_length (length (filter false_toxic_row (scanned_rows m))) K ∧
    Z.of_nat (length false_nontoxic) =
      slice_length (length (filter false_nontoxic_row (scanned_rows m))) K.
Proof.
  intros Hrun Hin.
  destruct (find_top_failures_entries _ _ _ _ _ _ Hrun Hin)
    as (test_set & m & Hts & Hm & ->).
  eexists test_set, m, _, _. split_and!; [done..| |].
  - rewrite length_slice_to_exact.
    rewrite (Permutation_length (sorted_reverse_perm _ _)).
    unfold all_false_toxic. by rewrite length_fmap.
  - rewrite length_slice_to_exact.
    rewrite (Permutation_length (sorted_reverse_perm _ _)).
    unfold all_false_nontoxic. by rewrite length_fmap.
Qed.

Lemma top_failures_lengths_witness :
  ∃ false_toxic false_nontoxic,
    find_top_failures en_corpus en_matches 1 =
      Ok [("en", [(FALSE_TOXIC, false_toxic);
                  (FALSE_NON_TOXIC, false_nontoxic)])] ∧
    Z.of_nat (length false_toxic) = 1 ∧ Z.of_nat (length false_nontoxic) = 1.
Proof.
  destruct (find_top_failures en_corpus en_matches 1) as [out|] eqn:Hrun;
    [|by vm_compute in Hrun].
  assert (Some out = Some out) as Hout by done.
  rewrite <-(f_equal (λ x, match x with Ok o => Some o | Raise _ => None end)
               Hrun) in Hout at 1.
  vm_compute in Hout. injection Hout as Hout.
  destruct (top_failures_lengths en_corpus en_matches 1 out "en"
              (default [] (snd <$> head out)) Hrun)
    as (test_set & m & ft & fnt & _ & Hm & Hcats & Hft & Hfnt).
  { rewrite <-Hout. by left. }
  injection Hm as <-. rewrite <-Hout in Hcats. simpl in Hcats.
  exists ft, fnt. rewrite <-Hout.
  split; [by rewrite Hcats|]. by split.
Defined.

(** X17: a mismatch that [find_top_failures] leaves out of the list of its
    category has a confidence that is at most the confidence of every
    record of that list. *)
Theorem top_failures_are_the_most_confident
    (ds : list (string * dataframe)) (ms : list (string * prediction))
    (K : Z) (out : list (string * list (string * list failure)))
    (lang : string) (cats : list (string * list failure)) :
  find_top_failures ds ms K = Ok out →
  (lang, cats) ∈ out →
  ∃ test_set m false_toxic false_nontoxic,
    (lang, test_set) ∈ ds ∧ Py.dict_get ms lang = Ok m ∧
    cats = [(FALSE_TOXIC, false_toxic); (FALSE_NON_TOXIC, false_nontoxic)] ∧
    (∀ f, f ∈ all_false_toxic test_set m →
       f ∈ false_toxic ∨
       ∀ g, g ∈ false_toxic → (confidence f ≤ confidence g)%Qc) ∧
    (∀ f, f ∈ all_false_nontoxic test_set m →
       f ∈ false_nontoxic ∨
       ∀ g, g ∈ false_nontoxic → (confidence f ≤ confidence g)%Qc).
Proof.
  intros Hrun Hin.
  destruct (find_top_failures_entries _ _ _ _ _ _ Hrun Hin)
    as (test_set & m & Hts & Hm & ->).
  eexists test_set, m, _, _. split_and!; [done..| |].
  - intros f Hf.
    destruct (slice_to_prefix
                (Py.sorted_reverse confidence (all_false_toxic test_set m)) K)
      as [n ->].
    apply (take_dominates (λ a b, (confidence b ≤ confidence a)%Qc)).
    + apply sorted_reverse_Sorted.
    + by rewrite (sorted_reverse_perm _ _).
  - intros f Hf.
    destruct (slice_to_prefix
                (Py.sorted_reverse confidence
                   (all_false_nontoxic test_set m)) K) as [n ->].
    apply (take_dominates (λ a b, (confidence b ≤ confidence a)%Qc)).
    + apply sorted_reverse_Sorted.
    + by rewrite (sorted_reverse_perm _ _).
Qed.

(** X18: records of equal confidence stay in row order: for every
    confidence, the records of a list of [find_top_failures] with that
    confidence are the first mismatches of the category with it, in the
    order of the rows. *)
Theorem ties_keep_row_order
    (ds : list (string * dataframe)) (ms : list (string * prediction))
    (K : Z) (out : list (string * list (string * list failure)))
    (lang : string) (cats : list (string * list failure)) :
  find_top_failures ds ms K = Ok out →
  (lang, cats) ∈ out →
  ∃ test_set m false_toxic false_nontoxic,
    (lang, test_set) ∈ ds ∧ Py.dict_get ms lang = Ok m ∧
    cats = [(FALSE_TOXIC, false_toxic); (FALSE_NON_TOXIC, false_nontoxic)] ∧
    keeps_row_order false_toxic (all_false_toxic test_set m) ∧
    keeps_row_order false_nontoxic (all_false_nontoxic test_set m).
Proof.
  intros Hrun Hin.
  destruct (find_top_failures_entries _ _ _ _ _ _ Hrun Hin)
    as (test_set & m & Hts & Hm & ->).
  eexists test_set, m, _, _.
  split_and!; [done..|apply slice_keeps_row_order|apply slice_keeps_row_order].
Qed.

Lemma top_failures_are_the_most_confident_witness :
  ∃ false_toxic false_nontoxic,
    find_top_failures tied_corpus tied_matches 2 =
      Ok [("en", [(FALSE_TOXIC, false_toxic);
                  (FALSE_NON_TOXIC, false_nontoxic)])] ∧
    (∀ f, f ∈ all_false_toxic [Row "first" 0; Row "second" 0; Row "third" 0]
                (Prediction [0; 0; 0] [1; 1; 1]
                   [(Q2Qc (4 # 10), Q2Qc (6 # 10));
                    (Q2Qc (2 # 10), Q2Qc (8 # 10));
                    (Q2Qc (2 # 10), Q2Qc (8 # 10))]) →
       f ∈ false_toxic ∨
       ∀ g, g ∈ false_toxic → (confidence f ≤ confidence g)%Qc).
Proof.
  destruct (find_top_failures tied_corpus tied_matches 2) as [out|] eqn:Hrun;
    [|by vm_compute in Hrun].
  assert (Some out = Some out) as Hout by done.
  rewrite <-(f_equal (λ x, match x with Ok o => Some o | Raise _ => None end)
               Hrun) in Hout at 1.
  vm_compute in Hout. injection Hout as Hout.
  destruct (top_failures_are_the_most_confident tied_corpus tied_matches 2
              out "en" (default [] (snd <$> head out)) Hrun)
    as (test_set & m & ft & fnt & Hts & Hm & Hcats & Hft & _).
  { rewrite <-Hout. by left. }
  injection Hm as <-.
  apply list_elem_of_singleton in Hts. injection Hts as <-.
  rewrite <-Hout in Hcats. simpl in Hcats.
  exists ft, fnt. rewrite <-Hout. split; [by rewrite Hcats|]. exact Hft.
Defined.

Lemma ties_keep_row_order_witness :
  ∃ false_toxic false_nontoxic,
    find_top_failures tied_corpus tied_matches 2 =
      Ok [("en", [(FALSE_TOXIC, false_toxic);
                  (FALSE_NON_TOXIC, false_nontoxic)])] ∧
    failure_text <$> false_toxic = ["second"; "third"] ∧
    keeps_row_order false_toxic
      (all_false_toxic [Row "first" 0; Row "second" 0; Row "third" 0]
         (Prediction [0; 0; 0] [1; 1; 1]
            [(Q2Qc (4 # 10), Q2Qc (6 # 10)); (Q2Qc (2 # 10), Q2Qc (8 # 10));
             (Q2Qc (2 # 10), Q2Qc (8 # 10))])).
Proof.
  destruct (find_top_failures tied_corpus tied_matches 2) as [out|] eqn:Hrun;
    [|by vm_compute in Hrun].
  assert (Some out = Some out) as Hout by done.
  rewrite <-(f_equal (λ x, match x with Ok o => Some o | Raise _ => None end)
               Hrun) in Hout at 1.
  vm_compute in Hout. injection Hout as Hout.
  destruct (ties_keep_row_order tied_corpus tied_matches 2
              out "en" (default [] (snd <$> head out)) Hrun)
    as (test_set & m & ft & fnt & Hts & Hm & Hcats & Hft & _).
  { rewrite <-Hout. by left. }
  injection Hm as <-.
  apply list_elem_of_singleton in Hts. injection Hts as <-.
  rewrite <-Hout in Hcats. simpl in Hcats.
  exists ft, fnt. rewrite <-Hout. split; [by rewrite Hcats|].
  split; [|exact Hft]. by injection Hcats as <- <-.
Defined.

(** ** Failure Extractor: when it returns *)

Lemma dict_get_Raise {V} (d : list (string * V)) k e :
  Py.dict_get d k = Raise e → e = KeyError.
Proof.
  induction d as [|[k' v] d IH]; simpl; [by intros [= <-]|].
  case_decide; [done|apply IH].
Qed.

Lemma language_failures_outcome test_set m K :
  ((∃ cats, language_failures test_set m K = Ok cats) ↔
   texts_in_range test_set m) ∧
  (∀ e, language_failures test_set m K = Raise e → e = IndexError).
Proof.
  pose proof (language_failures_spec test_set m K) as Hspec.
  unfold texts_in_range. case_decide as Hall; rewrite Hspec.
  - split; [split; [done|eauto]|done].
  - split; [split; [by intros [? ?]|done]|by intros e [= <-]].
Qed.

Lemma find_failures_outcome items ms K acc :
  ((∃ out, find_failures items ms K acc = Ok out) ↔
   Forall (λ e, ∃ m, Py.dict_get ms e.1 = Ok m ∧ texts_in_range e.2 m) items) ∧
  (∀ e, find_failures items ms K acc = Raise e →
        e = KeyError ∨ e = IndexError).
Proof.
  revert acc. induction items as [|[lang test_set] items IH]; intros acc.
  { simpl. split; [split; [constructor|eauto]|done]. }
  cbn [find_failures].
  destruct (Py.dict_get ms lang) as [m|e] eqn:Hm; cbn [mbind result_bind rbind].
  2: { pose proof (dict_get_Raise _ _ _ Hm) as ->. split.
       - split; [by intros [? ?]|].
         intros [(m & Hm' & _) _]%Forall_cons. simpl in Hm'.
         by rewrite Hm in Hm'.
       - intros e [= <-]. by left. }
  destruct (language_failures_outcome test_set m K) as [Hok Hraise].
  destruct (language_failures test_set m K) as [cats|e] eqn:Hlang;
    cbn [mbind result_bind rbind].
  - destruct (IH (Py.dict_set acc lang cats)) as [IHok IHraise].
    split; [|done]. rewrite IHok. split.
    + intros Hall. constructor; [|done]. exists m. split; [done|].
      apply Hok. eauto.
    + by intros [_ ?]%Forall_cons.
  - split.
    + split; [by intros [? ?]|].
      intros [(m' & Hm' & Hrange) _]%Forall_cons. simpl in Hm', Hrange.
      rewrite Hm in Hm'. injection Hm' as <-.
      apply Hok in Hrange as [? ?]. done.
    + intros e' [= <-]. right. by apply Hraise.
Qed.

(** X19: [find_top_failures] returns exactly when every language of the
    dataset has an entry in [matches_by_language] and every mismatched row
    of that entry has a row in the table of the language; it raises
    [KeyError] or [IndexError] and nothing else. *)
Theorem find_top_failures_outcome (ds : list (string * dataframe))
    (ms : list (string * prediction)) (K : Z) :
  ((∃ out, find_top_failures ds ms K = Ok out) ↔
   Forall (λ e, ∃ m, Py.dict_get ms e.1 = Ok m ∧ texts_in_range e.2 m) ds) ∧
  (∀ e, find_top_failures ds ms K = Raise e →
        e = KeyError ∨ e = IndexError).
Proof. apply find_failures_outcome. Qed.

(** ** Failure Extractor: the languages of a result *)

Lemma find_failures_keys items ms K acc out :
  NoDup (Py.keys acc ++ Py.keys items) →
  find_failures items ms K acc = Ok out →
  Py.keys out = Py.keys acc ++ Py.keys items.
Proof.
  revert acc. induction items as [|[lang test_set] items IH]; intros acc Hnd.
  { simpl. intros [= <-]. by rewrite app_nil_r. }
  cbn [find_failures]. intros H.
  apply bind_Ok in H as (m & _ & H). apply bind_Ok in H as (cats & _ & H).
  change (Py.keys ((lang, test_set) :: items)) with (lang :: Py.keys items)
    in *.
  assert (lang ∉ Py.keys acc) as Hfresh.
  { apply NoDup_app in Hnd as (_ & Hdisj & _). intros Hin.
    apply (Hdisj lang Hin). by left. }
  apply IH in H.
  - rewrite H, keys_dict_set_new by done. by rewrite <-app_assoc.
  - rewrite keys_dict_set_new by done. by rewrite <-app_assoc.
Qed.

(** X20: the result of [find_top_failures] has the languages of the dataset,
    each once and in the order of the dataset. *)
Theorem top_failures_languages (ds : list (string * dataframe))
    (ms : list (string * prediction)) (K : Z)
    (out : list (string * list (string * list failure))) :
  Py.is_dict ds →
  find_top_failures ds ms K = Ok out →
  Py.keys out = Py.keys ds ∧ Py.is_dict out.
Proof.
  unfold Py.is_dict. intros Hnd Hrun.
  apply find_failures_keys in Hrun; [|done].
  simpl in Hrun. by rewrite Hrun.
Qed.

Lemma top_failures_languages_witness :
  ∃ out, find_top_failures en_corpus en_matches 5 = Ok out ∧
         Py.keys out = ["en"] ∧ Py.is_dict out.
Proof.
  destruct (find_top_failures en_corpus en_matches 5) as [out|] eqn:Hrun;
    [|by vm_compute in Hrun].
  exists out. split; [done|].
  apply (top_failures_languages en_corpus en_matches 5 out); [|done].
  unfold Py.is_dict. simpl. apply NoDup_singleton.
Defined.

(** ** From the Inference Runner to the Failure Extractor *)

Lemma scanned_rows_in_range (m : prediction) r :
  r ∈ scanned_rows m → (r.1 < length (true_labels m))%nat.
Proof.
  destruct r as [i [[t p] prob]]. unfold scanned_rows.
  intros (j & Hi & Ht & _)%elem_of_enumerate_zip3. simpl in *. subst i.
  by eapply lookup_lt_Some.
Qed.

(** X21: [find_top_failures] returns on every dataset together with the
    result that [predict_with_probabilities] returned for it, whatever the
    classifier and the count are, and its result has the languages of the
    dataset. *)
Theorem predictions_feed_the_failure_extractor {logits : Type}
    (model : list string → list logits) (softmax : logits → Qc * Qc)
    (model_is_file : bool) (df_by_language : list (string * dataframe))
    (batch_size : Z) (conf_th : Qc) (res : list (string * prediction))
    (top_failures : Z) :
  Py.is_dict df_by_language →
  predict_with_probabilities model softmax model_is_file df_by_language
    batch_size conf_th = Ok res →
  ∃ out, find_top_failures df_by_language res top_failures = Ok out ∧
         Py.keys out = Py.keys df_by_language.
Proof.
  intros Hnd Hrun.
  destruct (predict_lookup _ _ _ _ _ _ _ Hnd Hrun) as [_ Hitems].
  destruct (find_failures_outcome df_by_language res top_failures [])
    as [[_ Hok] _].
  fold (find_top_failures df_by_language res top_failures) in Hok.
  destruct Hok as [out Hout].
  - apply Forall_forall. intros [lang ds] Hin.
    destruct (Hitems lang ds Hin) as (r & Hget & Hlang). exists r.
    split; [done|]. simpl. apply Forall_forall. intros row Hrow _.
    apply scanned_rows_in_range in Hrow.
    rewrite predict_language_eq in Hlang.
    apply bind_Ok in Hlang as (loader & _ & Hlang). injection Hlang as <-.
    simpl in Hrow. by rewrite length_fmap in Hrow.
  - exists out. split; [done|].
    by apply find_failures_keys in Hout.
Qed.

Lemma predictions_feed_the_failure_extractor_witness :
  ∃ res out,
    predict_with_probabilities (fmap keyword_scores) id true two_languages 2
      (Q2Qc (1 # 2)) = Ok res ∧
    find_top_failures two_languages res 5 = Ok out ∧
    Py.keys out = ["en"; "es"].
Proof.
  destruct (predict_with_probabilities (fmap keyword_scores) id true
              two_languages 2 (Q2Qc (1 # 2))) as [res|] eqn:Hrun;
    [|by vm_compute in Hrun].
  assert (Py.is_dict two_languages) as Hnd.
  { unfold Py.is_dict. simpl. apply NoDup_cons.
    split; [|apply NoDup_singleton]. by intros ?%list_elem_of_singleton. }
  destruct (predictions_feed_the_failure_extractor (fmap keyword_scores) id
              true two_languages 2 (Q2Qc (1 # 2)) res 5 Hnd Hrun)
    as (out & Hout & Hkeys).
  by exists res, out.
Defined.

(** ** Failure Report Renderer: the cards of the markup *)

Lemma string_app_assoc (a b c : string) : (a +:+ b) +:+ c = a +:+ b +:+ c.
Proof.
  induction a as [|x a IH]; [done|].
  change (String x ((a +:+ b) +:+ c) = String x (a +:+ b +:+ c)).
  by rewrite IH.
Qed.

Lemma string_app_nil_r (a : string) : a +:+ "" = a.
Proof.
  induction a as [|x a IH]; [done|].
  change (String x (a +:+ "") = String x a). by rewrite IH.
Qed.

Lemma occurs_in_refl (s : string) : occurs_in s s.
Proof. exists "", "". simpl. by rewrite string_app_nil_r. Qed.

Lemma occurs_in_app_l (part s t : string) :
  occurs_in part s → occurs_in part (s +:+ t).
Proof.
  intros (b & a & ->). exists b, (a +:+ t). by rewrite !string_app_assoc.
Qed.

Lemma occurs_in_app_r (part s t : string) :
  occurs_in part t → occurs_in part (s +:+ t).
Proof.
  intros (b & a & ->). exists (s +:+ b), a. by rewrite !string_app_assoc.
Qed.

Lemma occurs_in_trans (a b c : string) :
  occurs_in a b → occurs_in b c → occurs_in a c.
Proof.
  intros Hab (before & after & ->).
  by apply occurs_in_app_r, occurs_in_app_l.
Qed.

(** Each loop only appends to the markup built so far. *)
Lemma failure_cards_app failures cards_html :
  failure_cards failures cards_html =
  cards_html +:+ failure_cards failures "".
Proof.
  revert cards_html. induction failures as [|f failures IH]; intros acc.
  { simpl. by rewrite string_app_nil_r. }
  cbn [failure_cards]. etrans; [apply IH|].
  rewrite (IH ("" +:+ card f)). by rewrite !string_app_assoc.
Qed.

Lemma category_sections_app cats cards_html :
  category_sections cats cards_html =
  cards_html +:+ category_sections cats "".
Proof.
  revert cards_html. induction cats as [|[category failures] cats IH];
    intros acc.
  { simpl. by rewrite string_app_nil_r. }
  cbn [category_sections]. etrans; [apply IH|].
  match goal with
  | |- _ = _ +:+ category_sections _ ?a => rewrite (IH a)
  end.
  rewrite (failure_cards_app failures (acc +:+ _)).
  rewrite (failure_cards_app failures ("" +:+ _)).
  by rewrite !string_app_assoc.
Qed.

Lemma language_sections_app items cards_html :
  language_sections items cards_html =
  cards_html +:+ language_sections items "".
Proof.
  revert cards_html. induction items as [|[lang cats] items IH];
    intros acc.
  { simpl. by rewrite string_app_nil_r. }
  cbn [language_sections]. etrans; [apply IH|].
  match goal with
  | |- _ = _ +:+ language_sections _ ?a => rewrite (IH a)
  end.
  rewrite (category_sections_app cats (acc +:+ _)).
  rewrite (category_sections_app cats ("" +:+ _)).
  by rewrite !string_app_assoc.
Qed.

Lemma card_in_failure_cards f failures :
  f ∈ failures → occurs_in (card f) (failure_cards failures "").
Proof.
  induction failures as [|g failures IH]; [by intros ?%elem_of_nil|].
  cbn [failure_cards]. rewrite failure_cards_app.
  intros [->|Hin]%elem_of_cons.
  - apply occurs_in_app_l, occurs_in_refl.
  - by apply occurs_in_app_r, IH.
Qed.

Lemma card_in_category_sections f category failures cats :
  (category, failures) ∈ cats → f ∈ failures →
  occurs_in (card f) (category_sections cats "").
Proof.
  intros Hin Hf. induction cats as [|[c fs] cats IH];
    [by apply elem_of_nil in Hin|].
  cbn [category_sections]. rewrite category_sections_app, failure_cards_app.
  apply elem_of_cons in Hin as [[= <- <-]|Hin].
  - apply occurs_in_app_l, occurs_in_app_l, occurs_in_app_r.
    by apply card_in_failure_cards.
  - by apply occurs_in_app_r, IH.
Qed.

Lemma card_in_document d lang cats category failures f :
  (lang, cats) ∈ d → (category, failures) ∈ cats → f ∈ failures →
  occurs_in (card f) (visualize_top_failures d).
Proof.
  intros Hin Hcat Hf. unfold visualize_top_failures.
  apply occurs_in_app_r.
  induction d as [|[l cs] d IH]; [by apply elem_of_nil in Hin|].
  cbn [language_sections].
  rewrite language_sections_app, category_sections_app.
  apply elem_of_cons in Hin as [[= <- <-]|Hin].
  - apply occurs_in_app_l, occurs_in_app_l, occurs_in_app_r.
    by eapply card_in_category_sections.
  - by apply occurs_in_app_r, IH.
Qed.

(** X22: the markup of [visualize_top_failures] holds, for every failure of
    every category of every language, the text of the failure unchanged
    between the opening tag of a card-content [div] and the next closing
    tag: no character of the text is escaped. *)
Theorem failure_text_is_embedded_verbatim
    (d : list (string * list (string * list failure)))
    (lang category : string) (cats : list (string * list failure))
    (failures : list failure) (f : failure) :
  (lang, cats) ∈ d → (category, failures) ∈ cats → f ∈ failures →
  occurs_in
    (div_class "card-content" +:+ failure_text f +:+ "</div>")
    (visualize_top_failures d).
Proof.
  intros Hin Hcat Hf.
  eapply occurs_in_trans; [|by eapply card_in_document].
  unfold card. do 11 apply occurs_in_app_r.
  exists "", "
                </div>
                ".
  by rewrite !string_app_assoc.
Qed.

Lemma failure_text_is_embedded_verbatim_witness :
  occurs_in
    (div_class "card-content" +:+ "i hate you" +:+ "</div>")
    (visualize_top_failures [("en", en_failures)]).
Proof.
  apply (failure_text_is_embedded_verbatim [("en", en_failures)]
           "en" FALSE_NON_TOXIC en_failures
           [Failure 1 0 (Q2Qc (7 # 10)) "i hate you"]
           (Failure 1 0 (Q2Qc (7 # 10)) "i hate you")).
  - apply list_elem_of_singleton. reflexivity.
  - apply list_elem_of_further, list_elem_of_here.
  - apply list_elem_of_singleton. reflexivity.
Defined.

(** ** From the Failure Extractor to the Failure Report Renderer *)

(** X23: for labels that are 0 or 1, every card that
    [visualize_top_failures] makes of a result of [find_top_failures] is
    part of the markup and agrees with the category it is listed in: the
    card of a record of the 'False TOXIC' list reads True: NON-TOXIC and
    Pred:TOXIC, the card of a record of the 'False NON-TOXIC' list reads
    True: TOXIC and Pred:NON-TOXIC. *)
Theorem cards_agree_with_their_category (ds : list (string * dataframe))
    (ms : list (string * prediction)) (K : Z)
    (out : list (string * list (string * list failure)))
    (lang category : string) (cats : list (string * list failure))
    (failures : list failure) (f : failure) :
  Forall (λ e, binary_labels (true_labels e.2) ∧
               binary_labels (pred_labels e.2)) ms →
  find_top_failures ds ms K = Ok out →
  (lang, cats) ∈ out → (category, failures) ∈ cats → f ∈ failures →
  occurs_in (card f) (visualize_top_failures out) ∧
  ((category = FALSE_TOXIC ∧ card f = card_showing NON_TOXIC TOXIC f) ∨
   (category = FALSE_NON_TOXIC ∧ card f = card_showing TOXIC NON_TOXIC f)).
Proof.
  intros Hbin Hrun Hin Hcat Hf.
  split; [by eapply card_in_document|].
  destruct (find_failures_entries _ _ _ _ _ _ _ Hrun Hin)
    as [Hnil|(test_set & m & _ & Hm & Hlang)]; [by apply elem_of_nil in Hnil|].
  apply dict_get_elem_of in Hm. rewrite Forall_forall in Hbin.
  destruct (Hbin _ Hm) as [Ht Hp]. simpl in Ht, Hp.
  unfold binary_labels in Ht, Hp. rewrite Forall_forall in Ht.
  rewrite Forall_forall in Hp.
  destruct (language_failures_sound _ _ _ _ Hlang)
    as (ft & fn & -> & Hft & Hfn & _).
  assert (∀ g, reports test_set m g →
               (failure_true_label g = 0 ∨ failure_true_label g = 1) ∧
               (failure_pred_label g = 0 ∨ failure_pred_label g = 1)) as Hrep.
  { intros g (i & prob & r & Hti & Hpi & _). split.
    - apply Ht. by eapply list_elem_of_lookup_2.
    - apply Hp. by eapply list_elem_of_lookup_2. }
  unfold card, card_showing, label_name.
  apply elem_of_cons in Hcat as [[= -> ->]|Hcat].
  - left. destruct (Hft f Hf) as (Hr & H0 & Hne).
    destruct (Hrep f Hr) as [_ [?|H1]]; [done|].
    rewrite H0, H1. by rewrite bool_decide_eq_false_2, bool_decide_eq_true_2.
  - apply list_elem_of_singleton in Hcat as [= -> ->].
    right. destruct (Hfn f Hf) as (Hr & H0 & Hne).
    destruct (Hrep f Hr) as [[?|H1] [H2|H2]]; try done.
    + rewrite H1, H2.
      by rewrite bool_decide_eq_true_2, bool_decide_eq_false_2.
    + by rewrite H1, H2 in Hne.
Qed.

Lemma cards_agree_with_their_category_witness :
  let f := Failure 1 0 (Q2Qc (7 # 10)) "i hate you" in
  occurs_in (card f) (visualize_top_failures [("en", en_failures)]) ∧
  ((FALSE_NON_TOXIC = FALSE_TOXIC ∧ card f = card_showing NON_TOXIC TOXIC f) ∨
   (FALSE_NON_TOXIC = FALSE_NON_TOXIC ∧
    card f = card_showing TOXIC NON_TOXIC f)).
Proof.
  apply (cards_agree_with_their_category en_corpus en_matches 5
           [("en", en_failures)] "en" FALSE_NON_TOXIC en_failures
           [Failure 1 0 (Q2Qc (7 # 10)) "i hate you"]
           (Failure 1 0 (Q2Qc (7 # 10)) "i hate you")).
  - apply Forall_cons. split; [|apply Forall_nil_2].
    split; simpl; unfold binary_labels; repeat (apply Forall_cons; split);
      try apply Forall_nil_2; lia.
  - by vm_compute.
  - apply list_elem_of_singleton. reflexivity.
  - apply list_elem_of_further, list_elem_of_here.
  - apply list_elem_of_singleton. reflexivity.
Defined.
